(** * WorldSeedr: a shallow embedding of [Source/WorldSeedr.ts]

    The generator is embedded function by function, under the names of the
    source.

    - Numbers are integers ([Z]); the injected random source is the stream
      of the rationals it returns, one per call.
    - [undefined] is [None]; a string field that is absent is the empty
      string; reading a field through [undefined] throws [TypeError]; the two
      [throw] statements of [generate] are [SchemaNotFound] and
      [EmptyContents].
    - The state of a generator is threaded through a state and error monad:
      the number of random values drawn, the [generatedCommands] Array, the
      heap of the [arguments] objects that output nodes share with the child
      references of the registry, and the calls made to [onPlacement].
    - The cursor position that the strategies mutate in place is passed
      from one placement to the next; [generate] copies the box it is given,
      so a nested generation never changes the cursor of its parent.
    - The two [while] loops and the recursion through [generate] consume a
      fuel counter; running out of it is the outcome [OutOfFuel], which
      stands for a run that has not ended. *)

From Stdlib Require Import ZArith QArith Qround Lqa String List Lia.
From stdpp Require Import base gmap strings list.

Local Open Scope string_scope.
Local Open Scope list_scope.
Local Open Scope Z_scope.

(** ** Data model *)

(** Addresses of the [arguments] objects, which the output nodes share with
    the child references of the registry. *)
Definition addr := nat.

(** Values a child reference or an [arguments] object may hold. *)
Inductive Value :=
| VUndefined
| VNumber (n : Z)
| VString (s : string)
| VBoolean (b : bool)
| VObject (a : addr).

(** [IPossibilitySpacing]: [{ min, max, units? }]. *)
Record IPossibilitySpacing := mkSpacingObject {
  sp_min : Z;
  sp_max : Z;
  sp_units : option Z
}.

(** The [value] of a weighted spacing alternative: a Number or an Object. *)
Inductive SpacingValue :=
| SVNumber (n : Z)
| SVObject (o : IPossibilitySpacing).

Record SpacingChoice := mkSpacingChoice {
  sc_percent : option Z;
  sc_value : SpacingValue
}.

(** The [spacing] of a schema: absent, a Number, a [Number[]] holding a
    minimum and a maximum, an [Object[]] of weighted alternatives, or an
    Object with [min], [max] and [units]. *)
Inductive Spacing :=
| SpUndefined
| SpNumber (n : Z)
| SpRange (min max : Z)
| SpChoices (choices : list SpacingChoice)
| SpObject (o : IPossibilitySpacing).

(** One weighted alternative of an [arguments] Array. *)
Record ArgumentsChoice := mkArgumentsChoice {
  ac_percent : option Z;
  ac_values : option addr
}.

(** An object of the heap: its named properties and, for an Array of
    weighted [arguments] alternatives, its items. *)
Record HeapObject := mkHeapObject {
  ho_items : option (list ArgumentsChoice);
  ho_props : list (string * Value)
}.

Record Sizing := mkSizing {
  sz_width : option Z;
  sz_height : option Z
}.

Record Stretch := mkStretch {
  st_width : bool;
  st_height : bool
}.

(** [IPossibilityChild], with the optional fields the generator reads.
    [ch_props] is the reference seen as a table of its own properties, the
    way [copySchemaArguments] reads it through [choice[i]]. *)
Record IPossibilityChild := mkChild {
  ch_title : string;
  ch_type : string;
  ch_source : option string;
  ch_percent : option Z;
  ch_sizing : option Sizing;
  ch_arguments : option addr;
  ch_stretch : option Stretch;
  ch_props : list (string * Value)
}.

(** [IPossibilityContents].  A string field that is absent is the empty
    string, which is falsy like [undefined]. *)
Record IPossibilityContents := mkContents {
  ct_direction : string;
  ct_mode : string;
  ct_snap : string;
  ct_children : list IPossibilityChild;
  ct_spacing : Spacing;
  ct_argumentMap : option (list (string * string));
  ct_limit : option Z
}.

Record IPossibility := mkPossibility {
  p_width : Z;
  p_height : Z;
  p_contents : option IPossibilityContents
}.

(** The four edges of a bounding box; this is all the generator reads of
    an [IPosition]. *)
Record IPosition := mkPosition {
  top : Z;
  right : Z;
  bottom : Z;
  left : Z
}.

(** [IChoice]: an output node.  [c_contents] is the nested result that the
    Certain and Repeat strategies attach; [IGenerated] is what
    [getPositionExtremes] returns, the envelope with the children. *)
Inductive IChoice := mkChoice {
  c_title : string;
  c_type : string;
  c_arguments : option addr;
  c_width : Z;
  c_height : Z;
  c_top : Z;
  c_right : Z;
  c_bottom : Z;
  c_left : Z;
  c_contents : option IGenerated
}
with IGenerated := mkGenerated {
  g_top : Z;
  g_right : Z;
  g_bottom : Z;
  g_left : Z;
  g_children : list IChoice
}.

(** A node read as a position, as [generate(child.title, child)] does. *)
Definition positionOf (c : IChoice) : IPosition :=
  mkPosition (c_top c) (c_right c) (c_bottom c) (c_left c).

(** ** State, outcomes and the monad of the generator *)

(** The mutable state: how many values the random source has produced, the
    [generatedCommands] Array, the heap of [arguments] objects, and the
    record of the calls made to [onPlacement].  An address is an index in
    the heap; the objects that the registry refers to are in the heap the
    generator starts from, and a new object takes the next index. *)
Record State := mkState {
  drawn : nat;
  generatedCommands : list IChoice;
  heap : list HeapObject;
  placements : list (list IChoice)
}.

Inductive Error :=
| SchemaNotFound (name : string)
| EmptyContents (name : string)
| TypeError.

Inductive Outcome (A : Type) :=
| Returns (a : A)
| Throws (e : Error)
| OutOfFuel.
Arguments Returns {A} a.
Arguments Throws {A} e.
Arguments OutOfFuel {A}.

Definition M (A : Type) : Type := State -> Outcome A * State.

Definition ret {A} (a : A) : M A := fun s => (Returns a, s).

Definition bind {A B} (m : M A) (k : A -> M B) : M B :=
  fun s =>
    match m s with
    | (Returns a, s') => k a s'
    | (Throws e, s') => (Throws e, s')
    | (OutOfFuel, s') => (OutOfFuel, s')
    end.

Definition throw {A} (e : Error) : M A := fun s => (Throws e, s).

Definition outOfFuel {A} : M A := fun s => (OutOfFuel, s).

Notation "'let*' x ':=' m 'in' k" := (bind m (fun x => k))
  (at level 10, x name, m at level 100, k at level 200).
Notation "'run' m 'in' k" := (bind m (fun _ => k))
  (at level 10, m at level 100, k at level 200).

(** Reading a field of a value that may be [undefined]. *)
Definition defined {A} (o : option A) : M A :=
  match o with
  | Some a => ret a
  | None => throw TypeError
  end.

(** ** The generator *)

Section WorldSeedr.

(** [this.possibilities] and [this.random]: the schema registry, and the
    injected source of numbers in [0,1) as the stream of its values. *)
Variable possibilities : gmap string IPossibility.
Variable random : nat -> Q.

(** One call of [this.random()]. *)
Definition nextRandom : M Q :=
  fun s =>
    (Returns (random (drawn s)),
     mkState (S (drawn s)) (generatedCommands s) (heap s) (placements s)).

(** *** Generated commands *)

Definition clearGeneratedCommands : M unit :=
  fun s => (Returns tt, mkState (drawn s) [] (heap s) (placements s)).

(** [this.onPlacement(this.generatedCommands)]: the callback is outside the
    generator; the call is recorded with the Array it was handed. *)
Definition runGeneratedCommands : M unit :=
  fun s =>
    (Returns tt,
     mkState (drawn s) (generatedCommands s) (heap s)
       (placements s ++ [generatedCommands s])).

Definition pushGeneratedCommand (child : IChoice) : M unit :=
  fun s =>
    (Returns tt,
     mkState (drawn s) (generatedCommands s ++ [child]) (heap s)
       (placements s)).

(** *** Randomization utilities *)

(** [Math.floor(this.random() * 100) + 1] *)
Definition randomPercentage : M Z :=
  let* r := nextRandom in
  ret (Qfloor (r * inject_Z 100) + 1).

(** [Math.floor(this.random() * (1 + max - min)) + min] *)
Definition randomBetween (min max : Q) : M Q :=
  let* r := nextRandom in
  ret (inject_Z (Qfloor (r * (1 + max - min))) + min)%Q.

(** The [for] loop of [chooseAmong].  [sum] is [None] once an item without
    a [percent] made it [NaN], which no comparison accepts. *)
Fixpoint chooseAmongFrom {A} (percent : A -> option Z) (choice : Z)
    (sum : option Z) (choices : list A) : option A :=
  match choices with
  | [] => None
  | c :: rest =>
      let sum' :=
        match sum, percent c with
        | Some s, Some p => Some (s + p)
        | _, _ => None
        end in
      match sum' with
      | Some s =>
          if choice <=? s then Some c
          else chooseAmongFrom percent choice sum' rest
      | None => chooseAmongFrom percent choice sum' rest
      end
  end.

Definition chooseAmong {A} (percent : A -> option Z) (choices : list A)
    : M (option A) :=
  match choices with
  | [] => ret None
  | [c] => ret (Some c)
  | _ =>
      let* choice := randomPercentage in
      ret (chooseAmongFrom percent choice (Some 0) choices)
  end.

(** [choice.width <= width && choice.height <= height], on the two sizes
    of [choice]. *)
Definition doesChoiceFit (choiceWidth choiceHeight : Z) (w h : Z) : bool :=
  (choiceWidth <=? w) && (choiceHeight <=? h).

Definition choiceFitsPosition (choice : IChoice) (position : IPosition)
    : bool :=
  doesChoiceFit (c_width choice) (c_height choice)
    (right position - left position) (top position - bottom position).

(** The [filter] of [chooseAmongPosition]; a title without a schema makes
    [doesChoiceFit] read a field of [undefined]. *)
Fixpoint filterFitting (choices : list IPossibilityChild) (w h : Z)
    : option (list IPossibilityChild) :=
  match choices with
  | [] => Some []
  | choice :: rest =>
      match possibilities !! ch_title choice with
      | None => None
      | Some schema =>
          match filterFitting rest w h with
          | None => None
          | Some fitting =>
              if doesChoiceFit (p_width schema) (p_height schema) w h
              then Some (choice :: fitting)
              else Some fitting
          end
      end
  end.

Definition chooseAmongPosition (choices : list IPossibilityChild)
    (position : IPosition) : M (option IPossibilityChild) :=
  let w := right position - left position in
  let h := top position - bottom position in
  let* fitting := defined (filterFitting choices w h) in
  chooseAmong ch_percent fitting.

(** *** Spacing *)

(** [parseSpacingObject] on an Object.  The numbers of the model are
    integers: the product [randomBetween(min / units, max / units) * units]
    is taken exactly, and it is the integer [k * units + min] for the
    [k] that [Math.floor] produced. *)
Definition parseSpacingObject (spacing : SpacingValue) : M Z :=
  match spacing with
  | SVNumber n => ret n
  | SVObject o =>
      let units :=
        match sp_units o with
        | Some u => if u =? 0 then 1 else u
        | None => 1
        end in
      let* q := randomBetween (inject_Z (sp_min o) / inject_Z units)
                              (inject_Z (sp_max o) / inject_Z units) in
      ret (Qfloor (q * inject_Z units))
  end.

Definition parseSpacing (spacing : Spacing) : M Z :=
  match spacing with
  | SpUndefined => ret 0
  | SpNumber n => if n =? 0 then ret 0 else ret n
  | SpRange min max =>
      let* q := randomBetween (inject_Z min) (inject_Z max) in
      parseSpacingObject (SVNumber (Qfloor q))
  | SpChoices choices =>
      let* chosen := chooseAmong sc_percent choices in
      let* c := defined chosen in
      parseSpacingObject (sc_value c)
  | SpObject o => parseSpacingObject (SVObject o)
  end.

(** *** Position manipulation utilities *)

(** [objectCopy] on a position is a fresh record with the same edges; in
    the model a position is a value already. *)
Definition objectCopy (original : IPosition) : IPosition := original.

(** [objectMerge(schema, position)]: the schema's own [width], [height] and
    [contents] win, and the edges come from the position.  Only the edges
    are read from the result. *)
Definition objectMerge (primary : IPossibility) (secondary : IPosition)
    : IPosition :=
  objectCopy secondary.

Definition positionIsNotEmpty (position : IPosition) (direction : string)
    : bool :=
  if String.eqb direction "right" || String.eqb direction "left"
  then left position <? right position
  else bottom position <? top position.

Definition shrinkPositionByChild (position : IPosition) (child : IChoice)
    (direction : string) (spacing : Spacing) : M IPosition :=
  if String.eqb direction "top" then
    let* space := parseSpacing spacing in
    ret (mkPosition (top position) (right position)
           (c_top child + space) (left position))
  else if String.eqb direction "right" then
    let* space := parseSpacing spacing in
    ret (mkPosition (top position) (right position)
           (bottom position) (c_right child + space))
  else if String.eqb direction "bottom" then
    let* space := parseSpacing spacing in
    ret (mkPosition (c_bottom child - space) (right position)
           (bottom position) (left position))
  else if String.eqb direction "left" then
    let* space := parseSpacing spacing in
    ret (mkPosition (top position) (c_left child - space)
           (bottom position) (left position))
  else ret position.

Definition movePositionBySpacing (position : IPosition) (direction : string)
    (spacing : Spacing) : M IPosition :=
  let* space := parseSpacing spacing in
  if String.eqb direction "top" then
    ret (mkPosition (top position + space) (right position)
           (bottom position + space) (left position))
  else if String.eqb direction "right" then
    ret (mkPosition (top position) (right position + space)
           (bottom position) (left position + space))
  else if String.eqb direction "bottom" then
    ret (mkPosition (top position - space) (right position)
           (bottom position - space) (left position))
  else if String.eqb direction "left" then
    ret (mkPosition (top position) (right position - space)
           (bottom position) (left position - space))
  else ret position.

(** The [for] loop of [getPositionExtremes], from the second child on.  A
    node of the model always has its fields, so the early return on a child
    without keys is never taken. *)
Fixpoint extremesFrom (position : IPosition) (children : list IChoice)
    : IPosition :=
  match children with
  | [] => position
  | child :: rest =>
      extremesFrom
        (mkPosition (Z.max (top position) (c_top child))
                    (Z.max (right position) (c_right child))
                    (Z.min (bottom position) (c_bottom child))
                    (Z.min (left position) (c_left child)))
        rest
  end.

Definition getPositionExtremes (children : option (list IChoice))
    : option IGenerated :=
  match children with
  | None => None
  | Some [] => None
  | Some (child :: rest) =>
      let position := extremesFrom (positionOf child) rest in
      Some (mkGenerated (top position) (right position) (bottom position)
              (left position) (child :: rest))
  end.

(** *** The heap of [arguments] objects *)

(** [{}]: a new object, at the next free address. *)
Definition newObject : M addr :=
  fun s =>
    (Returns (length (heap s)),
     mkState (drawn s) (generatedCommands s)
       (heap s ++ [mkHeapObject None []]) (placements s)).

Fixpoint setProp (key : string) (v : Value) (props : list (string * Value))
    : list (string * Value) :=
  match props with
  | [] => [(key, v)]
  | (k, old) :: rest =>
      if String.eqb k key then (k, v) :: rest
      else (k, old) :: setProp key v rest
  end.

(** [object[key] = v] for the object at address [a]. *)
Definition setProperty (a : addr) (key : string) (v : Value) : M unit :=
  fun s =>
    (Returns tt,
     mkState (drawn s) (generatedCommands s)
       (alter (fun o => mkHeapObject (ho_items o) (setProp key v (ho_props o)))
              a (heap s))
       (placements s)).

Fixpoint getProp (key : string) (props : list (string * Value)) : Value :=
  match props with
  | [] => VUndefined
  | (k, v) :: rest => if String.eqb k key then v else getProp key rest
  end.

(** Reading the object at address [a]. *)
Definition getObject (a : addr) : M (option HeapObject) :=
  fun s => (Returns (heap s !! a), s).

(** [if (!output.arguments) { output.arguments = {}; }] *)
Definition ensureArguments (arguments : option addr) : M addr :=
  match arguments with
  | Some a => ret a
  | None => newObject
  end.

(** *** Choice parsing *)

Definition setArguments (a : option addr) (o : IChoice) : IChoice :=
  mkChoice (c_title o) (c_type o) a (c_width o) (c_height o)
    (c_top o) (c_right o) (c_bottom o) (c_left o) (c_contents o).

Definition setWidth (v : Z) (o : IChoice) : IChoice :=
  mkChoice (c_title o) (c_type o) (c_arguments o) v (c_height o)
    (c_top o) (c_right o) (c_bottom o) (c_left o) (c_contents o).

Definition setHeight (v : Z) (o : IChoice) : IChoice :=
  mkChoice (c_title o) (c_type o) (c_arguments o) (c_width o) v
    (c_top o) (c_right o) (c_bottom o) (c_left o) (c_contents o).

Definition setTop (v : Z) (o : IChoice) : IChoice :=
  mkChoice (c_title o) (c_type o) (c_arguments o) (c_width o) (c_height o)
    v (c_right o) (c_bottom o) (c_left o) (c_contents o).

Definition setRight (v : Z) (o : IChoice) : IChoice :=
  mkChoice (c_title o) (c_type o) (c_arguments o) (c_width o) (c_height o)
    (c_top o) v (c_bottom o) (c_left o) (c_contents o).

Definition setBottom (v : Z) (o : IChoice) : IChoice :=
  mkChoice (c_title o) (c_type o) (c_arguments o) (c_width o) (c_height o)
    (c_top o) (c_right o) v (c_left o) (c_contents o).

Definition setLeft (v : Z) (o : IChoice) : IChoice :=
  mkChoice (c_title o) (c_type o) (c_arguments o) (c_width o) (c_height o)
    (c_top o) (c_right o) (c_bottom o) v (c_contents o).

Definition setContents (g : option IGenerated) (o : IChoice) : IChoice :=
  mkChoice (c_title o) (c_type o) (c_arguments o) (c_width o) (c_height o)
    (c_top o) (c_right o) (c_bottom o) (c_left o) g.

(** [choice["arguments"] instanceof Array
      ? this.chooseAmong(choice["arguments"]).values : choice["arguments"]] *)
Definition chooseArguments (arguments : option addr) : M (option addr) :=
  match arguments with
  | None => ret None
  | Some a =>
      let* object := getObject a in
      match object with
      | Some (mkHeapObject (Some items) _) =>
          let* chosen := chooseAmong ac_percent items in
          let* c := defined chosen in
          ret (ac_values c)
      | _ => ret (Some a)
      end
  end.

(** [ensureSizingOnChoice]: a dimension of [choice.sizing] that is defined
    overrides the schema's. *)
Definition ensureSizingOnChoice (output : IChoice)
    (choice : IPossibilityChild) (schema : option IPossibility)
    : M IChoice :=
  let* w :=
    match ch_sizing choice with
    | Some (mkSizing (Some w) _) => ret w
    | _ => let* sc := defined schema in ret (p_width sc)
    end in
  let* h :=
    match ch_sizing choice with
    | Some (mkSizing _ (Some h)) => ret h
    | _ => let* sc := defined schema in ret (p_height sc)
    end in
  ret (setHeight h (setWidth w output)).

Definition ensureDirectionBoundsOnChoice (output : IChoice)
    (position : IPosition) : IChoice :=
  setLeft (left position)
    (setBottom (bottom position)
       (setRight (right position) (setTop (top position) output))).

(** [output[direction] = output[directionOpposites[direction]]
                         + output[directionSizing[direction]]].
    For a direction outside the four names the sum is stored under that
    name, which is none of the edges. *)
Definition setDirectionEdge (output : IChoice) (direction : string)
    : IChoice :=
  if String.eqb direction "top" then
    setTop (c_bottom output + c_height output) output
  else if String.eqb direction "right" then
    setRight (c_left output + c_width output) output
  else if String.eqb direction "bottom" then
    setBottom (c_top output + c_height output) output
  else if String.eqb direction "left" then
    setLeft (c_right output + c_width output) output
  else output.

(** The [switch (schema.contents.snap)] of [parseChoice]. *)
Definition snapChoice (output : IChoice) (snapTo : string) : IChoice :=
  if String.eqb snapTo "top" then
    setBottom (c_top output - c_height output) output
  else if String.eqb snapTo "right" then
    setLeft (c_right output - c_width output) output
  else if String.eqb snapTo "bottom" then
    setTop (c_bottom output + c_height output) output
  else if String.eqb snapTo "left" then
    setRight (c_left output + c_width output) output
  else output.

(** The [if (choice.stretch)] block of [parseChoice]. *)
Definition stretchChoice (output : IChoice) (choice : IPossibilityChild)
    (position : IPosition) : M IChoice :=
  match ch_stretch choice with
  | None => ret output
  | Some stretch =>
      let* a := ensureArguments (c_arguments output) in
      let output := setArguments (Some a) output in
      let* output :=
        if st_width stretch then
          let output := setLeft (left position) output in
          let output := setRight (right position) output in
          let output := setWidth (c_right output - c_left output) output in
          run setProperty a "width" (VNumber (c_width output)) in
          ret output
        else ret output in
      if st_height stretch then
        let output := setTop (top position) output in
        let output := setBottom (bottom position) output in
        let output := setHeight (c_top output - c_bottom output) output in
        run setProperty a "height" (VNumber (c_height output)) in
        ret output
      else ret output
  end.

(** The [for (i in map)] loop of [copySchemaArguments]. *)
Fixpoint copyMappedArguments (map : list (string * string))
    (choice : IPossibilityChild) (a : addr) : M unit :=
  match map with
  | [] => ret tt
  | (i, mapped) :: rest =>
      run setProperty a mapped (getProp i (ch_props choice)) in
      copyMappedArguments rest choice a
  end.

(** [copySchemaArguments]: [schema.contents.argumentMap] is read through
    [schema] and [schema.contents], either of which may be [undefined]. *)
Definition copySchemaArguments (schema : option IPossibility)
    (choice : IPossibilityChild) (output : IChoice) : M IChoice :=
  let* sc := defined schema in
  let* ct := defined (p_contents sc) in
  match ct_argumentMap ct with
  | None => ret output
  | Some map =>
      let* a := ensureArguments (c_arguments output) in
      run copyMappedArguments map choice a in
      ret (setArguments (Some a) output)
  end.

Definition parseChoice (choice : IPossibilityChild) (position : IPosition)
    (direction : string) : M IChoice :=
  let title := ch_title choice in
  let schema := possibilities !! title in
  let* arguments := chooseArguments (ch_arguments choice) in
  let output :=
    mkChoice title (ch_type choice) arguments 0 0 0 0 0 0 None in
  let* output := ensureSizingOnChoice output choice schema in
  let output := ensureDirectionBoundsOnChoice output position in
  let output := setDirectionEdge output direction in
  let* sc := defined schema in
  let* ct := defined (p_contents sc) in
  let output := snapChoice output (ct_snap ct) in
  let* output := stretchChoice output choice position in
  copySchemaArguments schema choice output.

(** [this.possibilities[choice.source]]: an absent [source] is the key
    ["undefined"]. *)
Definition parseChoiceFinal (parent : IPossibilityContents)
    (choice : IPossibilityChild) (position : IPosition) (direction : string)
    : M IChoice :=
  let schema := possibilities !! default "undefined" (ch_source choice) in
  let* sc := defined schema in
  let output :=
    mkChoice (ch_title choice) "Known" (ch_arguments choice)
      (p_width sc) (p_height sc)
      (top position) (right position) (bottom position) (left position)
      None in
  copySchemaArguments schema choice output.

(** *** The four strategies

    They call [this.generate] on the children that are not "Known"; the
    call is the variable [generate] here, and the fixpoint [generate] below
    ties the knot. *)

Section Strategies.

Variable generate : string -> IPosition -> M (option IGenerated).

(** [if (output.type !== "Known") output.contents = generate(...)] *)
Definition expandChoice (output : IChoice) (position : IPosition)
    : M IChoice :=
  if String.eqb (c_type output) "Known" then ret output
  else
    let* generated := generate (c_title output) position in
    ret (setContents generated output).

(** The [map] of [generateChildrenCertain], with the cursor [position] that
    its callback mutates.  [parseChoice] always returns a node, so the
    [filter] that follows keeps every element. *)
Fixpoint mapCertain (contents : IPossibilityContents)
    (choices : list IPossibilityChild) (position : IPosition)
    (direction : string) (spacing : Spacing) : M (list IChoice) :=
  match choices with
  | [] => ret []
  | choice :: rest =>
      if String.eqb (ch_type choice) "Final" then
        let* output := parseChoiceFinal contents choice position direction in
        let* outputs := mapCertain contents rest position direction spacing in
        ret (output :: outputs)
      else
        let* output := parseChoice choice position direction in
        let* output := expandChoice output position in
        let* position :=
          shrinkPositionByChild position output direction spacing in
        let* outputs := mapCertain contents rest position direction spacing in
        ret (output :: outputs)
  end.

Definition generateChildrenCertain (contents : IPossibilityContents)
    (position : IPosition) (direction : string) (spacing : Spacing)
    : M (list IChoice) :=
  mapCertain contents (ct_children contents) position direction spacing.

(** The candidate of one iteration of [generateChildrenRepeat]: the
    [if (choice.type === "Final") ... else ...] of the loop body. *)
Definition repeatChild (contents : IPossibilityContents)
    (choice : IPossibilityChild) (position : IPosition) (direction : string)
    : M IChoice :=
  if String.eqb (ch_type choice) "Final" then
    parseChoiceFinal contents choice position direction
  else
    let* child := parseChoice choice position direction in
    expandChoice child position.

(** The [while] loop of [generateChildrenRepeat]; [fuel] bounds the number
    of its iterations.  [choices[i]] is read through its [type], which
    throws when the list is empty. *)
Fixpoint whileRepeat (fuel : nat) (contents : IPossibilityContents)
    (position : IPosition) (direction : string) (spacing : Spacing)
    (children : list IChoice) (i : nat) : M (list IChoice) :=
  if positionIsNotEmpty position direction then
    match fuel with
    | O => outOfFuel
    | S fuel =>
        let choices := ct_children contents in
        let* choice := defined (choices !! i) in
        let* child := repeatChild contents choice position direction in
        if choiceFitsPosition child position then
          let* position :=
            shrinkPositionByChild position child direction spacing in
          let i := S i in
          let i := if (length choices <=? i)%nat then O else i in
          whileRepeat fuel contents position direction spacing
            (children ++ [child]) i
        else ret children
    end
  else ret children.

Definition generateChildrenRepeat (fuel : nat)
    (contents : IPossibilityContents) (position : IPosition)
    (direction : string) (spacing : Spacing) : M (list IChoice) :=
  whileRepeat fuel contents position direction spacing [] O.

Definition generateChild (contents : IPossibilityContents)
    (position : IPosition) (direction : string) : M (option IChoice) :=
  let* choice := chooseAmongPosition (ct_children contents) position in
  match choice with
  | None => ret None
  | Some choice =>
      let* output := parseChoice choice position direction in
      ret (Some output)
  end.

(** [contents.limit && children.length > contents.limit] *)
Definition overLimit (contents : IPossibilityContents)
    (children : list IChoice) : bool :=
  match ct_limit contents with
  | Some l => negb (l =? 0) && (l <? Z.of_nat (length children))
  | None => false
  end.

(** The [while] loop of [generateChildrenRandom]; the result [None] is the
    bare [return] taken when the limit is exceeded. *)
Fixpoint whileRandom (fuel : nat) (contents : IPossibilityContents)
    (position : IPosition) (direction : string) (spacing : Spacing)
    (children : list IChoice) : M (option (list IChoice)) :=
  if positionIsNotEmpty position direction then
    match fuel with
    | O => outOfFuel
    | S fuel =>
        let* child := generateChild contents position direction in
        match child with
        | None => ret (Some children)
        | Some child =>
            let* position :=
              shrinkPositionByChild position child direction spacing in
            let children := children ++ [child] in
            if overLimit contents children then ret None
            else whileRandom fuel contents position direction spacing children
        end
    end
  else ret (Some children).

Definition generateChildrenRandom (fuel : nat)
    (contents : IPossibilityContents) (position : IPosition)
    (direction : string) (spacing : Spacing) : M (option (list IChoice)) :=
  whileRandom fuel contents position direction spacing [].

(** The [map] of [generateChildrenMultiple]: every child is parsed against
    a copy of the cursor, which then moves by the spacing when a direction
    is set. *)
Fixpoint mapMultiple (choices : list IPossibilityChild)
    (position : IPosition) (direction : string) (spacing : Spacing)
    : M (list IChoice) :=
  match choices with
  | [] => ret []
  | choice :: rest =>
      let* output := parseChoice choice (objectCopy position) direction in
      let* position :=
        if String.eqb direction "" then ret position
        else movePositionBySpacing position direction spacing in
      let* outputs := mapMultiple rest position direction spacing in
      ret (output :: outputs)
  end.

Definition generateChildrenMultiple (contents : IPossibilityContents)
    (position : IPosition) (direction : string) (spacing : Spacing)
    : M (list IChoice) :=
  mapMultiple (ct_children contents) position direction spacing.

(** [contents.spacing || 0] *)
Definition spacingOrZero (spacing : Spacing) : Spacing :=
  match spacing with
  | SpUndefined => SpNumber 0
  | SpNumber n => if n =? 0 then SpNumber 0 else SpNumber n
  | _ => spacing
  end.

(** [generateChildren], given the [contents] that [generate] found on the
    schema.  [generate] passes no default direction, so
    [contents.direction || direction] is [contents.direction], or absent. *)
Definition generateChildren (fuel : nat) (schema : IPossibility)
    (contents : IPossibilityContents) (position : IPosition)
    : M (option IGenerated) :=
  let spacing := spacingOrZero (ct_spacing contents) in
  let objectMerged := objectMerge schema position in
  let direction := ct_direction contents in
  let* children :=
    if String.eqb (ct_mode contents) "Random" then
      generateChildrenRandom fuel contents objectMerged direction spacing
    else if String.eqb (ct_mode contents) "Certain" then
      let* cs :=
        generateChildrenCertain contents objectMerged direction spacing in
      ret (Some cs)
    else if String.eqb (ct_mode contents) "Repeat" then
      let* cs :=
        generateChildrenRepeat fuel contents objectMerged direction spacing in
      ret (Some cs)
    else if String.eqb (ct_mode contents) "Multiple" then
      let* cs :=
        generateChildrenMultiple contents objectMerged direction spacing in
      ret (Some cs)
    else ret None in
  ret (getPositionExtremes children).

End Strategies.

(** *** Hardcore generation functions *)

(** [generate(name, command)].  The nested calls made by the strategies
    run with one unit of fuel less; the two checks come before any use of
    the fuel. *)
Fixpoint generate (fuel : nat) (name : string) (command : IPosition)
    : M (option IGenerated) :=
  match possibilities !! name with
  | None => throw (SchemaNotFound name)
  | Some schema =>
      match p_contents schema with
      | None => throw (EmptyContents name)
      | Some contents =>
          generateChildren
            (fun name command =>
               match fuel with
               | O => outOfFuel
               | S fuel => generate fuel name command
               end)
            fuel schema contents (objectCopy command)
      end
  end.

(** The [for] loop of [generateFull] over [generated.children]; [full] is
    the recursive call [this.generateFull]. *)
Fixpoint walkChildren (full : IChoice -> M unit) (children : list IChoice)
    : M unit :=
  match children with
  | [] => ret tt
  | child :: rest =>
      run (if String.eqb (c_type child) "Known" then
             pushGeneratedCommand child
           else if String.eqb (c_type child) "Random" then full child
           else ret tt) in
      walkChildren full rest
  end.

Fixpoint generateFull (fuel : nat) (schema : IChoice) : M unit :=
  let* generated := generate fuel (c_title schema) (positionOf schema) in
  match generated with
  | None => ret tt
  | Some generated =>
      walkChildren
        (fun child =>
           match fuel with
           | O => outOfFuel
           | S fuel => generateFull fuel child
           end)
        (g_children generated)
  end.

End WorldSeedr.

(** ** Auxiliary definitions for the statements *)

(** The state of a generator right after construction, with an empty
    heap. *)
Definition initialState : State := mkState 0 [] [] [].

(** The accumulated weight of a list of weighted items. *)
Definition totalPercent {A} (percent : A -> option Z) (choices : list A)
    : Z :=
  fold_right (fun c acc => default 0 (percent c) + acc) 0 choices.

(** Every item has a weight, and none is negative. *)
Definition weighted {A} (percent : A -> option Z) (choices : list A) : Prop :=
  Forall (fun c => exists p, percent c = Some p /\ 0 <= p) choices.

(** A terminal schema: a fixed size and empty contents. *)
Definition terminal (w h : Z) (snapTo : string) : IPossibility :=
  mkPossibility w h
    (Some (mkContents "" "" snapTo [] SpUndefined None None)).

(** A child reference to a terminal schema. *)
Definition known (title : string) : IPossibilityChild :=
  mkChild title "Known" None None None None None [].

Definition weightedKnown (title : string) (percent : Z) : IPossibilityChild :=
  mkChild title "Known" None (Some percent) None None None [].

Definition final (title source : string) : IPossibilityChild :=
  mkChild title "Final" (Some source) None None None None [].

(** ** Computations built from the generator's primitives

    [Built acc fuelled m1 m2]: [m1] and [m2] are the same computation, run with the
    random sources [random1] and [random2]; it is made of [ret], [throw],
    [bind] and the primitive operations on the state.  With [acc = false]
    it never touches the [generatedCommands] Array. *)

Section Built.

Variables random1 random2 : nat -> Q.

Inductive Built (acc fuelled : bool) : forall A : Type, M A -> M A -> Prop :=
| Built_ret : forall A (a : A), Built acc fuelled A (ret a) (ret a)
| Built_throw : forall A (e : Error), Built acc fuelled A (throw e) (throw e)
| Built_outOfFuel : forall A,
    fuelled = true -> Built acc fuelled A outOfFuel outOfFuel
| Built_bind : forall A B (m1 m2 : M A) (k1 k2 : A -> M B),
    Built acc fuelled A m1 m2 ->
    (forall a : A, Built acc fuelled B (k1 a) (k2 a)) ->
    Built acc fuelled B (bind m1 k1) (bind m2 k2)
| Built_nextRandom : Built acc fuelled Q (nextRandom random1) (nextRandom random2)
| Built_getObject : forall a : addr,
    Built acc fuelled (option HeapObject) (getObject a) (getObject a)
| Built_newObject : Built acc fuelled addr newObject newObject
| Built_setProperty : forall (a : addr) (key : string) (v : Value),
    Built acc fuelled unit (setProperty a key v) (setProperty a key v)
| Built_push : forall child : IChoice,
    acc = true ->
    Built acc fuelled unit (pushGeneratedCommand child) (pushGeneratedCommand child).

End Built.

Arguments Built random1 random2 acc fuelled {A} _ _.

(** A state with its [generatedCommands] Array replaced. *)
Definition withCommands (commands : list IChoice) (s : State) : State :=
  mkState (drawn s) commands (heap s) (placements s).

(** ** The walk of [generateFull], as the specification words it

    For each child in result order: a "Known" child is collected, a
    "Random" child is expanded recursively and contributes the "Known"
    descendants of its expansion, and any other child is skipped.  The
    commands come back as a list, in depth-first order, and the
    [generatedCommands] Array is not involved. *)

Section Collect.

Variable possibilities : gmap string IPossibility.
Variable random : nat -> Q.

Fixpoint collectChildren (full : IChoice -> M (list IChoice))
    (children : list IChoice) : M (list IChoice) :=
  match children with
  | [] => ret []
  | child :: rest =>
      let* here :=
        if String.eqb (c_type child) "Known" then ret [child]
        else if String.eqb (c_type child) "Random" then full child
        else ret [] in
      let* there := collectChildren full rest in
      ret (here ++ there)
  end.

Fixpoint collectFull (fuel : nat) (schema : IChoice) : M (list IChoice) :=
  let* generated :=
    generate possibilities random fuel (c_title schema) (positionOf schema) in
  match generated with
  | None => ret []
  | Some generated =>
      collectChildren
        (fun child =>
           match fuel with
           | O => outOfFuel
           | S fuel => collectFull fuel child
           end)
        (g_children generated)
  end.

End Collect.

(** The children of type "Known", in order. *)
Definition knownChildren (children : list IChoice) : list IChoice :=
  List.filter (fun child => String.eqb (c_type child) "Known") children.

(** Inputs of the examples: a row filled at random with two kinds of
    blocks, the node it is generated from, and two random sources that
    agree on their first two values. *)
Definition randomRow : gmap string IPossibility :=
  <[ "Row" := mkPossibility 100 10
       (Some (mkContents "right" "Random" ""
                [weightedKnown "A" 50; weightedKnown "B" 50]
                SpUndefined None None)) ]>
  (<[ "A" := terminal 40 10 "" ]> (<[ "B" := terminal 60 10 "" ]> ∅)).

Definition rowNode : IChoice :=
  mkChoice "Row" "Random" None 100 10 10 100 0 0 None.

Definition quarterThenHigh : nat -> Q :=
  fun i => if (i <? 2)%nat then (1 # 4)%Q else (3 # 4)%Q.

Definition alwaysQuarter : nat -> Q := fun _ => (1 # 4)%Q.

(** [Collects m c]: the imperative walk [m] appends to the accumulator
    exactly the commands that [c] returns, in the same order, and has the
    same outcome and the same effect on the rest of the state. *)
Definition Collects (m : M unit) (c : M (list IChoice)) : Prop :=
  forall (X : list IChoice) (s : State),
    match c s with
    | (Returns commands, s') =>
        m (withCommands X s) = (Returns tt, withCommands (X ++ commands) s')
    | (Throws e, _) => fst (m (withCommands X s)) = Throws e
    | (OutOfFuel, _) => fst (m (withCommands X s)) = OutOfFuel
    end.

(** Inputs of the examples: a yard whose expansion is one "Known" block
    followed by one "Random" row, followed by a decoration of a type the
    walk does not know. *)
Definition yard : gmap string IPossibility :=
  <[ "Yard" := mkPossibility 100 10
       (Some (mkContents "right" "Multiple" ""
                [known "A";
                 mkChild "Row" "Random" None None None None None [];
                 mkChild "B" "Decoration" None None None None None []]
                SpUndefined None None)) ]>
  randomRow.

Definition yardNode : IChoice :=
  mkChoice "Yard" "Random" None 100 10 10 100 0 0 None.

(** Inputs of the examples: two weighted items that accumulate 50, a
    random source whose first percentage is 51, and a registry whose
    "Cannon" schema has a size and nothing else. *)
Definition underWeighted : list IPossibilityChild :=
  [weightedKnown "A" 30; weightedKnown "B" 20].

Definition alwaysHalf : nat -> Q := fun _ => (1 # 2)%Q.

Definition bareCannon : gmap string IPossibility :=
  {[ "Cannon" := mkPossibility 8 8 None ]}.

Definition snappedCannon : gmap string IPossibility :=
  {[ "Cannon" := terminal 8 8 "bottom" ]}.

(** Two states that differ at most by their heap. *)
Definition heapOnly (s s' : State) : Prop :=
  drawn s' = drawn s /\
  generatedCommands s' = generatedCommands s /\
  placements s' = placements s.

(** The size a child reference is placed with: a dimension of its [sizing]
    when it has one, the schema's otherwise. *)
Definition choiceWidth (choice : IPossibilityChild) (sc : IPossibility) : Z :=
  match ch_sizing choice with
  | Some (mkSizing (Some w) _) => w
  | _ => p_width sc
  end.

Definition choiceHeight (choice : IPossibilityChild) (sc : IPossibility) : Z :=
  match ch_sizing choice with
  | Some (mkSizing _ (Some h)) => h
  | _ => p_height sc
  end.

(** The node of [parseChoice] once sized, seeded from the cursor, given its
    leading edge and snapped: what [parseChoice] has built before the stretch
    and the argument map. *)
Definition placeChoice (choice : IPossibilityChild) (arguments : option addr)
    (sc : IPossibility) (ct : IPossibilityContents) (position : IPosition)
    (direction : string) : IChoice :=
  snapChoice
    (setDirectionEdge
       (ensureDirectionBoundsOnChoice
          (setHeight (choiceHeight choice sc)
             (setWidth (choiceWidth choice sc)
                (mkChoice (ch_title choice) (ch_type choice) arguments
                   0 0 0 0 0 0 None)))
          position)
       direction)
    (ct_snap ct).

(** A terminal child reference of width [w]: of type "Known", without
    arguments or stretch, and whose schema has contents without an argument
    map. *)
Definition plainTerminal (possibilities : gmap string IPossibility)
    (choice : IPossibilityChild) (w : Z) : Prop :=
  ch_type choice = "Known" /\
  ch_arguments choice = None /\
  ch_stretch choice = None /\
  exists sc ct,
    possibilities !! ch_title choice = Some sc /\
    p_contents sc = Some ct /\
    ct_argumentMap ct = None /\
    choiceWidth choice sc = w.

(** Inputs of the examples: a row of two blocks of widths 40 and 60. *)
Definition certainRow : gmap string IPossibility :=
  <[ "Row" := mkPossibility 100 10
       (Some (mkContents "right" "Certain" "" [known "A"; known "B"]
                (SpNumber 0) None None)) ]>
  (<[ "A" := terminal 40 10 "" ]> (<[ "B" := terminal 60 10 "" ]> ∅)).

(** Inputs of the examples: the random row with a limit of one child. *)
Definition limitedContents : IPossibilityContents :=
  mkContents "right" "Random" ""
    [weightedKnown "A" 50; weightedKnown "B" 50] SpUndefined None (Some 1).

Definition limitedRow : gmap string IPossibility :=
  <[ "Row" := mkPossibility 100 10 (Some limitedContents) ]> randomRow.

(** ** Repeat mode: boxes, extents and the children it can place *)

(** The box of [child] lies within [box], edge by edge. *)
Definition contained (box : IPosition) (child : IChoice) : Prop :=
  left box <= c_left child /\ c_left child <= c_right child /\
  c_right child <= right box /\
  bottom box <= c_bottom child /\ c_bottom child <= c_top child /\
  c_top child <= top box.

(** The length of a position along a direction, as [positionIsNotEmpty]
    measures it. *)
Definition extent (direction : string) (position : IPosition) : Z :=
  if String.eqb direction "right" || String.eqb direction "left"
  then right position - left position
  else top position - bottom position.

(** The geometry of the [if (choice.stretch)] block of [parseChoice]. *)
Definition stretchBox (choice : IPossibilityChild) (position : IPosition)
    (output : IChoice) : IChoice :=
  match ch_stretch choice with
  | None => output
  | Some stretch =>
      let output :=
        if st_width stretch then
          setWidth (right position - left position)
            (setRight (right position) (setLeft (left position) output))
        else output in
      if st_height stretch then
        setHeight (top position - bottom position)
          (setBottom (bottom position) (setTop (top position) output))
      else output
  end.

(** A spacing that only resolves to numbers that are not negative, with
    the random source at hand. *)
Definition nonNegativeSpacing (random : nat -> Q) (spacing : Spacing) : Prop :=
  forall s n s', parseSpacing random spacing s = (Returns n, s') -> 0 <= n.

(** Spacings that are not negative by their shape: a plain number, a range,
    weighted alternatives or an object whose bounds are ordered and not
    negative. *)
Definition nonNegativeObject (o : IPossibilitySpacing) : Prop :=
  0 <= sp_min o /\ sp_min o <= sp_max o /\
  match sp_units o with
  | Some u => 0 <= u
  | None => True
  end.

Definition nonNegativeValue (v : SpacingValue) : Prop :=
  match v with
  | SVNumber n => 0 <= n
  | SVObject o => nonNegativeObject o
  end.

Definition nonNegativeShape (spacing : Spacing) : Prop :=
  match spacing with
  | SpUndefined => True
  | SpNumber n => 0 <= n
  | SpRange min max => 0 <= min /\ min <= max
  | SpChoices choices =>
      Forall (fun c => nonNegativeValue (sc_value c)) choices
  | SpObject o => nonNegativeObject o
  end.

(** A child reference that Repeat mode places without expanding it: a
    "Final" reference, or a "Known" one placed with a positive width and
    height. *)
Definition positiveChild (possibilities : gmap string IPossibility)
    (choice : IPossibilityChild) : Prop :=
  ch_type choice = "Final" \/
  (ch_type choice = "Known" /\
   forall sc, possibilities !! ch_title choice = Some sc ->
              1 <= choiceWidth choice sc /\ 1 <= choiceHeight choice sc).

(** The cursor of a strategy lies within [box], and is well formed across
    the direction of placement. *)
Definition cursorWithin (direction : string) (box position : IPosition)
    : Prop :=
  left box <= left position /\ right position <= right box /\
  bottom box <= bottom position /\ top position <= top box /\
  if String.eqb direction "right" || String.eqb direction "left"
  then bottom position <= top position
  else left position <= right position.

(** Inputs of the examples: rows in Repeat mode.  [repeatRow] repeats a
    block of width 40 rightwards, 2 to 5 apart; [zeroWidthRow] repeats a line of width 0;
    [leftwardRow] repeats the block leftwards; [backwardRow] repeats it with
    a spacing of -40; [selfRow] repeats itself. *)
Definition repeatContents : IPossibilityContents :=
  mkContents "right" "Repeat" "" [known "A"] (SpRange 2 5) None None.

Definition repeatRow : gmap string IPossibility :=
  <[ "Row" := mkPossibility 100 10 (Some repeatContents) ]>
  (<[ "A" := terminal 40 10 "" ]> ∅).

Definition zeroWidthContents : IPossibilityContents :=
  mkContents "right" "Repeat" "" [known "Line"] (SpNumber 0) None None.

Definition zeroWidthRow : gmap string IPossibility :=
  <[ "Row" := mkPossibility 100 10 (Some zeroWidthContents) ]>
  (<[ "Line" := terminal 0 10 "" ]> ∅).

Definition leftwardContents : IPossibilityContents :=
  mkContents "left" "Repeat" "" [known "A"] (SpNumber 0) None None.

Definition leftwardRow : gmap string IPossibility :=
  <[ "Row" := mkPossibility 100 10 (Some leftwardContents) ]>
  (<[ "A" := terminal 40 10 "" ]> ∅).

Definition backwardContents : IPossibilityContents :=
  mkContents "right" "Repeat" "" [known "A"] (SpNumber (-40)) None None.

Definition backwardRow : gmap string IPossibility :=
  <[ "Row" := mkPossibility 100 10 (Some backwardContents) ]>
  (<[ "A" := terminal 40 10 "" ]> ∅).

Definition selfContents : IPossibilityContents :=
  mkContents "right" "Repeat" ""
    [mkChild "Row" "Random" None None None None None []]
    (SpNumber 0) None None.

Definition selfRow : gmap string IPossibility :=
  {[ "Row" := mkPossibility 100 10 (Some selfContents) ]}.

Definition rowBox : IPosition := mkPosition 10 100 0 0.

(** ** Further definitions for the statements *)

(** The state after one call of the random source. *)
Definition afterDraw (s : State) : State :=
  mkState (S (drawn s)) (generatedCommands s) (heap s) (placements s).

(** [spacing.units || 1] *)
Definition unitsOf (o : IPossibilitySpacing) : Z :=
  match sp_units o with
  | Some u => if u =? 0 then 1 else u
  | None => 1
  end.

Definition sevenTenths : nat -> Q := fun _ => (7 # 10)%Q.

Definition nineTenths : nat -> Q := fun _ => (9 # 10)%Q.

(** The envelope [g] encloses the box of [child]. *)
Definition encloses (g : IGenerated) (child : IChoice) : Prop :=
  c_top child <= g_top g /\ c_right child <= g_right g /\
  g_bottom g <= c_bottom child /\ g_left g <= c_left child.

(** Inputs of the examples: two blocks whose weights add up to 100, and a
    schema whose mode is none of the four. *)
Definition fullyWeighted : list IPossibilityChild :=
  [weightedKnown "A" 30; weightedKnown "B" 70].

Definition scatterContents : IPossibilityContents :=
  mkContents "right" "Scatter" "" [known "A"] (SpRange 2 5) None None.

Definition scatterRow : gmap string IPossibility :=
  <[ "Row" := mkPossibility 100 10 (Some scatterContents) ]>
  (<[ "A" := terminal 40 10 "" ]> ∅).

(** The title names a schema that has contents. *)
Definition resolves (possibilities : gmap string IPossibility)
    (title : string) : Prop :=
  exists sc ct,
    possibilities !! title = Some sc /\ p_contents sc = Some ct.

(** Inputs of the examples: a block that snaps to the right, placed
    leftwards, and a floor stretched over the width of the cursor. *)
Definition snappedBlocks : gmap string IPossibility :=
  <[ "A" := terminal 40 10 "right" ]> (<[ "Floor" := terminal 8 8 "top" ]> ∅).

Definition stretched (title : string) : IPossibilityChild :=
  mkChild title "Known" None None None None (Some (mkStretch true false)) [].

(** The properties of the object at address [a], none when there is no
    such object. *)
Definition propsAt (s : State) (a : addr) : list (string * Value) :=
  match heap s !! a with
  | Some o => ho_props o
  | None => []
  end.

(** The keys that an argument map writes. *)
Definition mappedKeys (map : list (string * string)) : list string :=
  List.map snd map.

(** Inputs of the examples: a pipe whose schema exposes the [height] of a
    reference as the argument [size], a reference to it that carries its own
    arguments object, and the heap with that object. *)
Definition pipes : gmap string IPossibility :=
  {[ "Pipe" := mkPossibility 16 8
       (Some (mkContents "" "" "bottom" [] SpUndefined
                (Some [("height", "size")]) None)) ]}.

Definition tallPipe : IPossibilityChild :=
  mkChild "Pipe" "Known" None None None (Some 0%nat)
    (Some (mkStretch true false)) [("height", VNumber 24)].

Definition pipeHeap : State :=
  mkState 0 [] [mkHeapObject None [("color", VString "green")]] [].

(** A child reference that is placed with a width and a height of at least
    1 and not beyond the fixed ones of its schema, which are the ones that
    [chooseAmongPosition] compares with the cursor. *)
Definition snugChild (possibilities : gmap string IPossibility)
    (choice : IPossibilityChild) : Prop :=
  forall sc,
    possibilities !! ch_title choice = Some sc ->
    1 <= choiceWidth choice sc <= p_width sc /\
    1 <= choiceHeight choice sc <= p_height sc.

(** Inputs of the examples: rows in Random mode over blocks of width 40
    and 30, 2 apart. *)
Definition mixedContents : IPossibilityContents :=
  mkContents "right" "Random" "" [weightedKnown "A" 50; weightedKnown "B" 50]
    (SpNumber 2) None None.

Definition mixedRow : gmap string IPossibility :=
  <[ "Row" := mkPossibility 100 10 (Some mixedContents) ]>
  (<[ "A" := terminal 40 10 "" ]> (<[ "B" := terminal 30 10 "" ]> ∅)).

(** The edge of a node, and of the cursor, that placement starts from, and
    the edge of a node that placement continues from, rightwards and
    upwards. *)
Definition leadingEdge (direction : string) (output : IChoice) : Z :=
  if String.eqb direction "right" then c_left output else c_bottom output.

Definition trailingEdge (direction : string) (output : IChoice) : Z :=
  if String.eqb direction "right" then c_right output else c_top output.

Definition cursorStart (direction : string) (position : IPosition) : Z :=
  if String.eqb direction "right" then left position else bottom position.

(** [tiled direction n start choices outputs]: there is one node per child
    reference, in order and under its title; the first node starts at
    [start], and each further node starts [n] after the end of the last node
    before it that is not "Final". *)
Fixpoint tiled (direction : string) (n start : Z)
    (choices : list IPossibilityChild) (outputs : list IChoice) : Prop :=
  match choices, outputs with
  | [], [] => True
  | choice :: choices, output :: outputs =>
      c_title output = ch_title choice /\
      leadingEdge direction output = start /\
      tiled direction n
        (if String.eqb (ch_type choice) "Final" then start
         else trailingEdge direction output + n)
        choices outputs
  | _, _ => False
  end.

(** Inputs of the examples: a row of a block, a flag pinned to the rest of
    the row, and a second block, 3 apart. *)
Definition flaggedContents : IPossibilityContents :=
  mkContents "right" "Certain" "" [known "A"; final "Flag" "B"; known "B"]
    (SpNumber 3) None None.

Definition flaggedRow : gmap string IPossibility :=
  <[ "Row" := mkPossibility 100 10 (Some flaggedContents) ]>
  (<[ "A" := terminal 40 10 "" ]> (<[ "B" := terminal 30 10 "" ]> ∅)).

(** [stepped direction n start choices outputs]: there is one node per
    child reference, in order and under its title, and the nodes start at
    [start], [start + n], [start + 2 n] and so on. *)
Fixpoint stepped (direction : string) (n start : Z)
    (choices : list IPossibilityChild) (outputs : list IChoice) : Prop :=
  match choices, outputs with
  | [], [] => True
  | choice :: choices, output :: outputs =>
      c_title output = ch_title choice /\
      leadingEdge direction output = start /\
      stepped direction n (start + n) choices outputs
  | _, _ => False
  end.

(** Inputs of the examples: two blocks of widths 40 and 30 placed in
    Multiple mode, 8 apart. *)
Definition layeredContents : IPossibilityContents :=
  mkContents "right" "Multiple" "" [known "A"; known "B"]
    (SpNumber 8) None None.

Definition layeredRow : gmap string IPossibility :=
  <[ "Row" := mkPossibility 100 10 (Some layeredContents) ]>
  (<[ "A" := terminal 40 10 "" ]> (<[ "B" := terminal 30 10 "" ]> ∅)).

(** Inputs of the examples: a row that repeats a block of width 40 and a
    block of width 30 in turn. *)
Definition alternatingContents : IPossibilityContents :=
  mkContents "right" "Repeat" "" [known "A"; known "B"] (SpNumber 0)
    None None.

Definition alternatingRow : gmap string IPossibility :=
  <[ "Row" := mkPossibility 120 10 (Some alternatingContents) ]>
  (<[ "A" := terminal 40 10 "" ]> (<[ "B" := terminal 30 10 "" ]> ∅)).

(** [ensures P m]: when [m] returns, its result satisfies [P]; and when it
    throws, the error is the [TypeError] of a read on [undefined], not one of
    the two errors that [generate] words itself. *)
Definition ensures {A} (P : A -> Prop) (m : M A) : Prop :=
  forall s,
    match fst (m s) with
    | Returns a => P a
    | Throws e => e = TypeError
    | OutOfFuel => True
    end.

(** A node that the walk of [generateFull] can take: it is "Known", or
    its title names a schema with contents. *)
Definition sound (possibilities : gmap string IPossibility)
    (node : IChoice) : Prop :=
  c_type node = "Known" \/ resolves possibilities (c_title node).

Definition soundChildren (possibilities : gmap string IPossibility)
    (generated : option IGenerated) : Prop :=
  match generated with
  | Some g => Forall (sound possibilities) (g_children g)
  | None => True
  end.

(** Inputs of the examples: a row whose only child has no schema. *)
Definition ghostRow : gmap string IPossibility :=
  {[ "Row" := mkPossibility 100 10
       (Some (mkContents "right" "Certain" ""
                [mkChild "Ghost" "Random" None None None None None []]
                (SpNumber 0) None None)) ]}.

(** Inputs of the examples: a heap whose first object is a list of two
    alternatives of arguments that accumulate 50. *)
Definition alternativesHeap : State :=
  mkState 0 []
    [mkHeapObject
       (Some [mkArgumentsChoice (Some 30) (Some 1%nat);
              mkArgumentsChoice (Some 20) (Some 2%nat)]) [];
     mkHeapObject None [("color", VString "green")];
     mkHeapObject None [("color", VString "red")]]
    [].

(** Inputs of the examples: a row in Random mode whose only child is a
    block of fixed width 40 that is placed with a width of 150. *)
Definition widenedContents : IPossibilityContents :=
  mkContents "right" "Random" ""
    [mkChild "A" "Known" None None (Some (mkSizing (Some 150) None)) None
       None []]
    (SpNumber 0) None None.

Definition widenedRow : gmap string IPossibility :=
  <[ "Row" := mkPossibility 100 10 (Some widenedContents) ]>
  (<[ "A" := terminal 40 10 "" ]> ∅).

(** ** Spacing *)

(** C8: [parseSpacing] returns 0 on 0 and on [undefined], and returns
    every plain number unchanged; the state, and with it the number of
    values drawn from the random source, is left as it was. *)
Theorem parseSpacing_plain_number :
  forall (random : nat -> Q) (s : State),
    parseSpacing random (SpNumber 0) s = (Returns 0, s) /\
    parseSpacing random SpUndefined s = (Returns 0, s) /\
    forall n : Z, parseSpacing random (SpNumber n) s = (Returns n, s).
Proof.
  intros random s. repeat split.
  intros n. unfold parseSpacing.
  destruct (Z.eqb_spec n 0) as [-> | _]; reflexivity.
Qed.

(** ** Failing fast in [generate] *)



(** ** Unfolding the two recursive entry points *)

Lemma generate_unfold possibilities random fuel name command :
  generate possibilities random fuel name command =
  match possibilities !! name with
  | None => throw (SchemaNotFound name)
  | Some schema =>
      match p_contents schema with
      | None => throw (EmptyContents name)
      | Some contents =>
          generateChildren possibilities random
            (fun name command =>
               match fuel with
               | O => outOfFuel
               | S fuel => generate possibilities random fuel name command
               end)
            fuel schema contents (objectCopy command)
      end
  end.
Proof. destruct fuel; reflexivity. Qed.

Lemma generateFull_unfold possibilities random fuel schema :
  generateFull possibilities random fuel schema =
  let* generated :=
    generate possibilities random fuel (c_title schema) (positionOf schema) in
  match generated with
  | None => ret tt
  | Some generated =>
      walkChildren
        (fun child =>
           match fuel with
           | O => outOfFuel
           | S fuel => generateFull possibilities random fuel child
           end)
        (g_children generated)
  end.
Proof. destruct fuel; reflexivity. Qed.

(** ** Every function of the generator is built from the primitives *)

Ltac built_step :=
  first
    [ apply Built_ret
    | apply Built_throw
    | apply Built_outOfFuel; reflexivity
    | apply Built_nextRandom
    | apply Built_getObject
    | apply Built_newObject
    | apply Built_setProperty
    | assumption
    | apply Built_bind; [ | intros ]
    | match goal with
      | |- Built _ _ _ _ (match ?x with _ => _ end) _ => destruct x
      end ].

Create HintDb built.

Ltac built := cbv zeta; repeat built_step; eauto with built.

Section BuiltFunctions.

Variable possibilities : gmap string IPossibility.
Variables random1 random2 : nat -> Q.
Variables acc fuelled : bool.

Local Abbreviation Same m1 m2 := (Built random1 random2 acc fuelled m1 m2).

Lemma Built_defined A (o : option A) : Same (defined o) (defined o).
Proof. unfold defined. built. Qed.
#[local] Hint Resolve Built_defined : built.

Lemma Built_randomPercentage :
  Same (randomPercentage random1) (randomPercentage random2).
Proof. unfold randomPercentage. built. Qed.
#[local] Hint Resolve Built_randomPercentage : built.

Lemma Built_randomBetween min max :
  Same (randomBetween random1 min max) (randomBetween random2 min max).
Proof. unfold randomBetween. built. Qed.
#[local] Hint Resolve Built_randomBetween : built.

Lemma Built_chooseAmong A (percent : A -> option Z) choices :
  Same (chooseAmong random1 percent choices)
       (chooseAmong random2 percent choices).
Proof. unfold chooseAmong. built. Qed.
#[local] Hint Resolve Built_chooseAmong : built.

Lemma Built_chooseAmongPosition choices position :
  Same (chooseAmongPosition possibilities random1 choices position)
       (chooseAmongPosition possibilities random2 choices position).
Proof. unfold chooseAmongPosition. built. Qed.
#[local] Hint Resolve Built_chooseAmongPosition : built.

Lemma Built_parseSpacingObject spacing :
  Same (parseSpacingObject random1 spacing)
       (parseSpacingObject random2 spacing).
Proof. unfold parseSpacingObject. built. Qed.
#[local] Hint Resolve Built_parseSpacingObject : built.

Lemma Built_parseSpacing spacing :
  Same (parseSpacing random1 spacing) (parseSpacing random2 spacing).
Proof. unfold parseSpacing. built. Qed.
#[local] Hint Resolve Built_parseSpacing : built.

Lemma Built_shrinkPositionByChild position child direction spacing :
  Same (shrinkPositionByChild random1 position child direction spacing)
       (shrinkPositionByChild random2 position child direction spacing).
Proof. unfold shrinkPositionByChild. built. Qed.
#[local] Hint Resolve Built_shrinkPositionByChild : built.

Lemma Built_movePositionBySpacing position direction spacing :
  Same (movePositionBySpacing random1 position direction spacing)
       (movePositionBySpacing random2 position direction spacing).
Proof. unfold movePositionBySpacing. built. Qed.
#[local] Hint Resolve Built_movePositionBySpacing : built.

Lemma Built_ensureArguments arguments :
  Same (ensureArguments arguments) (ensureArguments arguments).
Proof. unfold ensureArguments. built. Qed.
#[local] Hint Resolve Built_ensureArguments : built.

Lemma Built_chooseArguments arguments :
  Same (chooseArguments random1 arguments)
       (chooseArguments random2 arguments).
Proof. unfold chooseArguments. built. Qed.
#[local] Hint Resolve Built_chooseArguments : built.

Lemma Built_ensureSizingOnChoice output choice schema :
  Same (ensureSizingOnChoice output choice schema)
       (ensureSizingOnChoice output choice schema).
Proof. unfold ensureSizingOnChoice. built. Qed.
#[local] Hint Resolve Built_ensureSizingOnChoice : built.

Lemma Built_stretchChoice output choice position :
  Same (stretchChoice output choice position)
       (stretchChoice output choice position).
Proof. unfold stretchChoice. built. Qed.
#[local] Hint Resolve Built_stretchChoice : built.

Lemma Built_copyMappedArguments map choice a :
  Same (copyMappedArguments map choice a) (copyMappedArguments map choice a).
Proof. induction map as [| [i mapped] rest IH]; simpl; built. Qed.
#[local] Hint Resolve Built_copyMappedArguments : built.

Lemma Built_copySchemaArguments schema choice output :
  Same (copySchemaArguments schema choice output)
       (copySchemaArguments schema choice output).
Proof. unfold copySchemaArguments. built. Qed.
#[local] Hint Resolve Built_copySchemaArguments : built.

Lemma Built_parseChoice choice position direction :
  Same (parseChoice possibilities random1 choice position direction)
       (parseChoice possibilities random2 choice position direction).
Proof. unfold parseChoice. built. Qed.
#[local] Hint Resolve Built_parseChoice : built.

Lemma Built_parseChoiceFinal parent choice position direction :
  Same (parseChoiceFinal possibilities parent choice position direction)
       (parseChoiceFinal possibilities parent choice position direction).
Proof. unfold parseChoiceFinal. built. Qed.
#[local] Hint Resolve Built_parseChoiceFinal : built.

End BuiltFunctions.

#[global] Hint Resolve Built_defined Built_randomPercentage Built_randomBetween
  Built_chooseAmong Built_chooseAmongPosition Built_parseSpacingObject
  Built_parseSpacing Built_shrinkPositionByChild Built_movePositionBySpacing
  Built_ensureArguments Built_chooseArguments Built_ensureSizingOnChoice
  Built_stretchChoice Built_copyMappedArguments Built_copySchemaArguments
  Built_parseChoice Built_parseChoiceFinal : built.

Section BuiltStrategies.

Variable possibilities : gmap string IPossibility.
Variables random1 random2 : nat -> Q.
Variable acc : bool.

Local Abbreviation Same m1 m2 := (Built random1 random2 acc true m1 m2).

Variables generate1 generate2 : string -> IPosition -> M (option IGenerated).
Hypothesis Built_nested :
  forall name position, Same (generate1 name position) (generate2 name position).

Lemma Built_expandChoice output position :
  Same (expandChoice generate1 output position)
       (expandChoice generate2 output position).
Proof. unfold expandChoice. built. Qed.
#[local] Hint Resolve Built_expandChoice : built.

Lemma Built_mapCertain contents choices position direction spacing :
  Same (mapCertain possibilities random1 generate1 contents choices position
          direction spacing)
       (mapCertain possibilities random2 generate2 contents choices position
          direction spacing).
Proof.
  revert position.
  induction choices as [| choice rest IH]; intros position; simpl; built.
Qed.

Lemma Built_repeatChild contents choice position direction :
  Same (repeatChild possibilities random1 generate1 contents choice position
          direction)
       (repeatChild possibilities random2 generate2 contents choice position
          direction).
Proof. unfold repeatChild. built. Qed.
#[local] Hint Resolve Built_repeatChild : built.

Lemma Built_whileRepeat fuel contents position direction spacing children i :
  Same (whileRepeat possibilities random1 generate1 fuel contents position
          direction spacing children i)
       (whileRepeat possibilities random2 generate2 fuel contents position
          direction spacing children i).
Proof.
  revert position children i.
  induction fuel as [| fuel IH]; intros position children i; simpl; built.
Qed.

Lemma Built_generateChild contents position direction :
  Same (generateChild possibilities random1 contents position direction)
       (generateChild possibilities random2 contents position direction).
Proof. unfold generateChild. built. Qed.
#[local] Hint Resolve Built_generateChild : built.

Lemma Built_whileRandom fuel contents position direction spacing children :
  Same (whileRandom possibilities random1 fuel contents position direction
          spacing children)
       (whileRandom possibilities random2 fuel contents position direction
          spacing children).
Proof.
  revert position children.
  induction fuel as [| fuel IH]; intros position children; simpl; built.
Qed.

Lemma Built_mapMultiple choices position direction spacing :
  Same (mapMultiple possibilities random1 choices position direction spacing)
       (mapMultiple possibilities random2 choices position direction spacing).
Proof.
  revert position.
  induction choices as [| choice rest IH]; intros position; simpl; built.
Qed.

Lemma Built_generateChildren fuel schema contents position :
  Same (generateChildren possibilities random1 generate1 fuel schema contents
          position)
       (generateChildren possibilities random2 generate2 fuel schema contents
          position).
Proof.
  unfold generateChildren, generateChildrenRandom, generateChildrenCertain,
    generateChildrenRepeat, generateChildrenMultiple.
  pose proof Built_mapCertain. pose proof Built_whileRepeat.
  pose proof Built_whileRandom. pose proof Built_mapMultiple.
  built.
Qed.

End BuiltStrategies.

Section BuiltGenerator.

Variable possibilities : gmap string IPossibility.
Variables random1 random2 : nat -> Q.

Lemma Built_generate acc fuel name command :
  Built random1 random2 acc true
    (generate possibilities random1 fuel name command)
    (generate possibilities random2 fuel name command).
Proof.
  revert name command.
  induction fuel as [| fuel IH]; intros name command;
    rewrite (generate_unfold _ random1), (generate_unfold _ random2).
  - destruct (possibilities !! name) as [schema |]; [| built].
    destruct (p_contents schema) as [contents |]; [| built].
    apply Built_generateChildren. intros. built.
  - destruct (possibilities !! name) as [schema |]; [| built].
    destruct (p_contents schema) as [contents |]; [| built].
    apply Built_generateChildren. intros. apply IH.
Qed.

Lemma Built_walkChildren full1 full2 children :
  (forall child, Built random1 random2 true true (full1 child) (full2 child)) ->
  Built random1 random2 true true
    (walkChildren full1 children) (walkChildren full2 children).
Proof.
  intros Hfull. induction children as [| child rest IH]; simpl; built.
  apply Built_push. reflexivity.
Qed.

Lemma Built_generateFull fuel schema :
  Built random1 random2 true true
    (generateFull possibilities random1 fuel schema)
    (generateFull possibilities random2 fuel schema).
Proof.
  revert schema.
  induction fuel as [| fuel IH]; intros schema;
    rewrite (generateFull_unfold _ random1), (generateFull_unfold _ random2).
  - apply Built_bind; [apply Built_generate |].
    intros [generated |]; built.
    apply Built_walkChildren. intros. built.
  - apply Built_bind; [apply Built_generate |].
    intros [generated |]; built.
    apply Built_walkChildren. intros. apply IH.
Qed.

End BuiltGenerator.

(** ** What a built computation does to the state *)

Section BuiltProperties.

Variables random1 random2 : nat -> Q.

(** The count of values drawn never goes down. *)
Lemma Built_drawn_mono acc fuelled A (m1 m2 : M A) :
  Built random1 random2 acc fuelled m1 m2 ->
  forall s, (drawn s <= drawn (snd (m1 s)))%nat.
Proof.
  induction 1 as [A a | A e | A Hfuel | A B m1 m2 k1 k2 Hm IHm Hk IHk
                 | | a | | a key v | child Hacc]; intros s;
    try (simpl; lia).
  unfold bind. specialize (IHm s).
  destruct (m1 s) as [[a | e |] s1]; simpl in *; try lia.
  specialize (IHk a s1). lia.
Qed.

(** A run reads the random source only at the positions it consumes: a
    second source that agrees with the first there gives the same run. *)
Lemma Built_same_draws acc fuelled A (m1 m2 : M A) :
  Built random1 random2 acc fuelled m1 m2 ->
  forall s,
    (forall i, (drawn s <= i < drawn (snd (m1 s)))%nat ->
               random1 i = random2 i) ->
    m2 s = m1 s.
Proof.
  induction 1 as [A a | A e | A Hfuel | A B m1 m2 k1 k2 Hm IHm Hk IHk
                 | | a | | a key v | child Hacc]; intros s Hagree;
    try reflexivity.
  - unfold bind in *.
    pose proof (Built_drawn_mono _ _ _ _ _ Hm s) as Hmono1.
    destruct (m1 s) as [[a | e |] s1] eqn:E1; simpl in *.
    + pose proof (Built_drawn_mono _ _ _ _ _ (Hk a) s1) as Hmono2.
      rewrite IHm.
      * rewrite E1. apply IHk. intros i Hi. apply Hagree. lia.
      * rewrite E1. simpl. intros i Hi. apply Hagree. lia.
    + rewrite IHm; rewrite E1; [reflexivity |]. simpl. exact Hagree.
    + rewrite IHm; rewrite E1; [reflexivity |]. simpl. exact Hagree.
  - unfold nextRandom in *. simpl in *.
    rewrite (Hagree (drawn s)); [reflexivity | lia].
Qed.

(** A run only appends to [generatedCommands], never calls [onPlacement],
    and does not depend on what the Array held; without the accumulator
    primitive it appends nothing. *)
Lemma Built_appends acc fuelled A (m1 m2 : M A) :
  Built random1 random2 acc fuelled m1 m2 ->
  forall s, exists new : list IChoice,
    generatedCommands (snd (m1 s)) = generatedCommands s ++ new /\
    placements (snd (m1 s)) = placements s /\
    (acc = false -> new = []) /\
    forall X, m1 (withCommands X s)
              = (fst (m1 s), withCommands (X ++ new) (snd (m1 s))).
Proof.
  induction 1 as [A a | A e | A Hfuel | A B m1 m2 k1 k2 Hm IHm Hk IHk
                 | | a | | a key v | child Hacc]; intros s;
    try (exists []; simpl; rewrite ?app_nil_r;
         repeat split; intros; unfold withCommands; simpl;
         rewrite ?app_nil_r; reflexivity).
  - destruct (IHm s) as (new1 & Hc1 & Hp1 & Hn1 & Hx1).
    unfold bind.
    destruct (m1 s) as [[a | e |] s1] eqn:E1; simpl in *.
    + destruct (IHk a s1) as (new2 & Hc2 & Hp2 & Hn2 & Hx2).
      exists (new1 ++ new2). repeat split.
      * rewrite Hc2, Hc1, app_assoc. reflexivity.
      * rewrite Hp2, Hp1. reflexivity.
      * intros Hacc. rewrite Hn1, Hn2 by assumption. reflexivity.
      * intros X. rewrite Hx1. rewrite Hx2.
        destruct (k1 a s1) as [o s2]; simpl. rewrite app_assoc. reflexivity.
    + exists new1. repeat split; try assumption.
      intros X. rewrite Hx1. reflexivity.
    + exists new1. repeat split; try assumption.
      intros X. rewrite Hx1. reflexivity.
  - exists [child]. simpl. repeat split.
    intros Hfalse. congruence.
Qed.

(** Without the fuel primitive, a run never ends out of fuel. *)
Lemma Built_never_OutOfFuel acc A (m1 m2 : M A) :
  Built random1 random2 acc false m1 m2 ->
  forall s, fst (m1 s) <> OutOfFuel.
Proof.
  induction 1 as [A a | A e | A Hfuel | A B m1 m2 k1 k2 Hm IHm Hk IHk
                 | | a | | a key v | child Hacc]; intros s;
    try discriminate.
  unfold bind. specialize (IHm s).
  destruct (m1 s) as [[a | e |] s1]; simpl in *;
    [apply IHk | discriminate | contradiction].
Qed.

End BuiltProperties.

(** ** The accumulator *)

(** C10: [generate] leaves [generatedCommands] as it was, for every name,
    box and fuel, whatever its outcome; [clearGeneratedCommands] empties it;
    [runGeneratedCommands] hands it to [onPlacement] and leaves it as it
    was; [generateFull] only appends to it. *)
Theorem accumulator_frame :
  forall (possibilities : gmap string IPossibility) (random : nat -> Q)
         (fuel : nat) (name : string) (command : IPosition) (s : State),
    generatedCommands (snd (generate possibilities random fuel name command s))
    = generatedCommands s /\
    generatedCommands (snd (clearGeneratedCommands s)) = [] /\
    generatedCommands (snd (runGeneratedCommands s)) = generatedCommands s /\
    placements (snd (runGeneratedCommands s))
    = placements s ++ [generatedCommands s] /\
    forall root : IChoice, exists new : list IChoice,
      generatedCommands (snd (generateFull possibilities random fuel root s))
      = generatedCommands s ++ new.
Proof.
  intros possibilities random fuel name command s.
  split; [| split; [| split; [| split]]]; try reflexivity.
  - destruct (Built_appends random random false true _ _ _
                (Built_generate possibilities random random false fuel
                   name command) s)
      as (new & Hcommands & _ & Hnew & _).
    rewrite Hcommands, (Hnew eq_refl), app_nil_r. reflexivity.
  - intros root.
    destruct (Built_appends random random true true _ _ _
                (Built_generateFull possibilities random random fuel root) s)
      as (new & Hcommands & _).
    exists new. exact Hcommands.
Qed.

(** ** The walk of [generateFull] *)

Lemma withCommands_same s : withCommands (generatedCommands s) s = s.
Proof. destruct s; reflexivity. Qed.

Lemma walkChildren_Collects full collect children :
  (forall child, Collects (full child) (collect child)) ->
  Collects (walkChildren full children) (collectChildren collect children).
Proof.
  intros Hfull.
  induction children as [| child rest IH]; intros X s; simpl.
  - unfold ret. rewrite app_nil_r. reflexivity.
  - unfold bind.
    destruct (String.eqb (c_type child) "Known").
    + specialize (IH (X ++ [child]) s).
      unfold withCommands in *. simpl in *.
      destruct (collectChildren collect rest s) as [[there | e |] s'];
        simpl; try exact IH.
      rewrite IH, <- app_assoc. reflexivity.
    + destruct (String.eqb (c_type child) "Random").
      * specialize (Hfull child X s).
        destruct (collect child s) as [[here | e |] s1]; simpl.
        -- rewrite Hfull. specialize (IH (X ++ here) s1).
           destruct (collectChildren collect rest s1) as [[there | e |] s'];
             simpl; try exact IH.
           rewrite IH, <- app_assoc. reflexivity.
        -- destruct (full child (withCommands X s)) as [o t].
           simpl in Hfull. subst o. reflexivity.
        -- destruct (full child (withCommands X s)) as [o t].
           simpl in Hfull. subst o. reflexivity.
      * specialize (IH X s). unfold withCommands in *. simpl in *.
        destruct (collectChildren collect rest s) as [[there | e |] s'];
          simpl; exact IH.
Qed.

Lemma collectFull_unfold possibilities random fuel schema :
  collectFull possibilities random fuel schema =
  let* generated :=
    generate possibilities random fuel (c_title schema) (positionOf schema) in
  match generated with
  | None => ret []
  | Some generated =>
      collectChildren
        (fun child =>
           match fuel with
           | O => outOfFuel
           | S fuel => collectFull possibilities random fuel child
           end)
        (g_children generated)
  end.
Proof. destruct fuel; reflexivity. Qed.

Lemma generate_ignores_commands possibilities random fuel name command X s :
  generate possibilities random fuel name command (withCommands X s)
  = (fst (generate possibilities random fuel name command s),
     withCommands X (snd (generate possibilities random fuel name command s))).
Proof.
  destruct (Built_appends random random false true _ _ _
              (Built_generate possibilities random random false fuel
                 name command) s)
    as (new & _ & _ & Hnew & Hframe).
  rewrite (Hframe X), (Hnew eq_refl), app_nil_r. reflexivity.
Qed.

Lemma generateFull_Collects possibilities random fuel root :
  Collects (generateFull possibilities random fuel root)
           (collectFull possibilities random fuel root).
Proof.
  revert root. induction fuel as [| fuel IH]; intros root X s;
    rewrite generateFull_unfold, collectFull_unfold;
    unfold bind; rewrite generate_ignores_commands;
    (destruct (generate possibilities random _ (c_title root)
                 (positionOf root) s) as [[[generated |] | e |] s1]);
    simpl; try reflexivity;
    try (unfold ret; rewrite app_nil_r; reflexivity).
  - apply walkChildren_Collects. intros child Y t. reflexivity.
  - apply walkChildren_Collects. intros child. apply IH.
Qed.

Lemma walkChildren_without_Random full children s :
  Forall (fun child => c_type child <> "Random") children ->
  walkChildren full children s
  = (Returns tt,
     withCommands (generatedCommands s ++ knownChildren children) s).
Proof.
  intros Hnone. revert s.
  induction Hnone as [| child rest Hchild Hrest IH]; intros s; simpl.
  - rewrite app_nil_r, withCommands_same. reflexivity.
  - unfold bind.
    destruct (String.eqb (c_type child) "Known") eqn:Eknown.
    + simpl. rewrite IH. simpl. rewrite <- app_assoc. reflexivity.
    + destruct (String.eqb_spec (c_type child) "Random") as [E | _];
        [contradiction |].
      simpl. apply IH.
Qed.

(** C5: the walk of [generateFull] appends to [generatedCommands] exactly
    the commands that the depth-first collection of the specification
    returns, in the same order, after what the accumulator already held, with
    the same outcome; over children none of which is "Random", it appends the
    "Known" children in order and skips the others without raising. *)
Theorem generateFull_collects_depth_first :
  forall (possibilities : gmap string IPossibility) (random : nat -> Q)
         (fuel : nat) (root : IChoice) (s : State),
    match collectFull possibilities random fuel root s with
    | (Returns commands, s') =>
        generateFull possibilities random fuel root s
        = (Returns tt,
           withCommands (generatedCommands s ++ commands) s')
    | (Throws e, _) =>
        fst (generateFull possibilities random fuel root s) = Throws e
    | (OutOfFuel, _) =>
        fst (generateFull possibilities random fuel root s) = OutOfFuel
    end /\
    forall (full : IChoice -> M unit) (children : list IChoice),
      Forall (fun child => c_type child <> "Random") children ->
      walkChildren full children s
      = (Returns tt,
         withCommands (generatedCommands s ++ knownChildren children) s).
Proof.
  intros possibilities random fuel root s. split.
  - pose proof (generateFull_Collects possibilities random fuel root
                  (generatedCommands s) s) as H.
    rewrite withCommands_same in H. exact H.
  - intros full children Hnone.
    apply walkChildren_without_Random. exact Hnone.
Qed.

Lemma generateFull_collects_depth_first_witness :
  generatedCommands
    (snd (generateFull yard alwaysQuarter 5 yardNode initialState))
  = [mkChoice "A" "Known" None 40 10 10 40 0 0 None;
     mkChoice "A" "Known" None 40 10 10 40 0 0 None;
     mkChoice "A" "Known" None 40 10 10 80 0 40 None] /\
  walkChildren (fun _ => throw TypeError)
    [mkChoice "A" "Known" None 40 10 10 40 0 0 None;
     mkChoice "B" "Decoration" None 60 10 10 60 0 0 None] initialState
  = (Returns tt,
     withCommands [mkChoice "A" "Known" None 40 10 10 40 0 0 None]
       initialState).
Proof.
  split.
  - pose proof (proj1 (generateFull_collects_depth_first yard alwaysQuarter 5
                         yardNode initialState)) as H.
    remember (generateFull yard alwaysQuarter 5 yardNode initialState)
      as result eqn:Eresult in H |- *.
    vm_compute in H. rewrite H. reflexivity.
  - apply (proj2 (generateFull_collects_depth_first ∅ alwaysQuarter 0
                    yardNode initialState)).
    repeat constructor; discriminate.
Defined.

(** ** Determinism *)

(** C7: a run of [generateFull], and of [generate], is determined by the
    registry, the starting node or box, the heap of argument objects, and the
    values the random source produces during the run.  With a second source
    that produces the same values at the positions the run consumes, the
    outcome and the whole final state are identical; and whatever the
    accumulator held before, [generateFull] appends the same commands to it
    and [generate] returns the same tree. *)
Theorem generateFull_deterministic :
  forall (possibilities : gmap string IPossibility)
         (random1 random2 : nat -> Q) (fuel : nat) (s : State),
    (forall root : IChoice,
        (forall i,
            (drawn s <= i
             < drawn (snd (generateFull possibilities random1 fuel root s)))%nat ->
            random1 i = random2 i) ->
        generateFull possibilities random2 fuel root s
        = generateFull possibilities random1 fuel root s /\
        exists new : list IChoice,
          forall X : list IChoice,
            generateFull possibilities random2 fuel root (withCommands X s)
            = (fst (generateFull possibilities random1 fuel root s),
               withCommands (X ++ new)
                 (snd (generateFull possibilities random1 fuel root s)))) /\
    (forall (name : string) (command : IPosition),
        (forall i,
            (drawn s <= i
             < drawn (snd (generate possibilities random1 fuel name command s)))%nat ->
            random1 i = random2 i) ->
        forall X : list IChoice,
          generate possibilities random2 fuel name command (withCommands X s)
          = (fst (generate possibilities random1 fuel name command s),
             withCommands X
               (snd (generate possibilities random1 fuel name command s)))).
Proof.
  intros possibilities random1 random2 fuel s. split.
  - intros root Hagree.
    pose proof (Built_generateFull possibilities random1 random2 fuel root)
      as Hbuilt.
    split.
    + apply (Built_same_draws random1 random2 true true _ _ _ Hbuilt).
      exact Hagree.
    + destruct (Built_appends random1 random2 true true _ _ _ Hbuilt s)
        as (new & _ & _ & _ & Hframe).
      exists new. intros X. rewrite <- (Hframe X).
      apply (Built_same_draws random1 random2 true true _ _ _ Hbuilt).
      rewrite (Hframe X). exact Hagree.
  - intros name command Hagree X.
    pose proof (Built_generate possibilities random1 random2 false fuel name
                  command) as Hbuilt.
    rewrite <- generate_ignores_commands.
    apply (Built_same_draws random1 random2 false true _ _ _ Hbuilt).
    rewrite generate_ignores_commands. exact Hagree.
Qed.

Lemma generateFull_deterministic_witness :
  generateFull randomRow alwaysQuarter 5 rowNode initialState
  = generateFull randomRow quarterThenHigh 5 rowNode initialState.
Proof.
  apply (proj1 (generateFull_deterministic randomRow quarterThenHigh
                  alwaysQuarter 5 initialState) rowNode).
  intros i Hi. vm_compute in Hi.
  destruct i as [| [| i]]; [reflexivity | reflexivity | lia].
Defined.

(** ** Weighted choice *)

Lemma chooseAmongFrom_above A (percent : A -> option Z) (choice : Z)
    (choices : list A) :
  weighted percent choices ->
  forall sum : Z,
    sum + totalPercent percent choices < choice ->
    chooseAmongFrom percent choice (Some sum) choices = None.
Proof.
  induction 1 as [| c rest (p & Hp & Hpos) Hrest IH]; intros sum Hsum;
    simpl in *.
  - reflexivity.
  - rewrite Hp in *. simpl in Hsum.
    assert (0 <= totalPercent percent rest) as Hrest0.
    { clear -Hrest. induction Hrest as [| c' rest' (p' & Hp' & Hpos') _ IH'];
        simpl; [lia |]. rewrite Hp'. simpl. lia. }
    destruct (Z.leb_spec choice (sum + p)) as [Hle | Hgt]; [lia |].
    apply IH. lia.
Qed.

(** C2, as the code has it: among two or more items with non-negative
    weights, a percentage draw strictly above the accumulated weight chooses
    nothing: [chooseAmong] returns [undefined], having consumed one value of
    the random source. *)
Theorem chooseAmong_underweight_returns_undefined :
  forall (A : Type) (percent : A -> option Z) (random : nat -> Q)
         (choices : list A) (s : State) (draw : Z),
    (2 <= length choices)%nat ->
    weighted percent choices ->
    fst (randomPercentage random s) = Returns draw ->
    totalPercent percent choices < draw ->
    chooseAmong random percent choices s
    = (Returns None, snd (randomPercentage random s)).
Proof.
  intros A percent random choices s draw Hlen Hweighted Hdraw Hsum.
  destruct choices as [| c1 [| c2 rest]]; simpl in Hlen; try lia.
  unfold chooseAmong, bind.
  destruct (randomPercentage random s) as [o s1] eqn:E.
  simpl in Hdraw. subst o. cbv beta iota. unfold ret. cbn [snd].
  rewrite chooseAmongFrom_above; [reflexivity | assumption | lia].
Qed.

Lemma chooseAmong_underweight_returns_undefined_witness :
  chooseAmong alwaysHalf ch_percent underWeighted initialState
  = (Returns None, snd (randomPercentage alwaysHalf initialState)).
Proof.
  apply (chooseAmong_underweight_returns_undefined IPossibilityChild
           ch_percent alwaysHalf underWeighted initialState 51).
  - simpl. lia.
  - repeat constructor; eexists; (split; [reflexivity | lia]).
  - reflexivity.
  - vm_compute. reflexivity.
Defined.

(** C2 as stated fails: with the weights 30 and 20 and the draw 51, which
    is above the accumulated 50, [chooseAmong] returns [undefined] and not
    the last item. *)
Lemma chooseAmong_last_item_counterexample :
  (2 <= length underWeighted)%nat /\
  totalPercent ch_percent underWeighted < 100 /\
  fst (randomPercentage alwaysHalf initialState) = Returns 51 /\
  totalPercent ch_percent underWeighted < 51 /\
  fst (chooseAmong alwaysHalf ch_percent underWeighted initialState)
  = Returns None /\
  fst (chooseAmong alwaysHalf ch_percent underWeighted initialState)
  <> Returns (last underWeighted).
Proof.
  repeat split; try (vm_compute; reflexivity); try (simpl; lia).
  vm_compute. discriminate.
Qed.

(** ** Running a [bind] *)

Lemma bind_Returns A B (m : M A) (k : A -> M B) s a s1 :
  m s = (Returns a, s1) -> bind m k s = k a s1.
Proof. intros H. unfold bind. rewrite H. reflexivity. Qed.

Lemma bind_Throws A B (m : M A) (k : A -> M B) s e s1 :
  m s = (Throws e, s1) -> bind m k s = (Throws e, s1).
Proof. intros H. unfold bind. rewrite H. reflexivity. Qed.

Lemma bind_Returns_inv A B (m : M A) (k : A -> M B) s b s' :
  bind m k s = (Returns b, s') ->
  exists a s1, m s = (Returns a, s1) /\ k a s1 = (Returns b, s').
Proof.
  unfold bind. destruct (m s) as [[a | e |] s1]; intros H;
    try discriminate.
  exists a, s1. split; [reflexivity | exact H].
Qed.

Lemma bind_assoc A B C (m : M A) (k1 : A -> M B) (k2 : B -> M C) s :
  bind (bind m k1) k2 s = bind m (fun a => bind (k1 a) k2) s.
Proof. unfold bind. destruct (m s) as [[a | e |] s1]; reflexivity. Qed.

Lemma heapOnly_refl s : heapOnly s s.
Proof. repeat split. Qed.

Lemma heapOnly_trans s1 s2 s3 :
  heapOnly s1 s2 -> heapOnly s2 s3 -> heapOnly s1 s3.
Proof.
  intros (Hd1 & Hc1 & Hp1) (Hd2 & Hc2 & Hp2).
  repeat split; congruence.
Qed.

(** ** The arguments of a node *)

Lemma setArguments_same output :
  setArguments (c_arguments output) output = output.
Proof. destruct output; reflexivity. Qed.

Lemma ensureArguments_returns arguments s :
  exists a s', ensureArguments arguments s = (Returns a, s') /\ heapOnly s s'.
Proof.
  destruct arguments as [a |]; simpl.
  - exists a, s. split; [reflexivity | apply heapOnly_refl].
  - eexists _, _. split; [reflexivity | repeat split].
Qed.

Lemma copyMappedArguments_returns map choice a s :
  exists s', copyMappedArguments map choice a s = (Returns tt, s') /\
             heapOnly s s'.
Proof.
  revert s. induction map as [| [i mapped] rest IH]; intros s; simpl.
  - exists s. split; [reflexivity | apply heapOnly_refl].
  - unfold bind. simpl.
    match goal with
    | |- context [copyMappedArguments rest choice a ?t] =>
        destruct (IH t) as (s' & Hrun & Hheap)
    end.
    exists s'. split; [exact Hrun |].
    eapply heapOnly_trans; [| exact Hheap]. repeat split.
Qed.

(** With a schema that has contents, [copySchemaArguments] returns the node
    it was given, up to its [arguments]. *)
Lemma copySchemaArguments_returns sc ct choice output s :
  p_contents sc = Some ct ->
  exists arguments s',
    copySchemaArguments (Some sc) choice output s
    = (Returns (setArguments arguments output), s') /\
    heapOnly s s' /\
    (ct_argumentMap ct = None -> arguments = c_arguments output /\ s' = s).
Proof.
  intros Hct. unfold copySchemaArguments. simpl.
  rewrite (bind_Returns _ _ _ _ s sc s) by reflexivity.
  rewrite Hct. rewrite (bind_Returns _ _ _ _ s ct s) by reflexivity.
  destruct (ct_argumentMap ct) as [map |].
  - destruct (ensureArguments_returns (c_arguments output) s)
      as (a & s1 & Ha & Hheap1).
    rewrite (bind_Returns _ _ _ _ _ _ _ Ha).
    destruct (copyMappedArguments_returns map choice a s1)
      as (s2 & Hcopy & Hheap2).
    rewrite (bind_Returns _ _ _ _ _ _ _ Hcopy).
    exists (Some a), s2. split; [reflexivity |]. split.
    + eapply heapOnly_trans; eassumption.
    + discriminate.
  - exists (c_arguments output), s. rewrite setArguments_same.
    split; [reflexivity |]. split; [apply heapOnly_refl | auto].
Qed.

(** ** Final children *)

(** C9, for a source whose schema has contents: [parseChoiceFinal] returns
    a node of type "Known" with the title of the reference, the fixed width
    and height of the source schema and the four edges of the cursor, whatever
    the type of the reference, the direction and the snap of the schema; it
    draws no random value; the strategies do not expand the node, and the walk
    of [generateFull] appends it without recursing. *)
Theorem parseChoiceFinal_pins_to_cursor :
  forall (possibilities : gmap string IPossibility)
         (parent : IPossibilityContents) (choice : IPossibilityChild)
         (position : IPosition) (direction : string) (s : State)
         (sc : IPossibility) (ct : IPossibilityContents),
    possibilities !! default "undefined" (ch_source choice) = Some sc ->
    p_contents sc = Some ct ->
    exists (arguments : option addr) (s' : State),
      let output :=
        mkChoice (ch_title choice) "Known" arguments
          (p_width sc) (p_height sc)
          (top position) (right position) (bottom position) (left position)
          None in
      parseChoiceFinal possibilities parent choice position direction s
      = (Returns output, s') /\
      heapOnly s s' /\
      (forall generate, expandChoice generate output position = ret output) /\
      (forall full t,
          walkChildren full [output] t
          = (Returns tt, withCommands (generatedCommands t ++ [output]) t)).
Proof.
  intros possibilities parent choice position direction s sc ct Hsc Hct.
  unfold parseChoiceFinal. rewrite Hsc.
  rewrite (bind_Returns _ _ _ _ s sc s) by reflexivity.
  destruct (copySchemaArguments_returns sc ct choice
              (mkChoice (ch_title choice) "Known" (ch_arguments choice)
                 (p_width sc) (p_height sc) (top position) (right position)
                 (bottom position) (left position) None) s Hct)
    as (arguments & s' & Hcopy & Hheap & _).
  exists arguments, s'. cbv zeta. split; [exact Hcopy |].
  split; [exact Hheap |]. split; reflexivity.
Qed.

Lemma parseChoiceFinal_pins_to_cursor_witness :
  parseChoiceFinal snappedCannon
    (mkContents "right" "Repeat" "" [final "Ball" "Cannon"] SpUndefined
       None None)
    (final "Ball" "Cannon") (mkPosition 10 100 0 30) "right" initialState
  = (Returns (mkChoice "Ball" "Known" None 8 8 10 100 0 30 None),
     initialState).
Proof.
  destruct (parseChoiceFinal_pins_to_cursor snappedCannon
              (mkContents "right" "Repeat" "" [final "Ball" "Cannon"]
                 SpUndefined None None)
              (final "Ball" "Cannon") (mkPosition 10 100 0 30) "right"
              initialState (terminal 8 8 "bottom")
              (mkContents "" "" "bottom" [] SpUndefined None None)
              eq_refl eq_refl)
    as (arguments & s' & Hrun & _).
  rewrite Hrun. vm_compute in Hrun. injection Hrun as <- <-. reflexivity.
Defined.

(** C9 as stated fails when the source resolves to a schema without
    contents: [copySchemaArguments] reads [schema.contents.argumentMap] and
    [parseChoiceFinal] throws instead of returning a node. *)
Lemma parseChoiceFinal_bare_source_counterexample :
  bareCannon !! "Cannon" = Some (mkPossibility 8 8 None) /\
  parseChoiceFinal bareCannon
    (mkContents "right" "Repeat" "" [final "Ball" "Cannon"] SpUndefined
       None None)
    (final "Ball" "Cannon") (mkPosition 10 100 0 30) "right" initialState
  = (Throws TypeError, initialState).
Proof. split; reflexivity. Qed.

(** ** Parsing a choice *)

Lemma ensureSizingOnChoice_schema output choice sc s :
  ensureSizingOnChoice output choice (Some sc) s
  = (Returns (setHeight (choiceHeight choice sc)
                (setWidth (choiceWidth choice sc) output)), s).
Proof.
  unfold ensureSizingOnChoice, choiceWidth, choiceHeight.
  destruct (ch_sizing choice) as [[[w |] [h |]] |]; reflexivity.
Qed.

(** [parseChoice] on a reference without arguments or stretch, whose schema
    has contents without an argument map. *)
Lemma parseChoice_plain possibilities random choice position direction s sc ct :
  ch_arguments choice = None ->
  ch_stretch choice = None ->
  possibilities !! ch_title choice = Some sc ->
  p_contents sc = Some ct ->
  ct_argumentMap ct = None ->
  parseChoice possibilities random choice position direction s
  = (Returns (placeChoice choice None sc ct position direction), s).
Proof.
  intros Hargs Hstretch Hsc Hct Hmap.
  unfold parseChoice. rewrite Hargs, Hsc. simpl chooseArguments.
  rewrite (bind_Returns _ _ _ _ s None s) by reflexivity.
  rewrite (bind_Returns _ _ _ _ _ _ _ (ensureSizingOnChoice_schema _ _ _ _)).
  rewrite (bind_Returns _ _ _ _ s sc s) by reflexivity.
  rewrite Hct. rewrite (bind_Returns _ _ _ _ s ct s) by reflexivity.
  unfold stretchChoice. rewrite Hstretch.
  rewrite (bind_Returns _ _ _ _ s _ s) by reflexivity.
  destruct (copySchemaArguments_returns sc ct choice
              (placeChoice choice None sc ct position direction) s Hct)
    as (arguments & s' & Hcopy & _ & Hsame).
  destruct (Hsame Hmap) as [-> ->].
  rewrite setArguments_same in Hcopy. exact Hcopy.
Qed.

Lemma placeChoice_type choice arguments sc ct position direction :
  c_type (placeChoice choice arguments sc ct position direction)
  = ch_type choice.
Proof.
  unfold placeChoice, snapChoice, setDirectionEdge.
  repeat match goal with
         | |- context [String.eqb ?a ?b] => destruct (String.eqb a b)
         end; reflexivity.
Qed.

(** Placed rightwards, a node starts at the left edge of the cursor and is
    as wide as its size says, whatever the snap. *)
Lemma placeChoice_right choice arguments sc ct position :
  c_left (placeChoice choice arguments sc ct position "right")
  = left position /\
  c_right (placeChoice choice arguments sc ct position "right")
  = left position + choiceWidth choice sc.
Proof.
  unfold placeChoice, snapChoice. simpl setDirectionEdge.
  repeat match goal with
         | |- context [String.eqb ?a ?b] => destruct (String.eqb a b)
         end; simpl; lia.
Qed.

(** ** Certain mode *)

(** C6: a Certain-mode schema with direction "right" and spacing 0, whose
    children are two terminal references of widths 40 and 60, generated into
    a box with [left = 0] and [right = 100]: the first child spans 0 to 40,
    the second spans 40 to 100, and the envelope spans 0 to 100. *)
Theorem certain_right_two_children :
  forall (possibilities : gmap string IPossibility) (random : nat -> Q)
         (fuel : nat) (name : string) (schema : IPossibility)
         (contents : IPossibilityContents) (first second : IPossibilityChild)
         (boxTop boxBottom : Z) (s : State),
    possibilities !! name = Some schema ->
    p_contents schema = Some contents ->
    ct_mode contents = "Certain" ->
    ct_direction contents = "right" ->
    spacingOrZero (ct_spacing contents) = SpNumber 0 ->
    ct_children contents = [first; second] ->
    plainTerminal possibilities first 40 ->
    plainTerminal possibilities second 60 ->
    exists child1 child2 : IChoice,
      generate possibilities random fuel name
        (mkPosition boxTop 100 boxBottom 0) s
      = (Returns (Some (mkGenerated
                          (Z.max (c_top child1) (c_top child2)) 100
                          (Z.min (c_bottom child1) (c_bottom child2)) 0
                          [child1; child2])), s) /\
      c_left child1 = 0 /\ c_right child1 = 40 /\
      c_left child2 = 40 /\ c_right child2 = 100.
Proof.
  intros possibilities random fuel name schema contents first second
    boxTop boxBottom s Hschema Hcontents Hmode Hdirection Hspacing Hchildren
    (Htype1 & Hargs1 & Hstretch1 & sc1 & ct1 & Hsc1 & Hct1 & Hmap1 & Hw1)
    (Htype2 & Hargs2 & Hstretch2 & sc2 & ct2 & Hsc2 & Hct2 & Hmap2 & Hw2).
  rewrite generate_unfold, Hschema, Hcontents.
  unfold generateChildren. rewrite Hmode, Hdirection, Hspacing. simpl String.eqb.
  cbv iota. unfold generateChildrenCertain. rewrite Hchildren.
  unfold objectMerge, objectCopy.
  set (cursor1 := mkPosition boxTop 100 boxBottom 0).
  set (child1 := placeChoice first None sc1 ct1 cursor1 "right").
  set (cursor2 := mkPosition boxTop 100 boxBottom (c_right child1 + 0)).
  set (child2 := placeChoice second None sc2 ct2 cursor2 "right").
  exists child1, child2.
  destruct (placeChoice_right first None sc1 ct1 cursor1) as [Hl1 Hr1].
  destruct (placeChoice_right second None sc2 ct2 cursor2) as [Hl2 Hr2].
  fold child1 in Hl1, Hr1. fold child2 in Hl2, Hr2.
  rewrite Hw1 in Hr1. rewrite Hw2 in Hr2. simpl in Hl1, Hr1.
  assert (left cursor2 = 40) as Hcursor2 by (unfold cursor2; simpl; lia).
  rewrite Hcursor2 in Hl2, Hr2.
  split; [| repeat split; lia].
  assert (mapCertain possibilities random
            (fun name command =>
               match fuel with
               | O => outOfFuel
               | S fuel => generate possibilities random fuel name command
               end)
            contents [first; second] cursor1 "right" (SpNumber 0) s
          = (Returns [child1; child2], s)) as Hmap.
  { simpl mapCertain. rewrite Htype1, Htype2.
    change (String.eqb "Known" "Final") with false. cbv iota.
    rewrite (bind_Returns _ _ _ _ _ _ _
               (parseChoice_plain possibilities random first cursor1 "right"
                  s sc1 ct1 Hargs1 Hstretch1 Hsc1 Hct1 Hmap1)).
    fold child1.
    assert (forall generate position,
               expandChoice generate child1 position s = (Returns child1, s))
      as Hexpand1.
    { intros. unfold expandChoice, child1. rewrite placeChoice_type, Htype1.
      reflexivity. }
    rewrite (bind_Returns _ _ _ _ _ _ _ (Hexpand1 _ _)).
    rewrite (bind_Returns _ _ _ _ s cursor2 s) by reflexivity.
    rewrite bind_assoc.
    rewrite (bind_Returns _ _ _ _ _ _ _
               (parseChoice_plain possibilities random second cursor2 "right"
                  s sc2 ct2 Hargs2 Hstretch2 Hsc2 Hct2 Hmap2)).
    fold child2.
    assert (forall generate position,
               expandChoice generate child2 position s = (Returns child2, s))
      as Hexpand2.
    { intros. unfold expandChoice, child2. rewrite placeChoice_type, Htype2.
      reflexivity. }
    rewrite bind_assoc.
    rewrite (bind_Returns _ _ _ _ _ _ _ (Hexpand2 _ _)).
    reflexivity. }
  rewrite (bind_Returns _ _ _ _ _ _ _
             (bind_Returns _ _ _ _ _ _ _ Hmap)).
  unfold ret. simpl. rewrite Hl1, Hr1, Hl2, Hr2. reflexivity.
Qed.

Lemma certain_right_two_children_witness :
  generate certainRow alwaysHalf 1 "Row" (mkPosition 10 100 0 0) initialState
  = (Returns (Some (mkGenerated 10 100 0 0
                      [mkChoice "A" "Known" None 40 10 10 40 0 0 None;
                       mkChoice "B" "Known" None 60 10 10 100 0 40 None])),
     initialState).
Proof.
  destruct (certain_right_two_children certainRow alwaysHalf 1 "Row"
              (mkPossibility 100 10
                 (Some (mkContents "right" "Certain" "" [known "A"; known "B"]
                          (SpNumber 0) None None)))
              (mkContents "right" "Certain" "" [known "A"; known "B"]
                 (SpNumber 0) None None)
              (known "A") (known "B") 10 0 initialState
              eq_refl eq_refl eq_refl eq_refl eq_refl eq_refl)
    as (child1 & child2 & Hrun & _).
  - repeat split.
    exists (terminal 40 10 ""),
           (mkContents "" "" "" [] SpUndefined None None).
    repeat split.
  - repeat split.
    exists (terminal 60 10 ""),
           (mkContents "" "" "" [] SpUndefined None None).
    repeat split.
  - pose proof Hrun as Hcomputed. vm_compute in Hcomputed.
    injection Hcomputed. intros. subst child1 child2.
    rewrite Hrun. reflexivity.
Defined.

(** ** Random mode and its limit *)

Lemma whileRandom_unfold possibilities random fuel contents position direction
    spacing children :
  whileRandom possibilities random fuel contents position direction spacing
    children =
  if positionIsNotEmpty position direction then
    match fuel with
    | O => outOfFuel
    | S fuel =>
        let* child :=
          generateChild possibilities random contents position direction in
        match child with
        | None => ret (Some children)
        | Some child =>
            let* position :=
              shrinkPositionByChild random position child direction spacing in
            let children := children ++ [child] in
            if overLimit contents children then ret None
            else whileRandom possibilities random fuel contents position
                   direction spacing children
        end
    end
  else ret (Some children).
Proof. destruct fuel; reflexivity. Qed.

(** A list that [whileRandom] returns is the one it started from, or is
    within the limit. *)
Lemma whileRandom_within_limit possibilities random contents direction
    spacing fuel :
  forall position children0 s children s',
    whileRandom possibilities random fuel contents position direction spacing
      children0 s = (Returns (Some children), s') ->
    children = children0 \/ overLimit contents children = false.
Proof.
  induction fuel as [| fuel IH]; intros position children0 s children s';
    rewrite whileRandom_unfold;
    destruct (positionIsNotEmpty position direction);
    try (unfold ret; intros [= <- <-]; left; reflexivity);
    try discriminate.
  intros Hrun.
  apply bind_Returns_inv in Hrun as ([child |] & s1 & _ & Hrun).
  - apply bind_Returns_inv in Hrun as (position' & s2 & _ & Hrun).
    cbv zeta in Hrun.
    destruct (overLimit contents (children0 ++ [child])) eqn:Hover.
    + discriminate.
    + destruct (IH _ _ _ _ _ Hrun) as [-> | Hok]; right; assumption.
  - injection Hrun as <- <-. left. reflexivity.
Qed.



(** ** The node that [parseChoice] returns *)

Lemma stretchChoice_returns output choice position s :
  exists arguments s',
    stretchChoice output choice position s
    = (Returns (setArguments arguments (stretchBox choice position output)),
       s') /\
    heapOnly s s'.
Proof.
  unfold stretchChoice, stretchBox.
  destruct (ch_stretch choice) as [[sw sh] |].
  - destruct (ensureArguments_returns (c_arguments output) s)
      as (a & s1 & Ha & Hheap).
    rewrite (bind_Returns _ _ _ _ _ _ _ Ha).
    exists (Some a).
    destruct sw, sh; simpl; eexists; (split; [reflexivity |]);
      (eapply heapOnly_trans; [exact Hheap | repeat split]).
  - exists (c_arguments output), s. rewrite setArguments_same.
    split; [reflexivity | apply heapOnly_refl].
Qed.

Lemma setArguments_twice a b output :
  setArguments a (setArguments b output) = setArguments a output.
Proof. reflexivity. Qed.

(** A node that [parseChoice] returns is the placed node, stretched, up to
    its [arguments]; the schema of its title has contents. *)
Lemma parseChoice_inv possibilities random choice position direction s
    output s' :
  parseChoice possibilities random choice position direction s
  = (Returns output, s') ->
  exists arguments0 arguments sc ct,
    possibilities !! ch_title choice = Some sc /\
    p_contents sc = Some ct /\
    output = setArguments arguments
               (stretchBox choice position
                  (placeChoice choice arguments0 sc ct position direction)).
Proof.
  unfold parseChoice. intros Hrun.
  apply bind_Returns_inv in Hrun as (arguments0 & s1 & _ & Hrun).
  apply bind_Returns_inv in Hrun as (sized & s2 & Hsized & Hrun).
  apply bind_Returns_inv in Hrun as (sc & s3 & Hsc & Hrun).
  destruct (possibilities !! ch_title choice) as [sc' |] eqn:Hlookup;
    [| discriminate].
  injection Hsc as -> ->.
  apply bind_Returns_inv in Hrun as (ct & s4 & Hct & Hrun).
  destruct (p_contents sc) as [ct' |] eqn:Hcontents; [| discriminate].
  injection Hct as -> ->.
  rewrite ensureSizingOnChoice_schema in Hsized. injection Hsized as <- <-.
  apply bind_Returns_inv in Hrun as (stretched & s5 & Hstretch & Hrun).
  match type of Hstretch with
  | stretchChoice ?o _ _ _ = _ =>
      destruct (stretchChoice_returns o choice position s1)
        as (arguments1 & t & Hstretch' & _)
  end.
  rewrite Hstretch' in Hstretch. injection Hstretch as <- <-.
  match type of Hrun with
  | copySchemaArguments _ _ ?o _ = _ =>
      destruct (copySchemaArguments_returns sc ct choice o t Hcontents)
        as (arguments2 & t' & Hcopy & _)
  end.
  rewrite Hcopy in Hrun. injection Hrun as <- <-.
  exists arguments0, arguments2, sc, ct.
  split; [reflexivity |]. split; [exact Hcontents |].
  rewrite setArguments_twice. reflexivity.
Qed.

Lemma setArguments_type arguments output :
  c_type (setArguments arguments output) = c_type output.
Proof. reflexivity. Qed.

Lemma stretchBox_type choice position output :
  c_type (stretchBox choice position output) = c_type output.
Proof.
  unfold stretchBox.
  destruct (ch_stretch choice) as [[[|] [|]] |]; reflexivity.
Qed.

(** ** Repeat mode *)

Lemma positionIsNotEmpty_extent position direction :
  positionIsNotEmpty position direction = (0 <? extent direction position).
Proof.
  unfold positionIsNotEmpty, extent.
  destruct (String.eqb direction "right" || String.eqb direction "left").
  - destruct (Z.ltb_spec (left position) (right position)),
      (Z.ltb_spec 0 (right position - left position)); try reflexivity; lia.
  - destruct (Z.ltb_spec (bottom position) (top position)),
      (Z.ltb_spec 0 (top position - bottom position)); try reflexivity; lia.
Qed.

(** Where a placed child lies, rightwards and upwards: within the cursor,
    and strictly past its trailing edge. *)
Lemma placed_geometry choice arguments0 arguments sc ct position direction :
  direction = "right" \/ direction = "top" ->
  1 <= choiceWidth choice sc ->
  1 <= choiceHeight choice sc ->
  left position <= right position ->
  bottom position <= top position ->
  0 < extent direction position ->
  choiceFitsPosition
    (setArguments arguments
       (stretchBox choice position
          (placeChoice choice arguments0 sc ct position direction)))
    position = true ->
  contained position
    (setArguments arguments
       (stretchBox choice position
          (placeChoice choice arguments0 sc ct position direction))) /\
  (direction = "right" ->
   left position
   < c_right (setArguments arguments
                (stretchBox choice position
                   (placeChoice choice arguments0 sc ct position direction)))) /\
  (direction = "top" ->
   bottom position
   < c_top (setArguments arguments
              (stretchBox choice position
                 (placeChoice choice arguments0 sc ct position direction)))).
Proof.
  intros Hdirection Hw Hh Hlr Hbt.
  unfold contained, choiceFitsPosition, doesChoiceFit, stretchBox,
    placeChoice, snapChoice, extent.
  generalize dependent (choiceWidth choice sc).
  generalize dependent (choiceHeight choice sc).
  intros h Hh w Hw.
  destruct Hdirection as [-> | ->]; simpl;
    destruct (ch_stretch choice) as [[[|] [|]] |];
    repeat match goal with
           | |- context [String.eqb (ct_snap ct) ?b] =>
               destruct (String.eqb (ct_snap ct) b)
           end;
    simpl; rewrite andb_true_iff, !Z.leb_le; intros Hextent [Hfw Hfh];
    (split; [lia | split; intros; try discriminate; lia]).
Qed.

Lemma parseSpacing_number_nonNegative random n :
  0 <= n -> nonNegativeSpacing random (SpNumber n).
Proof.
  intros Hn s m s'. unfold parseSpacing.
  destruct (Z.eqb_spec n 0) as [-> | _]; intros [= <- <-]; lia.
Qed.

(** *** Spacings that are not negative by their shape *)

Lemma Qfloor_nonneg (x : Q) : (0 <= x)%Q -> 0 <= Qfloor x.
Proof.
  intros H. change 0 with (Qfloor 0). apply Qfloor_resp_le. exact H.
Qed.

Lemma inject_Z_nonneg (z : Z) : 0 <= z -> (0 <= inject_Z z)%Q.
Proof.
  intros H. change 0%Q with (inject_Z 0). rewrite <- Zle_Qle. exact H.
Qed.

Lemma randomBetween_nonneg (r min max : Q) :
  (0 <= r)%Q -> (0 <= min)%Q -> (min <= max)%Q ->
  (0 <= inject_Z (Qfloor (r * (1 + max - min))) + min)%Q.
Proof.
  intros Hr Hmin Hmax.
  assert (0 <= r * (1 + max - min))%Q as H
    by (apply Qmult_le_0_compat; [exact Hr | lra]).
  pose proof (inject_Z_nonneg _ (Qfloor_nonneg _ H)). lra.
Qed.

Lemma quotients_ordered (a b u : Z) :
  0 <= a -> a <= b -> 0 < u ->
  (0 <= inject_Z a / inject_Z u)%Q /\
  (inject_Z a / inject_Z u <= inject_Z b / inject_Z u)%Q.
Proof.
  intros Ha Hab Hu.
  assert (0 < inject_Z u)%Q as Hu'
    by (change 0%Q with (inject_Z 0); rewrite <- Zlt_Qlt; exact Hu).
  assert (0 <= / inject_Z u)%Q as Hinv by (apply Qinv_le_0_compat; lra).
  pose proof (inject_Z_nonneg a Ha).
  assert (inject_Z a <= inject_Z b)%Q by (rewrite <- Zle_Qle; exact Hab).
  unfold Qdiv. split.
  - apply Qmult_le_0_compat; assumption.
  - apply Qmult_le_compat_r; assumption.
Qed.

Lemma chooseAmongFrom_In A (percent : A -> option Z) choice choices :
  forall sum c,
    chooseAmongFrom percent choice sum choices = Some c -> In c choices.
Proof.
  induction choices as [| c0 rest IH]; intros sum c; simpl; [discriminate |].
  destruct sum as [sum |], (percent c0) as [p |];
    try (intros H; right; exact (IH _ _ H)).
  destruct (choice <=? sum + p).
  - intros [= <-]. left. reflexivity.
  - intros H. right. exact (IH _ _ H).
Qed.

Lemma chooseAmong_In A random (percent : A -> option Z) choices s c s' :
  chooseAmong random percent choices s = (Returns (Some c), s') ->
  In c choices.
Proof.
  destruct choices as [| c1 [| c2 rest]]; unfold chooseAmong.
  - discriminate.
  - intros [= <- <-]. left. reflexivity.
  - intros Hrun.
    apply bind_Returns_inv in Hrun as (choice & s1 & _ & Hret).
    assert (chooseAmongFrom percent choice (Some 0) (c1 :: c2 :: rest)
            = Some c) as Hchosen by (unfold ret in Hret; congruence).
    exact (chooseAmongFrom_In _ _ _ _ _ _ Hchosen).
Qed.

Lemma parseSpacingObject_nonNegative random v :
  (forall i, 0 <= random i)%Q ->
  nonNegativeValue v ->
  forall s n s',
    parseSpacingObject random v s = (Returns n, s') -> 0 <= n.
Proof.
  intros Hrandom Hv s n s'. destruct v as [m | o];
    unfold parseSpacingObject, nonNegativeValue in *.
  - intros [= <- <-]. exact Hv.
  - destruct Hv as (Hmin & Hmax & Hunits).
    unfold bind, randomBetween, bind, nextRandom, ret.
    intros Hrun.
    assert (n = Qfloor
                  ((inject_Z
                      (Qfloor
                         (random (drawn s)
                          * (1
                             + inject_Z (sp_max o)
                               / inject_Z
                                   match sp_units o with
                                   | Some u => if u =? 0 then 1 else u
                                   | None => 1
                                   end
                             - inject_Z (sp_min o)
                               / inject_Z
                                   match sp_units o with
                                   | Some u => if u =? 0 then 1 else u
                                   | None => 1
                                   end)))
                    + inject_Z (sp_min o)
                      / inject_Z
                          match sp_units o with
                          | Some u => if u =? 0 then 1 else u
                          | None => 1
                          end)
                   * inject_Z
                       match sp_units o with
                       | Some u => if u =? 0 then 1 else u
                       | None => 1
                       end)%Q) as -> by congruence.
    clear Hrun.
    set (u := match sp_units o with
              | Some u => if u =? 0 then 1 else u
              | None => 1
              end).
    assert (0 < u) as Hu.
    { unfold u. destruct (sp_units o) as [u0 |]; [| lia].
      destruct (Z.eqb_spec u0 0); lia. }
    destruct (quotients_ordered (sp_min o) (sp_max o) u Hmin Hmax Hu)
      as [Hlow Hle].
    apply Qfloor_nonneg. apply Qmult_le_0_compat.
    + apply randomBetween_nonneg; [apply Hrandom | exact Hlow | exact Hle].
    + apply inject_Z_nonneg. lia.
Qed.

(** With a random source that is never negative, a spacing that is not
    negative by its shape only resolves to numbers that are not negative. *)
Lemma nonNegativeShape_sound random spacing :
  (forall i, 0 <= random i)%Q ->
  nonNegativeShape spacing ->
  nonNegativeSpacing random spacing.
Proof.
  intros Hrandom Hshape s n s'.
  destruct spacing as [| m | min max | choices | o]; simpl in Hshape.
  - intros [= <- <-]. lia.
  - apply parseSpacing_number_nonNegative. exact Hshape.
  - destruct Hshape as [Hmin Hmax].
    unfold parseSpacing, parseSpacingObject, bind, randomBetween, bind,
      nextRandom, ret.
    intros Hrun.
    assert (n = Qfloor
                  (inject_Z
                     (Qfloor
                        (random (drawn s)
                         * (1 + inject_Z max - inject_Z min)))
                   + inject_Z min)%Q) as -> by congruence.
    apply Qfloor_nonneg.
    apply randomBetween_nonneg;
      [apply Hrandom | apply inject_Z_nonneg; exact Hmin
      | rewrite <- Zle_Qle; exact Hmax].
  - unfold parseSpacing. intros Hrun.
    apply bind_Returns_inv in Hrun as ([c |] & s1 & Hchosen & Hrun).
    + apply bind_Returns_inv in Hrun as (c' & s2 & [= <- <-] & Hrun).
      apply chooseAmong_In in Hchosen.
      rewrite Forall_forall in Hshape.
      apply (parseSpacingObject_nonNegative random (sc_value c) Hrandom
               (Hshape c ltac:(apply list_elem_of_In; exact Hchosen))
               _ _ _ Hrun).
    + apply bind_Returns_inv in Hrun as (c' & s2 & Hnone & _).
      discriminate.
  - apply (parseSpacingObject_nonNegative random (SVObject o) Hrandom Hshape).
Qed.

Lemma whileRepeat_unfold possibilities random generate fuel contents position
    direction spacing children i :
  whileRepeat possibilities random generate fuel contents position direction
    spacing children i =
  if positionIsNotEmpty position direction then
    match fuel with
    | O => outOfFuel
    | S fuel =>
        let choices := ct_children contents in
        let* choice := defined (choices !! i) in
        let* child :=
          repeatChild possibilities random generate contents choice position
            direction in
        if choiceFitsPosition child position then
          let* position :=
            shrinkPositionByChild random position child direction spacing in
          let i := S i in
          let i := if (length choices <=? i)%nat then O else i in
          whileRepeat possibilities random generate fuel contents position
            direction spacing (children ++ [child]) i
        else ret children
    end
  else ret children.
Proof. destruct fuel; reflexivity. Qed.

(** The candidate of an iteration, for a child that Repeat mode places
    without expanding: it never runs out of fuel, and when it is returned it
    is either a placed "Known" node or a "Final" node pinned to the cursor. *)
Lemma repeatChild_cases possibilities random generate contents choice position
    direction s :
  positiveChild possibilities choice ->
  fst (repeatChild possibilities random generate contents choice position
         direction s) <> OutOfFuel /\
  forall child s',
    repeatChild possibilities random generate contents choice position
      direction s = (Returns child, s') ->
    (exists arguments0 arguments sc ct,
        1 <= choiceWidth choice sc /\ 1 <= choiceHeight choice sc /\
        child = setArguments arguments
                  (stretchBox choice position
                     (placeChoice choice arguments0 sc ct position direction)))
    \/
    (exists arguments w h,
        child = mkChoice (ch_title choice) "Known" arguments w h
                  (top position) (right position) (bottom position)
                  (left position) None).
Proof.
  intros [Hfinal | [Hknown Hsizes]]; unfold repeatChild.
  - rewrite Hfinal. change (String.eqb "Final" "Final") with true. cbv iota.
    split.
    + eapply (Built_never_OutOfFuel random random false).
      apply Built_parseChoiceFinal.
    + intros child s' Hrun. right.
      unfold parseChoiceFinal in Hrun.
      destruct (possibilities !! default "undefined" (ch_source choice))
        as [sc |]; [| discriminate].
      apply bind_Returns_inv in Hrun as (sc' & s1 & [= <- <-] & Hrun).
      pose proof Hrun as Hcopy. unfold copySchemaArguments in Hcopy.
      apply bind_Returns_inv in Hcopy as (sc' & s2 & [= <- <-] & Hcopy).
      apply bind_Returns_inv in Hcopy as (ct & s3 & Hct & _).
      destruct (p_contents sc) as [ct' |] eqn:Hcontents; [| discriminate].
      match type of Hrun with
      | copySchemaArguments _ _ ?o _ = _ =>
          destruct (copySchemaArguments_returns sc ct' choice o s Hcontents)
            as (arguments & t & Hreturns & _)
      end.
      rewrite Hreturns in Hrun. injection Hrun as <- <-.
      exists arguments, (p_width sc), (p_height sc). reflexivity.
  - rewrite Hknown. change (String.eqb "Known" "Final") with false. cbv iota.
    pose proof (Built_never_OutOfFuel random random false _ _ _
                  (Built_parseChoice possibilities random random false false
                     choice position direction) s) as Hfuel.
    unfold bind.
    destruct (parseChoice possibilities random choice position direction s)
      as [[output | e |] s1] eqn:Hparse; simpl in Hfuel;
      [| split; [discriminate | intros; discriminate] | contradiction].
    destruct (parseChoice_inv _ _ _ _ _ _ _ _ Hparse)
      as (arguments0 & arguments & sc & ct & Hsc & Hct & ->).
    unfold expandChoice.
    rewrite setArguments_type, stretchBox_type, placeChoice_type, Hknown.
    change (String.eqb "Known" "Known") with true. cbv iota.
    split; [discriminate |].
    intros child s' [= <- <-]. left.
    exists arguments0, arguments, sc, ct.
    destruct (Hsizes sc Hsc) as [Hw Hh]. repeat split; assumption.
Qed.

Lemma cursor_well_formed direction box position :
  direction = "right" \/ direction = "top" ->
  cursorWithin direction box position ->
  0 < extent direction position ->
  left position <= right position /\ bottom position <= top position.
Proof.
  unfold cursorWithin, extent.
  intros [-> | ->]; simpl; lia.
Qed.

Lemma contained_within direction box position child :
  cursorWithin direction box position ->
  contained position child ->
  contained box child.
Proof. unfold cursorWithin, contained. lia. Qed.

(** Shrinking the cursor by a child that lies within it and past its
    trailing edge keeps it within the box and makes it strictly shorter, when
    the spacing resolves to a number that is not negative. *)
Lemma shrink_within random direction spacing box position child s :
  direction = "right" \/ direction = "top" ->
  nonNegativeSpacing random spacing ->
  cursorWithin direction box position ->
  contained position child ->
  (direction = "right" -> left position < c_right child) ->
  (direction = "top" -> bottom position < c_top child) ->
  exists out s',
    shrinkPositionByChild random position child direction spacing s
    = (out, s') /\
    out <> OutOfFuel /\
    forall position',
      out = Returns position' ->
      cursorWithin direction box position' /\
      extent direction position' < extent direction position.
Proof.
  intros Hdirection Hspacing Hwithin Hcontained Hright Htop.
  pose proof (Built_never_OutOfFuel random random false _ _ _
                (Built_parseSpacing random random false false spacing) s)
    as Hfuel.
  unfold cursorWithin, contained, extent in *.
  destruct Hdirection as [-> | ->]; unfold shrinkPositionByChild;
    simpl in Hwithin |- *; unfold bind;
    destruct (parseSpacing random spacing s) as [[n | e |] s1] eqn:Hparse;
    simpl in Hfuel; try contradiction;
    eexists _, _; (split; [reflexivity |]); (split; [discriminate |]);
    intros position' [= <-]; try discriminate;
    pose proof (Hspacing _ _ _ Hparse) as Hn; simpl.
  - specialize (Hright eq_refl). lia.
  - specialize (Htop eq_refl). lia.
Qed.

(** The loop of Repeat mode, rightwards or upwards, over children it does
    not expand and with a spacing that is never negative: with fuel for the extent of the
    cursor it does not run out, and the children it returns lie within the
    box. *)
Lemma whileRepeat_within possibilities random generate contents direction
    spacing box :
  direction = "right" \/ direction = "top" ->
  nonNegativeSpacing random spacing ->
  Forall (positiveChild possibilities) (ct_children contents) ->
  forall fuel position children i s,
    cursorWithin direction box position ->
    Forall (contained box) children ->
    (Z.to_nat (extent direction position) <= fuel)%nat ->
    exists out s',
      whileRepeat possibilities random generate fuel contents position
        direction spacing children i s = (out, s') /\
      out <> OutOfFuel /\
      forall cs, out = Returns cs -> Forall (contained box) cs.
Proof.
  intros Hdirection Hspacing Hchildren.
  induction fuel as [| fuel IH];
    intros position children i s Hwithin Hcontained Hfuel;
    rewrite whileRepeat_unfold, positionIsNotEmpty_extent;
    destruct (Z.ltb_spec 0 (extent direction position)) as [Hspace | Hnone];
    try (exists (Returns children), s;
         split; [reflexivity |]; split; [discriminate |];
         intros cs [= <-]; exact Hcontained).
  - lia.
  - cbv zeta.
    destruct (ct_children contents !! i) as [choice |] eqn:Hchoice.
    2: { exists (Throws TypeError), s.
         split; [reflexivity |]. split; discriminate. }
    rewrite (bind_Returns _ _ _ _ s choice s) by reflexivity.
    assert (positiveChild possibilities choice) as Hpositive.
    { eapply Forall_lookup_1; eassumption. }
    destruct (repeatChild_cases possibilities random generate contents choice
                position direction s Hpositive) as [Hfuelfree Hshape].
    destruct (repeatChild possibilities random generate contents choice
                position direction s) as [[child | e |] s1] eqn:Hchild;
      simpl in Hfuelfree.
    3: contradiction.
    2: { exists (Throws e), s1.
         split; [apply (bind_Throws _ _ _ _ _ _ _ Hchild) |].
         split; discriminate. }
    rewrite (bind_Returns _ _ _ _ _ _ _ Hchild).
    destruct (choiceFitsPosition child position) eqn:Hfits.
    2: { exists (Returns children), s1.
         split; [reflexivity |]. split; [discriminate |].
         intros cs [= <-]. exact Hcontained. }
    destruct (cursor_well_formed direction box position Hdirection Hwithin
                Hspace) as [Hlr Hbt].
    assert (contained position child /\
            (direction = "right" -> left position < c_right child) /\
            (direction = "top" -> bottom position < c_top child))
      as (Hin & Hright & Htop).
    { destruct (Hshape child s1 eq_refl)
        as [(arguments0 & arguments & sc & ct & Hw & Hh & ->)
           | (arguments & w & h & ->)].
      - apply placed_geometry; assumption.
      - unfold contained, extent in *. simpl.
        destruct Hdirection as [-> | ->]; simpl in Hspace;
          (split; [lia | split; intros; try discriminate; lia]). }
    destruct (shrink_within random direction spacing box position child s1
                Hdirection Hspacing Hwithin Hin Hright Htop)
      as ([position' | e |] & s2 & Hshrink & Hfuel' & Hnext).
    3: contradiction.
    2: { exists (Throws e), s2.
         split; [apply (bind_Throws _ _ _ _ _ _ _ Hshrink) |].
         split; discriminate. }
    destruct (Hnext position' eq_refl) as [Hwithin' Hshorter].
    rewrite (bind_Returns _ _ _ _ _ _ _ Hshrink).
    cbv zeta. apply IH.
    + exact Hwithin'.
    + apply Forall_app. split; [exact Hcontained |].
      constructor 2; [| constructor 1].
      exact (contained_within direction box position child Hwithin Hin).
    + lia.
Qed.


Lemma known_A_positive :
  positiveChild repeatRow (known "A").
Proof.
  right. split; [reflexivity |].
  intros sc Hsc. vm_compute in Hsc. injection Hsc as <-.
  vm_compute. split; discriminate.
Defined.


(** [generate] on a schema in Repeat mode runs the loop from the box it
    was given and wraps the children in their envelope. *)
Lemma generate_Repeat possibilities random fuel name command schema contents
    s :
  possibilities !! name = Some schema ->
  p_contents schema = Some contents ->
  ct_mode contents = "Repeat" ->
  generate possibilities random fuel name command s
  = (let* children :=
       whileRepeat possibilities random
         (fun name command =>
            match fuel with
            | O => outOfFuel
            | S fuel => generate possibilities random fuel name command
            end)
         fuel contents command (ct_direction contents)
         (spacingOrZero (ct_spacing contents)) [] O in
     ret (getPositionExtremes (Some children))) s.
Proof.
  intros Hschema Hcontents Hmode.
  rewrite generate_unfold, Hschema, Hcontents.
  unfold generateChildren, generateChildrenRepeat. rewrite Hmode.
  change (String.eqb "Repeat" "Random") with false.
  change (String.eqb "Repeat" "Certain") with false.
  change (String.eqb "Repeat" "Repeat") with true.
  cbv iota. unfold objectMerge, objectCopy.
  rewrite bind_assoc. unfold bind.
  destruct (whileRepeat _ _ _ _ _ _ _ _ _ _ s) as [[children | e |] s'];
    reflexivity.
Qed.

(** A line of width 0 leaves the cursor where it was: the loop goes on for
    as long as it has fuel. *)
Lemma zeroWidth_never_stops generate fuel :
  forall children,
    whileRepeat zeroWidthRow alwaysHalf generate fuel zeroWidthContents rowBox
      "right" (SpNumber 0) children O initialState
    = (OutOfFuel, initialState).
Proof.
  induction fuel as [| fuel IH]; intros children; rewrite whileRepeat_unfold;
    change (positionIsNotEmpty rowBox "right") with true; cbv iota.
  - reflexivity.
  - cbv zeta.
    rewrite (bind_Returns _ _ _ _ initialState (known "Line") initialState)
      by reflexivity.
    assert (repeatChild zeroWidthRow alwaysHalf generate zeroWidthContents
              (known "Line") rowBox "right" initialState
            = (Returns (mkChoice "Line" "Known" None 0 10 10 0 0 0 None),
               initialState)) as Hchild by (vm_compute; reflexivity).
    rewrite (bind_Returns _ _ _ _ _ _ _ Hchild).
    change (choiceFitsPosition
              (mkChoice "Line" "Known" None 0 10 10 0 0 0 None) rowBox)
      with true.
    cbv iota.
    rewrite (bind_Returns _ _ _ _ initialState rowBox initialState)
      by reflexivity.
    apply IH.
Qed.

(** Leftwards, the leading edge of a child is computed past the right edge
    of the cursor, and shrinking by it makes the cursor longer: the loop goes
    on for as long as it has fuel. *)
Lemma leftward_never_stops generate fuel :
  forall children r,
    100 <= r ->
    whileRepeat leftwardRow alwaysHalf generate fuel leftwardContents
      (mkPosition 10 r 0 0) "left" (SpNumber 0) children O initialState
    = (OutOfFuel, initialState).
Proof.
  induction fuel as [| fuel IH]; intros children r Hr;
    rewrite whileRepeat_unfold;
    (replace (positionIsNotEmpty (mkPosition 10 r 0 0) "left") with true
      by (symmetry; apply Z.ltb_lt; simpl; lia)); cbv iota.
  - reflexivity.
  - cbv zeta.
    rewrite (bind_Returns _ _ _ _ initialState (known "A") initialState)
      by reflexivity.
    assert (repeatChild leftwardRow alwaysHalf generate leftwardContents
              (known "A") (mkPosition 10 r 0 0) "left" initialState
            = (Returns (mkChoice "A" "Known" None 40 10 10 r 0 (r + 40) None),
               initialState)) as Hchild.
    { unfold repeatChild.
      change (String.eqb (ch_type (known "A")) "Final") with false. cbv iota.
      rewrite (bind_Returns _ _ _ _ _ _ _
                 (parseChoice_plain leftwardRow alwaysHalf (known "A")
                    (mkPosition 10 r 0 0) "left" initialState
                    (terminal 40 10 "")
                    (mkContents "" "" "" [] SpUndefined None None)
                    eq_refl eq_refl eq_refl eq_refl eq_refl)).
      reflexivity. }
    rewrite (bind_Returns _ _ _ _ _ _ _ Hchild).
    replace (choiceFitsPosition
               (mkChoice "A" "Known" None 40 10 10 r 0 (r + 40) None)
               (mkPosition 10 r 0 0)) with true.
    2: { symmetry. unfold choiceFitsPosition, doesChoiceFit. simpl.
         apply andb_true_iff. split; apply Z.leb_le; lia. }
    cbv iota.
    rewrite (bind_Returns _ _ _ _ initialState
               (mkPosition 10 (r + 40 - 0) 0 0) initialState)
      by reflexivity.
    apply IH. lia.
Qed.

(** A spacing of -40 takes back the 40 that a block consumed. *)
Lemma backward_never_stops generate fuel :
  forall children,
    whileRepeat backwardRow alwaysHalf generate fuel backwardContents rowBox
      "right" (SpNumber (-40)) children O initialState
    = (OutOfFuel, initialState).
Proof.
  induction fuel as [| fuel IH]; intros children; rewrite whileRepeat_unfold;
    change (positionIsNotEmpty rowBox "right") with true; cbv iota.
  - reflexivity.
  - cbv zeta.
    rewrite (bind_Returns _ _ _ _ initialState (known "A") initialState)
      by reflexivity.
    assert (repeatChild backwardRow alwaysHalf generate backwardContents
              (known "A") rowBox "right" initialState
            = (Returns (mkChoice "A" "Known" None 40 10 10 40 0 0 None),
               initialState)) as Hchild by (vm_compute; reflexivity).
    rewrite (bind_Returns _ _ _ _ _ _ _ Hchild).
    change (choiceFitsPosition
              (mkChoice "A" "Known" None 40 10 10 40 0 0 None) rowBox)
      with true.
    cbv iota.
    rewrite (bind_Returns _ _ _ _ initialState rowBox initialState)
      by reflexivity.
    apply IH.
Qed.

(** A row that repeats itself expands without end: the nested [generate]
    uses up whatever fuel there is. *)
Lemma selfRow_never_stops fuel :
  generate selfRow alwaysHalf fuel "Row" rowBox initialState
  = (OutOfFuel, initialState).
Proof.
  induction fuel as [| fuel IH];
    rewrite (generate_Repeat selfRow alwaysHalf _ "Row" rowBox
               (mkPossibility 100 10 (Some selfContents)) selfContents
               initialState eq_refl eq_refl eq_refl);
    rewrite whileRepeat_unfold;
    change (positionIsNotEmpty rowBox (ct_direction selfContents)) with true;
    cbv iota.
  - reflexivity.
  - unfold bind at 1. unfold bind at 1.
    change (defined (ct_children selfContents !! O) initialState)
      with (Returns (mkChild "Row" "Random" None None None None None []),
            initialState).
    cbv iota beta. unfold repeatChild.
    change (String.eqb
              (ch_type (mkChild "Row" "Random" None None None None None []))
              "Final") with false.
    cbv iota. rewrite bind_assoc.
    rewrite (bind_Returns _ _ _ _ _ _ _
               (parseChoice_plain selfRow alwaysHalf
                  (mkChild "Row" "Random" None None None None None [])
                  rowBox "right" initialState
                  (mkPossibility 100 10 (Some selfContents)) selfContents
                  eq_refl eq_refl eq_refl eq_refl eq_refl)).
    unfold expandChoice. rewrite placeChoice_type.
    change (String.eqb
              (ch_type (mkChild "Row" "Random" None None None None None []))
              "Known") with false.
    cbv iota. rewrite bind_assoc.
    change (c_title
              (placeChoice
                 (mkChild "Row" "Random" None None None None None []) None
                 (mkPossibility 100 10 (Some selfContents)) selfContents
                 rowBox "right")) with "Row".
    unfold bind at 1. rewrite IH. reflexivity.
Qed.


(** * Further properties of the generator *)

(** ** The random utilities stay within their bounds *)

Lemma scaled_below (r c : Q) :
  (0 <= r)%Q -> (r < 1)%Q -> (0 < c)%Q -> (0 <= r * c)%Q /\ (r * c < c)%Q.
Proof.
  intros H0 H1 Hc. split.
  - apply Qmult_le_0_compat; lra.
  - assert (r * c < 1 * c)%Q as H
      by (apply Qmult_lt_compat_r; assumption).
    lra.
Qed.

Lemma Qfloor_below (x : Q) (n : Z) :
  (0 <= x)%Q -> (x < inject_Z n)%Q -> 0 <= Qfloor x < n.
Proof.
  intros H0 Hn. split.
  - apply Qfloor_nonneg. exact H0.
  - rewrite Zlt_Qlt. eapply Qle_lt_trans; [apply Qfloor_le | exact Hn].
Qed.

Lemma floor_scaled (r : Q) (a b : Z) :
  (0 <= r)%Q -> (r < 1)%Q -> a <= b ->
  0 <= Qfloor (r * (1 + inject_Z b - inject_Z a)) <= b - a.
Proof.
  intros H0 H1 Hab.
  assert (1 + inject_Z b - inject_Z a == inject_Z (1 + b - a))%Q as E.
  { unfold Z.sub. rewrite !inject_Z_plus, inject_Z_opp.
    change (inject_Z 1) with 1%Q. ring. }
  assert (0 < inject_Z (1 + b - a))%Q as Hc.
  { change 0%Q with (inject_Z 0). rewrite <- Zlt_Qlt. lia. }
  rewrite E.
  destruct (scaled_below r (inject_Z (1 + b - a)) H0 H1 Hc) as [Hl Hu].
  pose proof (Qfloor_below _ _ Hl Hu). lia.
Qed.

Lemma floor_shift (k m : Z) : Qfloor (inject_Z k + inject_Z m) = k + m.
Proof. rewrite <- inject_Z_plus. apply Qfloor_Z. Qed.

Lemma units_exact (k m u : Z) :
  0 < u ->
  Qfloor ((inject_Z k + inject_Z m / inject_Z u) * inject_Z u) = k * u + m.
Proof.
  intros Hu.
  assert (0 < inject_Z u)%Q as Hu'.
  { change 0%Q with (inject_Z 0). rewrite <- Zlt_Qlt. exact Hu. }
  assert (~ inject_Z u == 0)%Q as Hne by lra.
  assert ((inject_Z k + inject_Z m / inject_Z u) * inject_Z u
          == inject_Z (k * u + m))%Q as E.
  { rewrite inject_Z_plus, inject_Z_mult. field. exact Hne. }
  rewrite E. apply Qfloor_Z.
Qed.

Lemma units_bound (r : Q) (a b u : Z) :
  (0 <= r)%Q -> (r < 1)%Q -> a <= b -> 0 < u ->
  0 <= Qfloor (r * (1 + inject_Z b / inject_Z u - inject_Z a / inject_Z u)) /\
  Qfloor (r * (1 + inject_Z b / inject_Z u - inject_Z a / inject_Z u)) * u
  < u + b - a.
Proof.
  intros H0 H1 Hab Hu.
  assert (0 < inject_Z u)%Q as Hu'.
  { change 0%Q with (inject_Z 0). rewrite <- Zlt_Qlt. exact Hu. }
  assert (~ inject_Z u == 0)%Q as Hne by lra.
  set (c := (1 + inject_Z b / inject_Z u - inject_Z a / inject_Z u)%Q) in *.
  assert (c * inject_Z u == inject_Z (u + b - a))%Q as E.
  { unfold c, Z.sub. rewrite !inject_Z_plus, inject_Z_opp. field. exact Hne. }
  assert (0 < c)%Q as Hc.
  { assert (0 < c * inject_Z u)%Q.
    { rewrite E. change 0%Q with (inject_Z 0). rewrite <- Zlt_Qlt. lia. }
    destruct (Qlt_le_dec 0 c) as [Hpos | Hneg]; [exact Hpos |].
    exfalso.
    assert (0 <= (- c) * inject_Z u)%Q as Hprod
      by (apply Qmult_le_0_compat; lra).
    assert ((- c) * inject_Z u == - (c * inject_Z u))%Q as Hopp by ring.
    rewrite Hopp in Hprod. lra. }
  destruct (scaled_below r c H0 H1 Hc) as [Hl Hub].
  split.
  - apply Qfloor_nonneg. exact Hl.
  - rewrite Zlt_Qlt, inject_Z_mult, <- E.
    apply Qmult_lt_compat_r; [exact Hu' |].
    eapply Qle_lt_trans; [apply Qfloor_le | exact Hub].
Qed.

(** X1: with a random source in [0,1), [randomPercentage] returns an
    integer from 1 to 100 and consumes exactly one value of the source. *)
Theorem randomPercentage_within :
  forall (random : nat -> Q) (s : State),
    (0 <= random (drawn s))%Q ->
    (random (drawn s) < 1)%Q ->
    exists p : Z,
      randomPercentage random s = (Returns p, afterDraw s) /\
      1 <= p <= 100.
Proof.
  intros random s H0 H1.
  exists (Qfloor (random (drawn s) * inject_Z 100) + 1).
  split; [reflexivity |].
  assert (0 < inject_Z 100)%Q as Hc by reflexivity.
  destruct (scaled_below _ _ H0 H1 Hc) as [Hl Hu].
  pose proof (Qfloor_below _ _ Hl Hu). lia.
Qed.

Lemma randomPercentage_within_witness :
  exists p : Z,
    randomPercentage sevenTenths initialState
    = (Returns p, afterDraw initialState) /\
    1 <= p <= 100.
Proof.
  apply (randomPercentage_within sevenTenths initialState);
    [discriminate | reflexivity].
Defined.





(** ** Weighted choice *)

Lemma totalPercent_nonneg A (percent : A -> option Z) choices :
  weighted percent choices -> 0 <= totalPercent percent choices.
Proof.
  induction 1 as [| c rest (p & Hp & Hpos) _ IH]; simpl; [lia |].
  rewrite Hp. simpl. lia.
Qed.

Lemma chooseAmongFrom_reaches A (percent : A -> option Z) (choice : Z)
    (choices : list A) :
  weighted percent choices ->
  forall sum : Z,
    sum < choice ->
    choice <= sum + totalPercent percent choices ->
    exists c, chooseAmongFrom percent choice (Some sum) choices = Some c.
Proof.
  induction 1 as [| c rest (p & Hp & Hpos) Hrest IH]; intros sum Hlow Hhigh;
    simpl in *.
  - lia.
  - rewrite Hp in *. simpl in Hhigh.
    destruct (Z.leb_spec choice (sum + p)) as [Hle | Hgt].
    + exists c. reflexivity.
    + apply IH; lia.
Qed.

(** X4: an item that [chooseAmong] returns is one of the items it was
    given; and over a list that is not empty, with weights that are not
    negative and add up to 100 or more, and a random source in [0,1), it
    always returns an item. *)
Theorem chooseAmong_fully_weighted :
  forall (A : Type) (percent : A -> option Z) (random : nat -> Q)
         (choices : list A) (s : State),
    (forall c s', chooseAmong random percent choices s
                  = (Returns (Some c), s') -> In c choices) /\
    (choices <> [] ->
     weighted percent choices ->
     100 <= totalPercent percent choices ->
     (0 <= random (drawn s))%Q ->
     (random (drawn s) < 1)%Q ->
     exists c s',
       chooseAmong random percent choices s = (Returns (Some c), s')).
Proof.
  intros A percent random choices s. split.
  - intros c s' Hrun. exact (chooseAmong_In _ _ _ _ _ _ _ Hrun).
  - intros Hnonempty Hweighted Htotal H0 H1.
    destruct choices as [| c1 [| c2 rest]]; [contradiction | |].
    + exists c1, s. reflexivity.
    + assert (exists p : Z,
                 randomPercentage random s = (Returns p, afterDraw s) /\
                 1 <= p <= 100) as (p & Hdraw & Hp).
      { exists (Qfloor (random (drawn s) * inject_Z 100) + 1).
        split; [reflexivity |].
        assert (0 < inject_Z 100)%Q as Hc by reflexivity.
        destruct (scaled_below _ _ H0 H1 Hc) as [Hl Hu].
        pose proof (Qfloor_below _ _ Hl Hu). lia. }
      destruct (chooseAmongFrom_reaches A percent p (c1 :: c2 :: rest)
                  Hweighted 0) as (c & Hc); [lia | lia |].
      exists c, (afterDraw s). unfold chooseAmong.
      rewrite (bind_Returns _ _ _ _ _ _ _ Hdraw). unfold ret.
      rewrite Hc. reflexivity.
Qed.

Lemma chooseAmong_fully_weighted_witness :
  exists c s',
    chooseAmong sevenTenths ch_percent fullyWeighted initialState
    = (Returns (Some c), s') /\ In c fullyWeighted.
Proof.
  destruct (chooseAmong_fully_weighted IPossibilityChild ch_percent
              sevenTenths fullyWeighted initialState) as [Hin Hsome].
  destruct Hsome as (c & s' & Hrun).
  - discriminate.
  - repeat constructor; eexists; (split; [reflexivity | discriminate]).
  - discriminate.
  - discriminate.
  - reflexivity.
  - exists c, s'. split; [exact Hrun | exact (Hin c s' Hrun)].
Defined.

Lemma filterFitting_fits possibilities choices w h :
  forall fitting,
    filterFitting possibilities choices w h = Some fitting ->
    forall choice,
      In choice fitting ->
      In choice choices /\
      exists sc, possibilities !! ch_title choice = Some sc /\
                 p_width sc <= w /\ p_height sc <= h.
Proof.
  induction choices as [| c rest IH]; intros fitting; simpl.
  - intros [= <-] choice [].
  - destruct (possibilities !! ch_title c) as [sc |] eqn:Hsc; [| discriminate].
    destruct (filterFitting possibilities rest w h) as [fitting' |];
      [| discriminate].
    destruct (doesChoiceFit (p_width sc) (p_height sc) w h) eqn:Hfit;
      intros [= <-] choice Hin.
    + destruct Hin as [<- | Hin].
      * split; [left; reflexivity |]. exists sc. split; [exact Hsc |].
        unfold doesChoiceFit in Hfit.
        apply andb_true_iff in Hfit as [Hw Hh].
        apply Z.leb_le in Hw, Hh. split; assumption.
      * destruct (IH fitting' eq_refl choice Hin) as [Hrest Hfits].
        split; [right; exact Hrest | exact Hfits].
    + destruct (IH fitting' eq_refl choice Hin) as [Hrest Hfits].
      split; [right; exact Hrest | exact Hfits].
Qed.



(** ** The envelope *)

Lemma extremesFrom_encloses children :
  forall position,
    let envelope := extremesFrom position children in
    (top position <= top envelope /\ right position <= right envelope /\
     bottom envelope <= bottom position /\ left envelope <= left position) /\
    Forall (fun child =>
              c_top child <= top envelope /\
              c_right child <= right envelope /\
              bottom envelope <= c_bottom child /\
              left envelope <= c_left child) children /\
    (top envelope = top position \/
     exists c, In c children /\ c_top c = top envelope) /\
    (right envelope = right position \/
     exists c, In c children /\ c_right c = right envelope) /\
    (bottom envelope = bottom position \/
     exists c, In c children /\ c_bottom c = bottom envelope) /\
    (left envelope = left position \/
     exists c, In c children /\ c_left c = left envelope).
Proof.
  induction children as [| child rest IH]; intros position; simpl.
  - repeat split; try lia; try (left; reflexivity); try constructor 1.
  - specialize (IH (mkPosition (Z.max (top position) (c_top child))
                      (Z.max (right position) (c_right child))
                      (Z.min (bottom position) (c_bottom child))
                      (Z.min (left position) (c_left child)))).
    cbv zeta in IH. simpl in IH.
    destruct IH as ((Ht & Hr & Hb & Hl) & Hall & Htop & Hright & Hbottom
                    & Hleft).
    split; [lia |]. split.
    + constructor 2; [lia | exact Hall].
    + repeat split.
      * destruct Htop as [E | (c & Hc & E)];
          [| right; exists c; split; [right; exact Hc | exact E]].
        destruct (Z.max_spec (top position) (c_top child)) as [[_ M] | [_ M]];
          [right; exists child; split; [left; reflexivity | lia]
          | left; lia].
      * destruct Hright as [E | (c & Hc & E)];
          [| right; exists c; split; [right; exact Hc | exact E]].
        destruct (Z.max_spec (right position) (c_right child))
          as [[_ M] | [_ M]];
          [right; exists child; split; [left; reflexivity | lia]
          | left; lia].
      * destruct Hbottom as [E | (c & Hc & E)];
          [| right; exists c; split; [right; exact Hc | exact E]].
        destruct (Z.min_spec (bottom position) (c_bottom child))
          as [[_ M] | [_ M]];
          [left; lia
          | right; exists child; split; [left; reflexivity | lia]].
      * destruct Hleft as [E | (c & Hc & E)];
          [| right; exists c; split; [right; exact Hc | exact E]].
        destruct (Z.min_spec (left position) (c_left child))
          as [[_ M] | [_ M]];
          [left; lia
          | right; exists child; split; [left; reflexivity | lia]].
Qed.

(** X6: [getPositionExtremes] returns [undefined] for no list and for an
    empty list; for any other list it returns the children as they are with
    the smallest box that encloses them all: every child lies within it, and
    each of its four edges is the edge of one of the children. *)
Theorem getPositionExtremes_envelope :
  getPositionExtremes None = None /\
  getPositionExtremes (Some []) = None /\
  forall (child : IChoice) (rest : list IChoice),
  exists g : IGenerated,
    getPositionExtremes (Some (child :: rest)) = Some g /\
    g_children g = child :: rest /\
    Forall (encloses g) (child :: rest) /\
    (exists c, In c (child :: rest) /\ c_top c = g_top g) /\
    (exists c, In c (child :: rest) /\ c_right c = g_right g) /\
    (exists c, In c (child :: rest) /\ c_bottom c = g_bottom g) /\
    (exists c, In c (child :: rest) /\ c_left c = g_left g).
Proof.
  split; [reflexivity |]. split; [reflexivity |].
  intros child rest. eexists. split; [reflexivity |].
  destruct (extremesFrom_encloses rest (positionOf child))
    as ((Ht & Hr & Hb & Hl) & Hall & Htop & Hright & Hbottom & Hleft).
  cbv zeta in *. simpl in Ht, Hr, Hb, Hl, Htop, Hright, Hbottom, Hleft.
  unfold encloses. simpl.
  split; [reflexivity |]. split.
  - constructor 2; [lia | exact Hall].
  - repeat split.
    + destruct Htop as [E | (c & Hc & E)];
        [exists child | exists c]; split; auto.
    + destruct Hright as [E | (c & Hc & E)];
        [exists child | exists c]; split; auto.
    + destruct Hbottom as [E | (c & Hc & E)];
        [exists child | exists c]; split; auto.
    + destruct Hleft as [E | (c & Hc & E)];
        [exists child | exists c]; split; auto.
Qed.

(** ** Modes *)

(** X7: on a schema whose mode is none of "Random", "Certain", "Repeat"
    and "Multiple", [generate] places nothing, draws nothing and returns
    [undefined], whatever the children, the box and the fuel. *)
Theorem generate_unknown_mode :
  forall (possibilities : gmap string IPossibility) (random : nat -> Q)
         (fuel : nat) (name : string) (command : IPosition) (s : State)
         (schema : IPossibility) (contents : IPossibilityContents),
    possibilities !! name = Some schema ->
    p_contents schema = Some contents ->
    ct_mode contents <> "Random" ->
    ct_mode contents <> "Certain" ->
    ct_mode contents <> "Repeat" ->
    ct_mode contents <> "Multiple" ->
    generate possibilities random fuel name command s = (Returns None, s).
Proof.
  intros possibilities random fuel name command s schema contents
    Hschema Hcontents Hrandom Hcertain Hrepeat Hmultiple.
  rewrite generate_unfold, Hschema, Hcontents. unfold generateChildren.
  destruct (String.eqb_spec (ct_mode contents) "Random"); [contradiction |].
  destruct (String.eqb_spec (ct_mode contents) "Certain"); [contradiction |].
  destruct (String.eqb_spec (ct_mode contents) "Repeat"); [contradiction |].
  destruct (String.eqb_spec (ct_mode contents) "Multiple"); [contradiction |].
  reflexivity.
Qed.

Lemma generate_unknown_mode_witness :
  generate scatterRow sevenTenths 3 "Row" rowBox initialState
  = (Returns None, initialState).
Proof.
  apply (generate_unknown_mode scatterRow sevenTenths 3 "Row" rowBox
           initialState (mkPossibility 100 10 (Some scatterContents))
           scatterContents);
    try reflexivity; discriminate.
Defined.

(** ** The nodes that the parsers return *)

Lemma placeChoice_title choice arguments sc ct position direction :
  c_title (placeChoice choice arguments sc ct position direction)
  = ch_title choice.
Proof.
  unfold placeChoice, snapChoice, setDirectionEdge.
  repeat match goal with
         | |- context [String.eqb ?a ?b] => destruct (String.eqb a b)
         end; reflexivity.
Qed.

Lemma stretchBox_title choice position output :
  c_title (stretchBox choice position output) = c_title output.
Proof.
  unfold stretchBox.
  destruct (ch_stretch choice) as [[[|] [|]] |]; reflexivity.
Qed.

(** A node that [parseChoice] returns has the title and the type of the
    reference, and its title names a schema with contents. *)
Lemma parseChoice_node possibilities random choice position direction s
    output s' :
  parseChoice possibilities random choice position direction s
  = (Returns output, s') ->
  c_title output = ch_title choice /\
  c_type output = ch_type choice /\
  resolves possibilities (c_title output).
Proof.
  intros Hrun.
  destruct (parseChoice_inv _ _ _ _ _ _ _ _ Hrun)
    as (arguments0 & arguments & sc & ct & Hsc & Hct & ->).
  assert (c_title (setArguments arguments
                     (stretchBox choice position
                        (placeChoice choice arguments0 sc ct position
                           direction))) = ch_title choice) as Htitle.
  { change (c_title (setArguments arguments ?o)) with (c_title o).
    rewrite stretchBox_title. apply placeChoice_title. }
  split; [exact Htitle |]. split.
  - rewrite setArguments_type, stretchBox_type. apply placeChoice_type.
  - rewrite Htitle. exists sc, ct. split; assumption.
Qed.

(** A node that [parseChoiceFinal] returns is pinned to the cursor. *)
Lemma parseChoiceFinal_inv possibilities parent choice position direction s
    output s' :
  parseChoiceFinal possibilities parent choice position direction s
  = (Returns output, s') ->
  exists arguments sc,
    possibilities !! default "undefined" (ch_source choice) = Some sc /\
    output = mkChoice (ch_title choice) "Known" arguments
               (p_width sc) (p_height sc)
               (top position) (right position) (bottom position)
               (left position) None.
Proof.
  unfold parseChoiceFinal. intros Hrun.
  destruct (possibilities !! default "undefined" (ch_source choice))
    as [sc |]; [| discriminate].
  apply bind_Returns_inv in Hrun as (sc' & s1 & [= <- <-] & Hrun).
  pose proof Hrun as Hcopy. unfold copySchemaArguments in Hcopy.
  apply bind_Returns_inv in Hcopy as (sc' & s2 & [= <- <-] & Hcopy).
  apply bind_Returns_inv in Hcopy as (ct & s3 & Hct & _).
  destruct (p_contents sc) as [ct' |] eqn:Hcontents; [| discriminate].
  match type of Hrun with
  | copySchemaArguments _ _ ?o _ = _ =>
      destruct (copySchemaArguments_returns sc ct' choice o s Hcontents)
        as (arguments & t & Hreturns & _)
  end.
  rewrite Hreturns in Hrun. injection Hrun as <- <-.
  exists arguments, sc. split; reflexivity.
Qed.

(** [expandChoice] changes nothing but the [contents] of a node. *)
Lemma expandChoice_inv generate output position s output' s' :
  expandChoice generate output position s = (Returns output', s') ->
  exists generated, output' = setContents generated output.
Proof.
  unfold expandChoice.
  destruct (String.eqb (c_type output) "Known").
  - intros [= <- <-]. exists (c_contents output).
    destruct output; reflexivity.
  - intros Hrun.
    apply bind_Returns_inv in Hrun as (generated & s1 & _ & [= <- <-]).
    exists generated. reflexivity.
Qed.

(** Where the leading and trailing edges of a placed node are, whatever
    the sizing, the snap and the stretch. *)
Lemma placed_edges choice arguments0 arguments sc ct position direction :
  let output :=
    setArguments arguments
      (stretchBox choice position
         (placeChoice choice arguments0 sc ct position direction)) in
  (direction = "right" ->
   c_left output = left position /\
   c_right output = c_left output + c_width output) /\
  (direction = "top" ->
   c_bottom output = bottom position /\
   c_top output = c_bottom output + c_height output) /\
  (direction = "left" -> ct_snap ct = "right" ->
   c_right output = right position /\
   c_left output = c_right output - c_width output) /\
  (direction = "bottom" -> ct_snap ct = "top" ->
   c_top output = top position /\
   c_bottom output = c_top output - c_height output).
Proof.
  cbv zeta. unfold stretchBox, placeChoice, snapChoice.
  generalize (choiceWidth choice sc) (choiceHeight choice sc). intros w h.
  split; [| split; [| split]].
  - intros ->. simpl.
    destruct (ch_stretch choice) as [[[|] [|]] |];
      repeat match goal with
             | |- context [String.eqb (ct_snap ct) ?b] =>
                 destruct (String.eqb (ct_snap ct) b)
             end;
      simpl; lia.
  - intros ->. simpl.
    destruct (ch_stretch choice) as [[[|] [|]] |];
      repeat match goal with
             | |- context [String.eqb (ct_snap ct) ?b] =>
                 destruct (String.eqb (ct_snap ct) b)
             end;
      simpl; lia.
  - intros -> Hsnap. rewrite Hsnap. simpl.
    destruct (ch_stretch choice) as [[[|] [|]] |]; simpl; lia.
  - intros -> Hsnap. rewrite Hsnap. simpl.
    destruct (ch_stretch choice) as [[[|] [|]] |]; simpl; lia.
Qed.



(** ** The arguments objects *)

Lemma getProp_setProp_eq key v props :
  getProp key (setProp key v props) = v.
Proof.
  induction props as [| [k old] rest IH]; simpl.
  - rewrite String.eqb_refl. reflexivity.
  - destruct (String.eqb k key) eqn:E; simpl; rewrite E;
      [reflexivity | exact IH].
Qed.

Lemma getProp_setProp_ne key key' v props :
  key' <> key ->
  getProp key' (setProp key v props) = getProp key' props.
Proof.
  intros Hne. induction props as [| [k old] rest IH]; simpl.
  - destruct (String.eqb_spec key key') as [E | _]; [congruence | reflexivity].
  - destruct (String.eqb_spec k key) as [-> | Hk]; simpl.
    + destruct (String.eqb_spec key key') as [E | _];
        [congruence | reflexivity].
    + destruct (String.eqb k key'); [reflexivity | exact IH].
Qed.

(** What [object[key] = v] does to the heap. *)
Lemma setProperty_heap a key v s o :
  heap s !! a = Some o ->
  exists s',
    setProperty a key v s = (Returns tt, s') /\
    heapOnly s s' /\
    heap s' !! a
    = Some (mkHeapObject (ho_items o) (setProp key v (ho_props o))) /\
    forall b, b <> a -> heap s' !! b = heap s !! b.
Proof.
  unfold addr in *.
  intros Ho. eexists. split; [reflexivity |]. split; [repeat split |].
  cbn [heap]. split.
  - rewrite list_lookup_alter_eq, Ho. reflexivity.
  - intros b Hb. apply list_lookup_alter_ne. congruence.
Qed.

(** The [for (i in map)] loop writes every mapped key and touches nothing
    else. *)
Lemma copyMappedArguments_heap map choice a :
  forall s o,
    heap s !! a = Some o ->
    exists s' o',
      copyMappedArguments map choice a s = (Returns tt, s') /\
      heapOnly s s' /\
      heap s' !! a = Some o' /\
      ho_items o' = ho_items o /\
      (NoDup (mappedKeys map) ->
       forall i mapped,
         In (i, mapped) map ->
         getProp mapped (ho_props o') = getProp i (ch_props choice)) /\
      (forall key,
          ~ In key (mappedKeys map) ->
          getProp key (ho_props o') = getProp key (ho_props o)) /\
      forall b, b <> a -> heap s' !! b = heap s !! b.
Proof.
  induction map as [| [i0 mapped0] rest IH]; intros s o Ho; simpl.
  - exists s, o. split; [reflexivity |]. split; [apply heapOnly_refl |].
    split; [exact Ho |]. split; [reflexivity |].
    split; [intros _ i mapped [] |]. split; [reflexivity | reflexivity].
  - destruct (setProperty_heap a mapped0 (getProp i0 (ch_props choice)) s o Ho)
      as (s1 & Hset & Hheap1 & Ha1 & Hother1).
    rewrite (bind_Returns _ _ _ _ _ _ _ Hset).
    destruct (IH s1 _ Ha1)
      as (s' & o' & Hrun & Hheap & Ha & Hitems & Hmapped & Hkept & Hother).
    exists s', o'. split; [exact Hrun |].
    split; [eapply heapOnly_trans; eassumption |].
    split; [exact Ha |]. split; [exact Hitems |]. split; [| split].
    + intros Hnodup i mapped [[= <- <-] | Hin].
      * rewrite Hkept.
        -- simpl. apply getProp_setProp_eq.
        -- apply NoDup_cons_1_1 in Hnodup.
           intros Hin. apply Hnodup. apply list_elem_of_In. exact Hin.
      * apply Hmapped; [| exact Hin].
        apply NoDup_cons_1_2 in Hnodup. exact Hnodup.
    + intros key Hkey. rewrite Hkept.
      * simpl. apply getProp_setProp_ne. intros ->. apply Hkey.
        left. reflexivity.
      * intros Hin. apply Hkey. right. exact Hin.
    + intros b Hb. rewrite Hother, Hother1; [reflexivity | exact Hb | exact Hb].
Qed.

Lemma propsAt_lookup s a o : heap s !! a = Some o -> propsAt s a = ho_props o.
Proof. unfold propsAt. intros ->. reflexivity. Qed.

Lemma setArguments_own output a :
  c_arguments output = Some a -> setArguments (Some a) output = output.
Proof. intros <-. apply setArguments_same. Qed.

(** [copySchemaArguments] on a node that has an arguments object already:
    the loop writes into that object. *)
Lemma copySchemaArguments_shared sc ct map choice output s a o :
  p_contents sc = Some ct ->
  ct_argumentMap ct = Some map ->
  c_arguments output = Some a ->
  heap s !! a = Some o ->
  exists s' o',
    copySchemaArguments (Some sc) choice output s = (Returns output, s') /\
    heapOnly s s' /\
    heap s' !! a = Some o' /\
    ho_items o' = ho_items o /\
    (NoDup (mappedKeys map) ->
     forall i mapped,
       In (i, mapped) map ->
       getProp mapped (ho_props o') = getProp i (ch_props choice)) /\
    (forall key,
        ~ In key (mappedKeys map) ->
        getProp key (ho_props o') = getProp key (ho_props o)) /\
    forall b, b <> a -> heap s' !! b = heap s !! b.
Proof.
  unfold addr in *. intros Hct Hmap Hargs Ho.
  unfold copySchemaArguments.
  rewrite (bind_Returns _ _ _ _ s sc s) by reflexivity.
  rewrite Hct. rewrite (bind_Returns _ _ _ _ s ct s) by reflexivity.
  rewrite Hmap, Hargs.
  rewrite (bind_Returns _ _ _ _ s a s) by reflexivity.
  destruct (copyMappedArguments_heap map choice a s o Ho)
    as (s' & o' & Hrun & Hrest).
  rewrite (bind_Returns _ _ _ _ _ _ _ Hrun).
  exists s', o'. unfold ret.
  split; [do 2 f_equal; apply setArguments_own; exact Hargs | exact Hrest].
Qed.

(** X9: [copySchemaArguments] with an argument map whose target keys are
    distinct.  When the node already has an arguments object, the node is
    returned as it is and the object, which the node shares with whoever
    else holds it, receives under every mapped key the property of the child
    reference that the map names; its other keys and every other object are
    left alone.  When the node has no arguments, it receives a new object,
    which holds exactly these mapped properties, and no existing object
    changes. *)
Theorem copySchemaArguments_exposes :
  forall (sc : IPossibility) (ct : IPossibilityContents)
         (map : list (string * string)) (choice : IPossibilityChild)
         (output : IChoice) (s : State),
    p_contents sc = Some ct ->
    ct_argumentMap ct = Some map ->
    NoDup (mappedKeys map) ->
    (forall a o,
        c_arguments output = Some a ->
        heap s !! a = Some o ->
        exists s',
          copySchemaArguments (Some sc) choice output s
          = (Returns output, s') /\
          heapOnly s s' /\
          (forall i mapped,
              In (i, mapped) map ->
              getProp mapped (propsAt s' a) = getProp i (ch_props choice)) /\
          (forall key,
              ~ In key (mappedKeys map) ->
              getProp key (propsAt s' a) = getProp key (propsAt s a)) /\
          (forall b, b <> a -> heap s' !! b = heap s !! b)) /\
    (c_arguments output = None ->
     exists s',
       copySchemaArguments (Some sc) choice output s
       = (Returns (setArguments (Some (length (heap s))) output), s') /\
       heapOnly s s' /\
       (forall i mapped,
           In (i, mapped) map ->
           getProp mapped (propsAt s' (length (heap s)))
           = getProp i (ch_props choice)) /\
       (forall key,
           ~ In key (mappedKeys map) ->
           getProp key (propsAt s' (length (heap s))) = VUndefined) /\
       (forall b, (b < length (heap s))%nat -> heap s' !! b = heap s !! b)).
Proof.
  intros sc ct map choice output s Hct Hmap Hnodup.
  unfold addr in *. split.
  - intros a o Hargs Ho.
    destruct (copySchemaArguments_shared sc ct map choice output s a o
                Hct Hmap Hargs Ho)
      as (s' & o' & Hrun & Hheap & Ho' & _ & Hmapped & Hkept & Hother).
    exists s'. split; [exact Hrun |]. split; [exact Hheap |].
    rewrite (propsAt_lookup _ _ _ Ho'), (propsAt_lookup _ _ _ Ho).
    split; [exact (Hmapped Hnodup) |]. split; [exact Hkept | exact Hother].
  - intros Hnone.
    unfold copySchemaArguments.
    rewrite (bind_Returns _ _ _ _ s sc s) by reflexivity.
    rewrite Hct. rewrite (bind_Returns _ _ _ _ s ct s) by reflexivity.
    rewrite Hmap, Hnone.
    set (s1 := mkState (drawn s) (generatedCommands s)
                 (heap s ++ [mkHeapObject None []]) (placements s)).
    rewrite (bind_Returns _ _ _ _ s (length (heap s)) s1) by reflexivity.
    assert (heap s1 !! length (heap s) = Some (mkHeapObject None []))
      as Hnew by (apply list_lookup_middle; reflexivity).
    destruct (copyMappedArguments_heap map choice (length (heap s)) s1 _ Hnew)
      as (s' & o' & Hrun & Hheap & Ho' & _ & Hmapped & Hkept & Hother).
    rewrite (bind_Returns _ _ _ _ _ _ _ Hrun).
    exists s'. split; [reflexivity |]. split.
    + eapply heapOnly_trans; [| exact Hheap]. repeat split.
    + rewrite (propsAt_lookup _ _ _ Ho').
      split; [exact (Hmapped Hnodup) |]. split.
      * intros key Hkey. rewrite (Hkept key Hkey). reflexivity.
      * intros b Hb. rewrite Hother by lia.
        apply lookup_app_l. exact Hb.
Qed.

Lemma copySchemaArguments_exposes_witness :
  exists s',
    copySchemaArguments
      (Some (mkPossibility 16 8
               (Some (mkContents "" "" "bottom" [] SpUndefined
                        (Some [("height", "size")]) None))))
      tallPipe (mkChoice "Pipe" "Known" (Some 0%nat) 16 8 8 16 0 0 None)
      pipeHeap
    = (Returns (mkChoice "Pipe" "Known" (Some 0%nat) 16 8 8 16 0 0 None), s')
    /\ getProp "size" (propsAt s' 0%nat) = VNumber 24
    /\ getProp "color" (propsAt s' 0%nat) = VString "green".
Proof.
  assert (NoDup (mappedKeys [("height", "size")])) as Hnodup.
  { constructor 2; [| constructor 1]. intros Hin. inversion Hin. }
  destruct (proj1 (copySchemaArguments_exposes
                     (mkPossibility 16 8
                        (Some (mkContents "" "" "bottom" [] SpUndefined
                                 (Some [("height", "size")]) None)))
                     (mkContents "" "" "bottom" [] SpUndefined
                        (Some [("height", "size")]) None)
                     [("height", "size")] tallPipe
                     (mkChoice "Pipe" "Known" (Some 0%nat) 16 8 8 16 0 0 None)
                     pipeHeap eq_refl eq_refl Hnodup)
              0%nat (mkHeapObject None [("color", VString "green")])
              eq_refl eq_refl)
    as (s' & Hrun & _ & Hmapped & Hkept & _).
  exists s'. split; [exact Hrun |]. split.
  - apply (Hmapped "height" "size"). left. reflexivity.
  - rewrite (Hkept "color"); [reflexivity |].
    intros [E | []]. discriminate.
Defined.

Lemma placeChoice_arguments choice arguments sc ct position direction :
  c_arguments (placeChoice choice arguments sc ct position direction)
  = arguments.
Proof.
  unfold placeChoice, snapChoice, setDirectionEdge.
  repeat match goal with
         | |- context [String.eqb ?a ?b] => destruct (String.eqb a b)
         end; reflexivity.
Qed.

Lemma stretchBox_arguments choice position output :
  c_arguments (stretchBox choice position output) = c_arguments output.
Proof.
  unfold stretchBox.
  destruct (ch_stretch choice) as [[[|] [|]] |]; reflexivity.
Qed.

(** The [if (choice.stretch)] block on a node that has an arguments object
    already: the stretched sizes are written into that object. *)
Lemma stretchChoice_shared output choice position sw sh a o s :
  ch_stretch choice = Some (mkStretch sw sh) ->
  c_arguments output = Some a ->
  heap s !! a = Some o ->
  exists s' o',
    stretchChoice output choice position s
    = (Returns (stretchBox choice position output), s') /\
    heapOnly s s' /\
    heap s' !! a = Some o' /\
    ho_items o' = ho_items o /\
    (sw = true ->
     getProp "width" (ho_props o') = VNumber (right position - left position)) /\
    (sh = true ->
     getProp "height" (ho_props o') = VNumber (top position - bottom position)) /\
    forall b, b <> a -> heap s' !! b = heap s !! b.
Proof.
  unfold addr in *. intros Hstretch Hargs Ho.
  unfold stretchChoice, stretchBox. rewrite Hstretch, Hargs.
  clear Hstretch.
  rewrite (bind_Returns _ _ _ _ s a s) by reflexivity.
  destruct output as [title type arguments w h ot or ob ol contents].
  cbn [c_arguments] in Hargs. subst arguments.
  cbn [st_width st_height].
  destruct sw, sh;
    (eexists _, _; split; [reflexivity |]; split; [repeat split |]);
    unfold bind, setProperty, ret; cbn [heap fst snd];
    rewrite ?list_lookup_alter_eq, Ho; cbn [fmap option_fmap option_map];
    (split; [reflexivity |]); (split; [reflexivity |]); cbn [ho_props].
  - split; [| split].
    + intros _. rewrite getProp_setProp_ne by discriminate.
      apply getProp_setProp_eq.
    + intros _. apply getProp_setProp_eq.
    + intros b Hb. rewrite !list_lookup_alter_ne by congruence. reflexivity.
  - split; [| split].
    + intros _. apply getProp_setProp_eq.
    + discriminate.
    + intros b Hb. rewrite !list_lookup_alter_ne by congruence. reflexivity.
  - split; [| split].
    + discriminate.
    + intros _. apply getProp_setProp_eq.
    + intros b Hb. rewrite !list_lookup_alter_ne by congruence. reflexivity.
  - split; [discriminate |]. split; [discriminate | reflexivity].
Qed.

Lemma stretchBox_sizes choice position output sw sh :
  ch_stretch choice = Some (mkStretch sw sh) ->
  (sw = true ->
   c_left (stretchBox choice position output) = left position /\
   c_right (stretchBox choice position output) = right position /\
   c_width (stretchBox choice position output)
   = right position - left position) /\
  (sh = true ->
   c_top (stretchBox choice position output) = top position /\
   c_bottom (stretchBox choice position output) = bottom position /\
   c_height (stretchBox choice position output)
   = top position - bottom position).
Proof.
  intros Hstretch. unfold stretchBox. rewrite Hstretch.
  destruct sw, sh; cbn; split; intros H; try discriminate H; auto.
Qed.



(** ** Random mode *)

(** What [generateChild] returns: a child reference of the schema whose
    fixed size fits the cursor, placed by [parseChoice]. *)
Lemma generateChild_inv possibilities random contents position direction s
    child s' :
  generateChild possibilities random contents position direction s
  = (Returns (Some child), s') ->
  exists choice sc ct arguments0 arguments,
    In choice (ct_children contents) /\
    possibilities !! ch_title choice = Some sc /\
    p_width sc <= right position - left position /\
    p_height sc <= top position - bottom position /\
    child = setArguments arguments
              (stretchBox choice position
                 (placeChoice choice arguments0 sc ct position direction)).
Proof.
  unfold generateChild. intros Hrun.
  apply bind_Returns_inv in Hrun as ([choice |] & s1 & Hchosen & Hrun);
    [| discriminate].
  apply bind_Returns_inv in Hrun as (output & s2 & Hparsed & Hret).
  injection Hret as <- <-.
  unfold chooseAmongPosition in Hchosen. cbv zeta in Hchosen.
  apply bind_Returns_inv in Hchosen as (fitting & s3 & Hfitting & Hchosen).
  destruct (filterFitting possibilities (ct_children contents)
              (right position - left position)
              (top position - bottom position)) as [fitting' |] eqn:Hfilter;
    [| discriminate].
  injection Hfitting as <- <-.
  apply chooseAmong_In in Hchosen.
  destruct (filterFitting_fits _ _ _ _ _ Hfilter _ Hchosen)
    as (Hin & sc & Hsc & Hw & Hh).
  destruct (parseChoice_inv _ _ _ _ _ _ _ _ Hparsed)
    as (arguments0 & arguments & sc' & ct & Hsc' & Hct & ->).
  rewrite Hsc in Hsc'. injection Hsc' as <-.
  exists choice, sc, ct, arguments0, arguments.
  repeat (split; [assumption |]). reflexivity.
Qed.

(** A node placed with a size that fits the cursor fits the cursor,
    stretched or not. *)
Lemma placed_fits choice arguments0 arguments sc ct position direction :
  choiceWidth choice sc <= right position - left position ->
  choiceHeight choice sc <= top position - bottom position ->
  choiceFitsPosition
    (setArguments arguments
       (stretchBox choice position
          (placeChoice choice arguments0 sc ct position direction)))
    position = true.
Proof.
  intros Hw Hh.
  unfold choiceFitsPosition, doesChoiceFit, stretchBox, placeChoice,
    snapChoice, setDirectionEdge.
  destruct (ch_stretch choice) as [[[|] [|]] |];
    repeat match goal with
           | |- context [String.eqb ?a ?b] => destruct (String.eqb a b)
           end;
    cbn; rewrite andb_true_iff, !Z.leb_le; lia.
Qed.

Lemma generateChild_never_OutOfFuel possibilities random contents position
    direction s :
  fst (generateChild possibilities random contents position direction s)
  <> OutOfFuel.
Proof.
  apply (Built_never_OutOfFuel random random false _
           (generateChild possibilities random contents position direction)
           (generateChild possibilities random contents position direction)).
  unfold generateChild. built.
Qed.

(** The loop of Random mode, rightwards or upwards, over children placed
    with a size of at least 1 and at most their schema's, with a spacing that
    is never negative: with fuel for the extent of the cursor it does not run
    out, and the children it returns lie within the box and are at most as
    many more as the cursor is long. *)
Lemma whileRandom_within possibilities random contents direction spacing box :
  direction = "right" \/ direction = "top" ->
  nonNegativeSpacing random spacing ->
  Forall (snugChild possibilities) (ct_children contents) ->
  forall fuel position children s,
    cursorWithin direction box position ->
    Forall (contained box) children ->
    (Z.to_nat (extent direction position) <= fuel)%nat ->
    exists out s',
      whileRandom possibilities random fuel contents position direction
        spacing children s = (out, s') /\
      out <> OutOfFuel /\
      (forall cs,
          out = Returns (Some cs) ->
          Forall (contained box) cs /\
          (length cs
           <= length children + Z.to_nat (extent direction position))%nat) /\
      (ct_limit contents = None -> out <> Returns None).
Proof.
  intros Hdirection Hspacing Hchildren.
  induction fuel as [| fuel IH];
    intros position children s Hwithin Hcontained Hfuel;
    rewrite whileRandom_unfold, positionIsNotEmpty_extent;
    destruct (Z.ltb_spec 0 (extent direction position)) as [Hspace | Hnone];
    try (exists (Returns (Some children)), s;
         split; [reflexivity |]; split; [discriminate |];
         split; [| discriminate];
         intros cs [= <-]; split; [exact Hcontained | lia]).
  - lia.
  - pose proof (generateChild_never_OutOfFuel possibilities random contents
                  position direction s) as Hfuelfree.
    destruct (generateChild possibilities random contents position direction
                s) as [[[child |] | e |] s1] eqn:Hchild;
      simpl in Hfuelfree.
    4: contradiction.
    3: { exists (Throws e), s1.
         split; [apply (bind_Throws _ _ _ _ _ _ _ Hchild) |].
         split; [discriminate |]. split; discriminate. }
    2: { exists (Returns (Some children)), s1.
         split; [rewrite (bind_Returns _ _ _ _ _ _ _ Hchild); reflexivity |].
         split; [discriminate |]. split; [| discriminate].
         intros cs [= <-]. split; [exact Hcontained | lia]. }
    rewrite (bind_Returns _ _ _ _ _ _ _ Hchild).
    destruct (generateChild_inv _ _ _ _ _ _ _ _ Hchild)
      as (choice & sc & ct & arguments0 & arguments & Hin & Hsc & Hw & Hh
          & ->).
    assert (snugChild possibilities choice) as Hsnug.
    { rewrite Forall_forall in Hchildren. apply Hchildren.
      apply list_elem_of_In. exact Hin. }
    destruct (Hsnug sc Hsc) as [Hwidth Hheight].
    destruct (cursor_well_formed direction box position Hdirection Hwithin
                Hspace) as [Hlr Hbt].
    set (child := setArguments arguments
                    (stretchBox choice position
                       (placeChoice choice arguments0 sc ct position
                          direction))) in *.
    assert (choiceFitsPosition child position = true) as Hfits
      by (apply placed_fits; lia).
    destruct (placed_geometry choice arguments0 arguments sc ct position
                direction Hdirection (proj1 Hwidth) (proj1 Hheight) Hlr Hbt
                Hspace Hfits) as (Hinside & Hright & Htop).
    fold child in Hinside, Hright, Htop.
    destruct (shrink_within random direction spacing box position child s1
                Hdirection Hspacing Hwithin Hinside Hright Htop)
      as ([position' | e |] & s2 & Hshrink & Hfuel' & Hnext).
    3: contradiction.
    2: { exists (Throws e), s2.
         split; [apply (bind_Throws _ _ _ _ _ _ _ Hshrink) |].
         split; [discriminate |]. split; discriminate. }
    destruct (Hnext position' eq_refl) as [Hwithin' Hshorter].
    rewrite (bind_Returns _ _ _ _ _ _ _ Hshrink).
    cbv zeta.
    destruct (overLimit contents (children ++ [child])) eqn:Hlimit.
    { exists (Returns None), s2. split; [reflexivity |].
      split; [discriminate |]. split; [discriminate |].
      intros Hnone. unfold overLimit in Hlimit. rewrite Hnone in Hlimit.
      discriminate. }
    destruct (IH position' (children ++ [child]) s2) as
      (out & s' & Hrun & Hout & Hcs & Hsome).
    + exact Hwithin'.
    + apply Forall_app. split; [exact Hcontained |].
      constructor 2; [| constructor 1].
      exact (contained_within direction box position child Hwithin Hinside).
    + lia.
    + exists out, s'. split; [exact Hrun |]. split; [exact Hout |].
      split; [| exact Hsome].
      intros cs Hreturned. destruct (Hcs cs Hreturned) as [Hall Hlength].
      split; [exact Hall |].
      rewrite length_app in Hlength. simpl in Hlength. lia.
Qed.



(** ** Certain mode *)

Lemma shrink_by_number random position child direction n s :
  direction = "right" \/ direction = "top" ->
  exists position',
    shrinkPositionByChild random position child direction (SpNumber n) s
    = (Returns position', s) /\
    cursorStart direction position' = trailingEdge direction child + n.
Proof.
  intros [-> | ->]; unfold shrinkPositionByChild, parseSpacing, bind;
    destruct (Z.eqb_spec n 0) as [-> | _]; simpl;
    eexists; (split; [reflexivity |]); reflexivity.
Qed.

Lemma mapCertain_tiles possibilities random generate contents direction n :
  direction = "right" \/ direction = "top" ->
  forall choices position s outputs s',
    mapCertain possibilities random generate contents choices position
      direction (SpNumber n) s = (Returns outputs, s') ->
    tiled direction n (cursorStart direction position) choices outputs.
Proof.
  intros Hdirection.
  induction choices as [| choice rest IH]; intros position s outputs s' Hrun;
    simpl in Hrun.
  - injection Hrun as <- <-. exact I.
  - destruct (String.eqb (ch_type choice) "Final") eqn:Hfinal.
    + apply bind_Returns_inv in Hrun as (output & s1 & Hparsed & Hrun).
      apply bind_Returns_inv in Hrun as (others & s2 & Hrest & Hret).
      injection Hret as <- <-.
      destruct (parseChoiceFinal_inv _ _ _ _ _ _ _ _ Hparsed)
        as (arguments & sc & _ & ->).
      cbn [tiled]. rewrite Hfinal.
      split; [reflexivity |]. split.
      * unfold leadingEdge, cursorStart.
        destruct (String.eqb direction "right"); reflexivity.
      * exact (IH _ _ _ _ Hrest).
    + apply bind_Returns_inv in Hrun as (parsed & s1 & Hparsed & Hrun).
      apply bind_Returns_inv in Hrun as (output & s2 & Hexpanded & Hrun).
      apply bind_Returns_inv in Hrun as (position' & s3 & Hshrunk & Hrun).
      apply bind_Returns_inv in Hrun as (others & s4 & Hrest & Hret).
      injection Hret as <- <-.
      destruct (parseChoice_inv _ _ _ _ _ _ _ _ Hparsed)
        as (arguments0 & arguments & sc & ct & _ & _ & ->).
      destruct (expandChoice_inv _ _ _ _ _ _ Hexpanded) as (generated & ->).
      destruct (shrink_by_number random position
                  (setContents generated
                     (setArguments arguments
                        (stretchBox choice position
                           (placeChoice choice arguments0 sc ct position
                              direction))))
                  direction n s2 Hdirection) as (position'' & Hshrink & Hstart).
      rewrite Hshrink in Hshrunk. injection Hshrunk as -> <-.
      cbn [tiled]. rewrite Hfinal.
      split; [| split].
      * change (c_title (setContents generated ?o)) with (c_title o).
        change (c_title (setArguments arguments ?o)) with (c_title o).
        rewrite stretchBox_title. apply placeChoice_title.
      * destruct (placed_edges choice arguments0 arguments sc ct position
                    direction) as (Hright & Htop & _).
        cbv zeta in Hright, Htop.
        unfold leadingEdge, cursorStart.
        destruct Hdirection as [-> | ->]; simpl.
        -- exact (proj1 (Hright eq_refl)).
        -- exact (proj1 (Htop eq_refl)).
      * rewrite <- Hstart. exact (IH _ _ _ _ Hrest).
Qed.



(** ** Multiple mode *)

(** [movePositionBySpacing] by a plain number translates the cursor: its
    start moves by the number and its width and height stay. *)
Lemma move_by_number random position direction n s :
  direction = "right" \/ direction = "top" ->
  exists position',
    movePositionBySpacing random position direction (SpNumber n) s
    = (Returns position', s) /\
    cursorStart direction position' = cursorStart direction position + n /\
    right position' - left position' = right position - left position /\
    top position' - bottom position' = top position - bottom position.
Proof.
  intros [-> | ->]; unfold movePositionBySpacing, parseSpacing, bind;
    destruct (Z.eqb_spec n 0) as [-> | _]; simpl;
    eexists; (split; [reflexivity |]); unfold cursorStart; simpl; lia.
Qed.

Lemma mapMultiple_steps possibilities random direction n :
  direction = "right" \/ direction = "top" ->
  forall choices position s outputs s',
    mapMultiple possibilities random choices position direction (SpNumber n) s
    = (Returns outputs, s') ->
    stepped direction n (cursorStart direction position) choices outputs /\
    Forall (fun output => c_contents output = None) outputs.
Proof.
  intros Hdirection.
  assert (String.eqb direction "" = false) as Hset
    by (destruct Hdirection as [-> | ->]; reflexivity).
  induction choices as [| choice rest IH]; intros position s outputs s' Hrun;
    simpl in Hrun.
  - injection Hrun as <- <-. split; [exact I | constructor].
  - rewrite Hset in Hrun.
    apply bind_Returns_inv in Hrun as (output & s1 & Hparsed & Hrun).
    apply bind_Returns_inv in Hrun as (position' & s2 & Hmoved & Hrun).
    apply bind_Returns_inv in Hrun as (others & s3 & Hrest & Hret).
    injection Hret as <- <-.
    destruct (parseChoice_inv _ _ _ _ _ _ _ _ Hparsed)
      as (arguments0 & arguments & sc & ct & _ & _ & ->).
    destruct (move_by_number random position direction n s1 Hdirection)
      as (position'' & Hmove & Hstart & _).
    rewrite Hmove in Hmoved. injection Hmoved as -> <-.
    destruct (IH _ _ _ _ Hrest) as [Hstepped Hbare].
    split.
    + cbn [stepped]. split; [| split].
      * change (c_title (setArguments arguments ?o)) with (c_title o).
        rewrite stretchBox_title. apply placeChoice_title.
      * destruct (placed_edges choice arguments0 arguments sc ct
                    (objectCopy position) direction) as (Hright & Htop & _).
        cbv zeta in Hright, Htop.
        unfold leadingEdge, cursorStart.
        destruct Hdirection as [-> | ->]; simpl.
        -- exact (proj1 (Hright eq_refl)).
        -- exact (proj1 (Htop eq_refl)).
      * rewrite <- Hstart. exact Hstepped.
    + constructor 2; [| exact Hbare].
      unfold stretchBox, placeChoice, snapChoice, setDirectionEdge.
      destruct (ch_stretch choice) as [[[|] [|]] |];
        repeat match goal with
               | |- context [String.eqb ?a ?b] => destruct (String.eqb a b)
               end; reflexivity.
Qed.



(** ** From the loop to [generate] *)

(** The envelope of children that lie within a box lies within the box. *)
Lemma getPositionExtremes_within box children g :
  getPositionExtremes (Some children) = Some g ->
  Forall (contained box) children ->
  g_children g = children /\
  children <> [] /\
  Forall (encloses g) children /\
  left box <= g_left g /\ g_right g <= right box /\
  bottom box <= g_bottom g /\ g_top g <= top box.
Proof.
  destruct children as [| child rest]; [discriminate |].
  intros Hg Hall. simpl in Hg. injection Hg as <-.
  destruct (extremesFrom_encloses rest (positionOf child))
    as ((Ht & Hr & Hb & Hl) & Hrest & Htop & Hright & Hbottom & Hleft).
  cbv zeta in *. simpl in Ht, Hr, Hb, Hl, Htop, Hright, Hbottom, Hleft.
  assert (forall c, In c (child :: rest) -> contained box c) as Hin.
  { intros c Hc. rewrite Forall_forall in Hall. apply Hall.
    apply list_elem_of_In. exact Hc. }
  pose proof (Hin child (or_introl eq_refl)) as Hchild.
  unfold contained in Hchild.
  cbn [g_children g_top g_right g_bottom g_left].
  split; [reflexivity |]. split; [discriminate |]. split.
  - constructor 2; [unfold encloses; simpl; lia | exact Hrest].
  - repeat split.
    + destruct Hleft as [E | (c & Hc & E)]; [lia |].
      pose proof (Hin c (or_intror Hc)) as Hbox. unfold contained in Hbox.
      lia.
    + destruct Hright as [E | (c & Hc & E)]; [lia |].
      pose proof (Hin c (or_intror Hc)) as Hbox. unfold contained in Hbox.
      lia.
    + destruct Hbottom as [E | (c & Hc & E)]; [lia |].
      pose proof (Hin c (or_intror Hc)) as Hbox. unfold contained in Hbox.
      lia.
    + destruct Htop as [E | (c & Hc & E)]; [lia |].
      pose proof (Hin c (or_intror Hc)) as Hbox. unfold contained in Hbox.
      lia.
Qed.

Lemma generate_Random possibilities random fuel name command schema contents
    s :
  possibilities !! name = Some schema ->
  p_contents schema = Some contents ->
  ct_mode contents = "Random" ->
  generate possibilities random fuel name command s
  = (let* children :=
       whileRandom possibilities random fuel contents command
         (ct_direction contents) (spacingOrZero (ct_spacing contents)) [] in
     ret (getPositionExtremes children)) s.
Proof.
  intros Hschema Hcontents Hmode.
  rewrite generate_unfold, Hschema, Hcontents.
  unfold generateChildren, generateChildrenRandom. rewrite Hmode.
  change (String.eqb "Random" "Random") with true.
  cbv iota. reflexivity.
Qed.



(** ** Repeat mode *)

(** The candidate of an iteration has the title of its child reference. *)
Lemma repeatChild_title possibilities random generate contents choice position
    direction s child s' :
  repeatChild possibilities random generate contents choice position
    direction s = (Returns child, s') ->
  c_title child = ch_title choice.
Proof.
  unfold repeatChild.
  destruct (String.eqb (ch_type choice) "Final").
  - intros Hrun.
    destruct (parseChoiceFinal_inv _ _ _ _ _ _ _ _ Hrun)
      as (arguments & sc & _ & ->).
    reflexivity.
  - intros Hrun.
    apply bind_Returns_inv in Hrun as (parsed & s1 & Hparsed & Hexpanded).
    destruct (parseChoice_inv _ _ _ _ _ _ _ _ Hparsed)
      as (arguments0 & arguments & sc & ct & _ & _ & ->).
    destruct (expandChoice_inv _ _ _ _ _ _ Hexpanded) as (generated & ->).
    change (c_title (setContents generated ?o)) with (c_title o).
    change (c_title (setArguments arguments ?o)) with (c_title o).
    rewrite stretchBox_title. apply placeChoice_title.
Qed.

(** The loop of Repeat mode keeps the children it was given and appends
    children that follow the child references in a cycle from index [i]. *)
Lemma whileRepeat_cycles possibilities random generate contents direction
    spacing :
  forall fuel position children i s cs s',
    whileRepeat possibilities random generate fuel contents position
      direction spacing children i s = (Returns cs, s') ->
    exists new,
      cs = children ++ new /\
      forall k output,
        new !! k = Some output ->
        exists choice,
          ct_children contents
          !! Nat.modulo (i + k) (length (ct_children contents))
          = Some choice /\
          c_title output = ch_title choice.
Proof.
  induction fuel as [| fuel IH]; intros position children i s cs s';
    rewrite whileRepeat_unfold;
    destruct (positionIsNotEmpty position direction);
    try discriminate;
    try (intros [= <- <-]; exists []; rewrite app_nil_r;
         split; [reflexivity | intros k output Hk; discriminate Hk]).
  cbv zeta. intros Hrun.
  apply bind_Returns_inv in Hrun as (choice & s1 & Hchoice & Hrun).
  destruct (ct_children contents !! i) as [choice' |] eqn:Hlookup;
    [| discriminate].
  injection Hchoice as -> <-.
  apply bind_Returns_inv in Hrun as (child & s2 & Hchild & Hrun).
  pose proof (repeatChild_title _ _ _ _ _ _ _ _ _ _ Hchild) as Htitle.
  destruct (choiceFitsPosition child position).
  2: { injection Hrun as <- <-. exists []. rewrite app_nil_r.
       split; [reflexivity | intros k output Hk; discriminate Hk]. }
  apply bind_Returns_inv in Hrun as (position' & s3 & _ & Hrun).
  destruct (IH _ _ _ _ _ _ Hrun) as (new & -> & Hnew).
  exists (child :: new). split.
  - rewrite <- app_assoc. reflexivity.
  - pose proof (lookup_lt_Some _ _ _ Hlookup) as Hi.
    intros [| k] output Hk.
    + injection Hk as <-. exists choice.
      rewrite Nat.add_0_r, Nat.mod_small by exact Hi.
      split; [exact Hlookup | exact Htitle].
    + destruct (Hnew k output Hk) as (choice' & Hchoice' & Htitle').
      exists choice'. split; [| exact Htitle'].
      rewrite <- Hchoice'. f_equal.
      destruct (Nat.leb_spec (length (ct_children contents)) (S i))
        as [Hwrap | Hnext].
      * assert (S i = length (ct_children contents)) as Hlast by lia.
        replace (i + S k)%nat
          with (k + 1 * length (ct_children contents))%nat by lia.
        rewrite Nat.Div0.mod_add. reflexivity.
      * f_equal. lia.
Qed.



(** ** Where the errors come from *)

Lemma ensures_ret A (P : A -> Prop) a : P a -> ensures P (ret a).
Proof. intros H s. exact H. Qed.

Lemma ensures_TypeError A (P : A -> Prop) : ensures P (throw TypeError).
Proof. intros s. reflexivity. Qed.

Lemma ensures_outOfFuel A (P : A -> Prop) : ensures P outOfFuel.
Proof. intros s. exact I. Qed.

Lemma ensures_bind A B (P : A -> Prop) (Q : B -> Prop) (m : M A)
    (k : A -> M B) :
  ensures P m -> (forall a, P a -> ensures Q (k a)) -> ensures Q (bind m k).
Proof.
  intros Hm Hk s. unfold bind. specialize (Hm s).
  destruct (m s) as [[a | e |] s1]; simpl in *;
    [apply Hk; exact Hm | exact Hm | exact I].
Qed.

Lemma ensures_then A B (Q : B -> Prop) (m : M A) (k : A -> M B) :
  ensures (fun _ => True) m -> (forall a, ensures Q (k a)) ->
  ensures Q (bind m k).
Proof. intros Hm Hk. apply (ensures_bind _ _ _ _ _ _ Hm). auto. Qed.

Lemma ensures_returns A (P Q : A -> Prop) (m : M A) :
  ensures P m ->
  (forall s a s', m s = (Returns a, s') -> Q a) ->
  ensures Q m.
Proof.
  intros Hm Hq s. specialize (Hm s). specialize (Hq s).
  destruct (m s) as [[a | e |] s1]; simpl in *;
    [exact (Hq a s1 eq_refl) | exact Hm | exact I].
Qed.

Ltac careful_step :=
  first
    [ apply ensures_ret; exact I
    | apply ensures_TypeError
    | apply ensures_outOfFuel
    | solve [intros ?; exact I]
    | assumption
    | apply ensures_then; [ | intros ]
    | match goal with
      | |- ensures _ (match ?x with _ => _ end) => destruct x
      end ].

Create HintDb careful.

Ltac careful := cbv zeta; repeat careful_step; eauto with careful.

Section Careful.

Variable possibilities : gmap string IPossibility.
Variable random : nat -> Q.

Local Abbreviation Careful m := (ensures (fun _ => True) m).

Lemma careful_defined A (o : option A) : Careful (defined o).
Proof. unfold defined. careful. Qed.
#[local] Hint Resolve careful_defined : careful.

Lemma careful_randomPercentage : Careful (randomPercentage random).
Proof. unfold randomPercentage. careful. Qed.
#[local] Hint Resolve careful_randomPercentage : careful.

Lemma careful_randomBetween min max : Careful (randomBetween random min max).
Proof. unfold randomBetween. careful. Qed.
#[local] Hint Resolve careful_randomBetween : careful.

Lemma careful_chooseAmong A (percent : A -> option Z) choices :
  Careful (chooseAmong random percent choices).
Proof. unfold chooseAmong. careful. Qed.
#[local] Hint Resolve careful_chooseAmong : careful.

Lemma careful_chooseAmongPosition choices position :
  Careful (chooseAmongPosition possibilities random choices position).
Proof. unfold chooseAmongPosition. careful. Qed.
#[local] Hint Resolve careful_chooseAmongPosition : careful.

Lemma careful_parseSpacingObject spacing :
  Careful (parseSpacingObject random spacing).
Proof. unfold parseSpacingObject. careful. Qed.
#[local] Hint Resolve careful_parseSpacingObject : careful.

Lemma careful_parseSpacing spacing : Careful (parseSpacing random spacing).
Proof. unfold parseSpacing. careful. Qed.
#[local] Hint Resolve careful_parseSpacing : careful.

Lemma careful_shrinkPositionByChild position child direction spacing :
  Careful (shrinkPositionByChild random position child direction spacing).
Proof. unfold shrinkPositionByChild. careful. Qed.
#[local] Hint Resolve careful_shrinkPositionByChild : careful.

Lemma careful_movePositionBySpacing position direction spacing :
  Careful (movePositionBySpacing random position direction spacing).
Proof. unfold movePositionBySpacing. careful. Qed.
#[local] Hint Resolve careful_movePositionBySpacing : careful.

Lemma careful_ensureArguments arguments : Careful (ensureArguments arguments).
Proof. unfold ensureArguments. careful. Qed.
#[local] Hint Resolve careful_ensureArguments : careful.

Lemma careful_chooseArguments arguments :
  Careful (chooseArguments random arguments).
Proof. unfold chooseArguments. careful. Qed.
#[local] Hint Resolve careful_chooseArguments : careful.

Lemma careful_ensureSizingOnChoice output choice schema :
  Careful (ensureSizingOnChoice output choice schema).
Proof. unfold ensureSizingOnChoice. careful. Qed.
#[local] Hint Resolve careful_ensureSizingOnChoice : careful.

Lemma careful_stretchChoice output choice position :
  Careful (stretchChoice output choice position).
Proof. unfold stretchChoice. careful. Qed.
#[local] Hint Resolve careful_stretchChoice : careful.

Lemma careful_copyMappedArguments map choice a :
  Careful (copyMappedArguments map choice a).
Proof. induction map as [| [i mapped] rest IH]; simpl; careful. Qed.
#[local] Hint Resolve careful_copyMappedArguments : careful.

Lemma careful_copySchemaArguments schema choice output :
  Careful (copySchemaArguments schema choice output).
Proof. unfold copySchemaArguments. careful. Qed.
#[local] Hint Resolve careful_copySchemaArguments : careful.

Lemma careful_parseChoice choice position direction :
  Careful (parseChoice possibilities random choice position direction).
Proof. unfold parseChoice. careful. Qed.

Lemma careful_parseChoiceFinal parent choice position direction :
  Careful (parseChoiceFinal possibilities parent choice position direction).
Proof. unfold parseChoiceFinal. careful. Qed.

(** The nodes that the two parsers return. *)
Lemma parseChoice_sound choice position direction :
  ensures (fun output => resolves possibilities (c_title output))
    (parseChoice possibilities random choice position direction).
Proof.
  apply (ensures_returns _ _ _ _ (careful_parseChoice _ _ _)).
  intros s output s' Hrun.
  exact (proj2 (proj2 (parseChoice_node _ _ _ _ _ _ _ _ Hrun))).
Qed.

Lemma parseChoiceFinal_sound parent choice position direction :
  ensures (sound possibilities)
    (parseChoiceFinal possibilities parent choice position direction).
Proof.
  apply (ensures_returns _ _ _ _ (careful_parseChoiceFinal _ _ _ _)).
  intros s output s' Hrun.
  destruct (parseChoiceFinal_inv _ _ _ _ _ _ _ _ Hrun)
    as (arguments & sc & _ & ->).
  left. reflexivity.
Qed.

Section CarefulStrategies.

Variable generate : string -> IPosition -> M (option IGenerated).
Hypothesis careful_nested :
  forall name position,
    resolves possibilities name -> Careful (generate name position).

Lemma expandChoice_sound output position :
  resolves possibilities (c_title output) ->
  ensures (sound possibilities) (expandChoice generate output position).
Proof.
  intros Hresolves. unfold expandChoice.
  destruct (String.eqb (c_type output) "Known").
  - apply ensures_ret. right. exact Hresolves.
  - apply (ensures_then _ _ _ _ _ (careful_nested _ position Hresolves)).
    intros generated. apply ensures_ret. right. exact Hresolves.
Qed.

Lemma repeatChild_sound contents choice position direction :
  ensures (sound possibilities)
    (repeatChild possibilities random generate contents choice position
       direction).
Proof.
  unfold repeatChild. destruct (String.eqb (ch_type choice) "Final").
  - apply parseChoiceFinal_sound.
  - apply (ensures_bind _ _ _ _ _ _ (parseChoice_sound _ _ _)).
    intros output Hresolves. apply expandChoice_sound. exact Hresolves.
Qed.

Lemma mapCertain_sound contents direction spacing :
  forall choices position,
    ensures (Forall (sound possibilities))
      (mapCertain possibilities random generate contents choices position
         direction spacing).
Proof.
  induction choices as [| choice rest IH]; intros position; simpl.
  - apply ensures_ret. constructor.
  - destruct (String.eqb (ch_type choice) "Final").
    + apply (ensures_bind _ _ _ _ _ _ (parseChoiceFinal_sound _ _ _ _)).
      intros output Houtput.
      apply (ensures_bind _ _ _ _ _ _ (IH position)).
      intros outputs Houtputs. apply ensures_ret.
      constructor 2; assumption.
    + apply (ensures_bind _ _ _ _ _ _ (parseChoice_sound _ _ _)).
      intros parsed Hresolves.
      apply (ensures_bind _ _ _ _ _ _ (expandChoice_sound _ _ Hresolves)).
      intros output Houtput.
      apply (ensures_then _ _ _ _ _
               (careful_shrinkPositionByChild _ _ _ _)).
      intros position'.
      apply (ensures_bind _ _ _ _ _ _ (IH position')).
      intros outputs Houtputs. apply ensures_ret.
      constructor 2; assumption.
Qed.

Lemma whileRepeat_sound contents direction spacing :
  forall fuel position children i,
    Forall (sound possibilities) children ->
    ensures (Forall (sound possibilities))
      (whileRepeat possibilities random generate fuel contents position
         direction spacing children i).
Proof.
  induction fuel as [| fuel IH]; intros position children i Hchildren;
    rewrite whileRepeat_unfold;
    destruct (positionIsNotEmpty position direction);
    try (apply ensures_ret; exact Hchildren).
  - apply ensures_outOfFuel.
  - cbv zeta.
    apply (ensures_then _ _ _ _ _ (careful_defined _ _)). intros choice.
    apply (ensures_bind _ _ _ _ _ _ (repeatChild_sound _ _ _ _)).
    intros child Hchild.
    destruct (choiceFitsPosition child position);
      [| apply ensures_ret; exact Hchildren].
    apply (ensures_then _ _ _ _ _ (careful_shrinkPositionByChild _ _ _ _)).
    intros position'. apply IH.
    apply Forall_app. split; [exact Hchildren |].
    constructor 2; [exact Hchild | constructor 1].
Qed.

Lemma generateChild_sound contents position direction :
  ensures (fun child =>
             match child with
             | Some child => sound possibilities child
             | None => True
             end)
    (generateChild possibilities random contents position direction).
Proof.
  unfold generateChild.
  apply (ensures_then _ _ _ _ _ (careful_chooseAmongPosition _ _)).
  intros [choice |]; [| apply ensures_ret; exact I].
  apply (ensures_bind _ _ _ _ _ _ (parseChoice_sound _ _ _)).
  intros output Hresolves. apply ensures_ret. right. exact Hresolves.
Qed.

Lemma whileRandom_sound contents direction spacing :
  forall fuel position children,
    Forall (sound possibilities) children ->
    ensures (fun result =>
               match result with
               | Some children => Forall (sound possibilities) children
               | None => True
               end)
      (whileRandom possibilities random fuel contents position direction
         spacing children).
Proof.
  induction fuel as [| fuel IH]; intros position children Hchildren;
    rewrite whileRandom_unfold;
    destruct (positionIsNotEmpty position direction);
    try (apply ensures_ret; exact Hchildren).
  - apply ensures_outOfFuel.
  - apply (ensures_bind _ _ _ _ _ _ (generateChild_sound _ _ _)).
    intros [child |] Hchild; [| apply ensures_ret; exact Hchildren].
    apply (ensures_then _ _ _ _ _ (careful_shrinkPositionByChild _ _ _ _)).
    intros position'. cbv zeta.
    destruct (overLimit contents (children ++ [child]));
      [apply ensures_ret; exact I |].
    apply IH. apply Forall_app. split; [exact Hchildren |].
    constructor 2; [exact Hchild | constructor 1].
Qed.

Lemma mapMultiple_sound direction spacing :
  forall choices position,
    ensures (Forall (sound possibilities))
      (mapMultiple possibilities random choices position direction spacing).
Proof.
  induction choices as [| choice rest IH]; intros position; simpl.
  - apply ensures_ret. constructor.
  - apply (ensures_bind _ _ _ _ _ _ (parseChoice_sound _ _ _)).
    intros output Hresolves.
    apply (ensures_then _ _ (Forall (sound possibilities))
             (if String.eqb direction "" then ret position
              else movePositionBySpacing random position direction spacing)).
    + destruct (String.eqb direction "");
        [apply ensures_ret; exact I | apply careful_movePositionBySpacing].
    + intros position'.
      apply (ensures_bind _ _ _ _ _ _ (IH position')).
      intros outputs Houtputs. apply ensures_ret.
      constructor 2; [right; exact Hresolves | exact Houtputs].
Qed.

Lemma getPositionExtremes_sound children :
  match children with
  | Some children => Forall (sound possibilities) children
  | None => True
  end ->
  soundChildren possibilities (getPositionExtremes children).
Proof.
  destruct children as [[| child rest] |]; simpl; auto.
Qed.

Lemma generateChildren_sound fuel schema contents position :
  ensures (soundChildren possibilities)
    (generateChildren possibilities random generate fuel schema contents
       position).
Proof.
  unfold generateChildren, generateChildrenRandom, generateChildrenCertain,
    generateChildrenRepeat, generateChildrenMultiple.
  cbv zeta.
  match goal with
  | |- ensures _ (bind ?m _) =>
      apply (ensures_bind _ _
               (fun children =>
                  match children with
                  | Some children => Forall (sound possibilities) children
                  | None => True
                  end) _ m)
  end.
  - destruct (String.eqb (ct_mode contents) "Random");
      [apply whileRandom_sound; constructor |].
    destruct (String.eqb (ct_mode contents) "Certain").
    { apply (ensures_bind _ _ _ _ _ _ (mapCertain_sound _ _ _ _ _)).
      intros cs Hcs. apply ensures_ret. exact Hcs. }
    destruct (String.eqb (ct_mode contents) "Repeat").
    { apply (ensures_bind _ _ (Forall (sound possibilities)) _
               (whileRepeat _ _ _ _ _ _ _ _ _ _)).
      - apply whileRepeat_sound. constructor.
      - intros cs Hcs. apply ensures_ret. exact Hcs. }
    destruct (String.eqb (ct_mode contents) "Multiple").
    { apply (ensures_bind _ _ _ _ _ _ (mapMultiple_sound _ _ _ _)).
      intros cs Hcs. apply ensures_ret. exact Hcs. }
    apply ensures_ret. exact I.
  - intros children Hchildren. apply ensures_ret.
    apply getPositionExtremes_sound. exact Hchildren.
Qed.

End CarefulStrategies.

Lemma generate_sound fuel :
  forall name command,
    resolves possibilities name ->
    ensures (soundChildren possibilities)
      (generate possibilities random fuel name command).
Proof.
  induction fuel as [| fuel IH]; intros name command (sc & ct & Hsc & Hct);
    rewrite generate_unfold, Hsc, Hct;
    apply generateChildren_sound; intros name' position' Hresolves.
  - apply ensures_outOfFuel.
  - eapply ensures_returns; [apply (IH _ _ Hresolves) | auto].
Qed.

Lemma walkChildren_careful full children :
  (forall child,
      resolves possibilities (c_title child) -> Careful (full child)) ->
  Forall (sound possibilities) children ->
  Careful (walkChildren full children).
Proof.
  intros Hfull. induction children as [| child rest IH]; intros Hchildren;
    simpl.
  - apply ensures_ret. exact I.
  - pose proof (Forall_inv Hchildren) as Hchild.
    pose proof (Forall_inv_tail Hchildren) as Hrest.
    apply ensures_then; [| intros _; exact (IH Hrest)].
    destruct (String.eqb_spec (c_type child) "Known") as [Hknown | Hother].
    + intros s. exact I.
    + destruct (String.eqb (c_type child) "Random");
        [| apply ensures_ret; exact I].
      apply Hfull. destruct Hchild as [Hknown | Hresolves];
        [contradiction | exact Hresolves].
Qed.

Lemma generateFull_careful fuel :
  forall root,
    resolves possibilities (c_title root) ->
    Careful (generateFull possibilities random fuel root).
Proof.
  induction fuel as [| fuel IH]; intros root Hresolves;
    rewrite generateFull_unfold;
    apply (ensures_bind _ _ _ _ _ _
             (generate_sound _ (c_title root) (positionOf root) Hresolves));
    intros [g |] Hchildren; try (apply ensures_ret; exact I);
    apply walkChildren_careful; try exact Hchildren.
  - intros child _. apply ensures_outOfFuel.
  - intros child Hchild. exact (IH child Hchild).
Qed.

End Careful.



(** ** A box without space *)

(** X17: on a schema in Random or Repeat mode, a box that has no space
    left along the direction of the schema (no width for "right" and "left",
    no height otherwise) gives [undefined]: [generate] places nothing, draws
    no random number and leaves the state as it was, whatever the fuel; and
    [generateFull] on a node with such a title and box returns without
    generating any command. *)
Theorem generate_without_space :
  forall (possibilities : gmap string IPossibility) (random : nat -> Q)
         (fuel : nat) (name : string) (command : IPosition) (s : State)
         (schema : IPossibility) (contents : IPossibilityContents),
    possibilities !! name = Some schema ->
    p_contents schema = Some contents ->
    ct_mode contents = "Random" \/ ct_mode contents = "Repeat" ->
    positionIsNotEmpty command (ct_direction contents) = false ->
    generate possibilities random fuel name command s = (Returns None, s) /\
    forall root,
      c_title root = name ->
      positionOf root = command ->
      generateFull possibilities random fuel root s = (Returns tt, s).
Proof.
  intros possibilities random fuel name command s schema contents
    Hschema Hcontents Hmode Hempty.
  assert (generate possibilities random fuel name command s
          = (Returns None, s)) as Hgenerate.
  { destruct Hmode as [Hmode | Hmode].
    - rewrite (generate_Random _ _ _ _ _ _ _ _ Hschema Hcontents Hmode).
      rewrite (bind_Returns _ _ _ _ s (Some []) s); [reflexivity |].
      rewrite whileRandom_unfold, Hempty. reflexivity.
    - rewrite (generate_Repeat _ _ _ _ _ _ _ _ Hschema Hcontents Hmode).
      rewrite (bind_Returns _ _ _ _ s [] s); [reflexivity |].
      rewrite whileRepeat_unfold, Hempty. reflexivity. }
  split; [exact Hgenerate |].
  intros root <- <-.
  rewrite generateFull_unfold.
  rewrite (bind_Returns _ _ _ _ _ _ _ Hgenerate). reflexivity.
Qed.

Lemma generate_without_space_witness :
  generate mixedRow alwaysHalf 100 "Row" (mkPosition 10 50 0 50) initialState
  = (Returns None, initialState).
Proof.
  exact (proj1 (generate_without_space mixedRow alwaysHalf 100 "Row"
                  (mkPosition 10 50 0 50) initialState
                  (mkPossibility 100 10 (Some mixedContents)) mixedContents
                  eq_refl eq_refl (or_introl eq_refl) eq_refl)).
Defined.

(** ** The commands of [generateFull] *)

Lemma collectChildren_known full children :
  (forall child s commands s',
      full child s = (Returns commands, s') ->
      Forall (fun c => c_type c = "Known") commands) ->
  forall s commands s',
    collectChildren full children s = (Returns commands, s') ->
    Forall (fun c => c_type c = "Known") commands.
Proof.
  intros Hfull. induction children as [| child rest IH];
    intros s commands s' Hrun; simpl in Hrun.
  - injection Hrun as <- <-. constructor.
  - apply bind_Returns_inv in Hrun as (here & s1 & Hhere & Hrun).
    apply bind_Returns_inv in Hrun as (there & s2 & Hthere & Hret).
    injection Hret as <- <-.
    apply Forall_app. split; [| exact (IH _ _ _ Hthere)].
    destruct (String.eqb_spec (c_type child) "Known") as [Hknown | _].
    + injection Hhere as <- <-. constructor 2; [exact Hknown | constructor].
    + destruct (String.eqb (c_type child) "Random").
      * exact (Hfull _ _ _ _ Hhere).
      * injection Hhere as <- <-. constructor.
Qed.

Lemma collectFull_known possibilities random fuel :
  forall root s commands s',
    collectFull possibilities random fuel root s = (Returns commands, s') ->
    Forall (fun c => c_type c = "Known") commands.
Proof.
  induction fuel as [| fuel IH]; intros root s commands s' Hrun;
    rewrite collectFull_unfold in Hrun;
    apply bind_Returns_inv in Hrun as ([g |] & s1 & _ & Hrun);
    try (injection Hrun as <- <-; constructor);
    apply (collectChildren_known _ _) in Hrun; try exact Hrun.
  - intros child t commands' t' Hnested. discriminate Hnested.
  - intros child t commands' t' Hnested. exact (IH _ _ _ _ Hnested).
Qed.

(** X18: when [generateFull] returns, it has left the commands that were
    there in place and has appended only nodes of type "Known": no node of
    another type is ever handed to [onPlacement]. *)
Theorem generateFull_commands_known :
  forall (possibilities : gmap string IPossibility) (random : nat -> Q)
         (fuel : nat) (root : IChoice) (s s' : State),
    generateFull possibilities random fuel root s = (Returns tt, s') ->
    exists new,
      generatedCommands s' = generatedCommands s ++ new /\
      Forall (fun c => c_type c = "Known") new.
Proof.
  intros possibilities random fuel root s s' Hrun.
  pose proof (generateFull_Collects possibilities random fuel root
                (generatedCommands s) s) as Hcollects.
  rewrite withCommands_same in Hcollects.
  destruct (collectFull possibilities random fuel root s)
    as [[commands | e |] s1] eqn:Hcollected.
  - rewrite Hrun in Hcollects. injection Hcollects as ->.
    exists commands. split; [reflexivity |].
    exact (collectFull_known _ _ _ _ _ _ _ Hcollected).
  - rewrite Hrun in Hcollects. discriminate Hcollects.
  - rewrite Hrun in Hcollects. discriminate Hcollects.
Qed.

Lemma generateFull_commands_known_witness :
  exists s' new,
    generateFull yard alwaysQuarter 5 yardNode initialState
    = (Returns tt, s') /\
    generatedCommands s' = generatedCommands initialState ++ new /\
    List.map c_title new = ["A"; "A"; "A"] /\
    Forall (fun c => c_type c = "Known") new.
Proof.
  destruct (generateFull yard alwaysQuarter 5 yardNode initialState)
    as [out s'] eqn:Hrun.
  pose proof Hrun as Hcomputed. vm_compute in Hcomputed.
  injection Hcomputed as Hout Hs'.
  assert (generateFull yard alwaysQuarter 5 yardNode initialState
          = (Returns tt, s')) as Hreturned
    by (rewrite Hrun, <- Hout; reflexivity).
  destruct (generateFull_commands_known yard alwaysQuarter 5 yardNode
              initialState s' Hreturned) as (new & Hnew & Hknown).
  exists s', new. split; [rewrite <- Hout; reflexivity |].
  split; [exact Hnew |]. split; [| exact Hknown].
  rewrite <- Hs' in Hnew. cbn in Hnew. rewrite <- Hnew. reflexivity.
Defined.

(** ** Alternatives of arguments *)

Lemma chooseAmong_returns random A (percent : A -> option Z) choices s :
  exists chosen s', chooseAmong random percent choices s = (Returns chosen, s').
Proof.
  destruct choices as [| c1 [| c2 rest]]; unfold chooseAmong;
    eexists _, _; reflexivity.
Qed.

(** X19: [parseChoice] reads the [arguments] of a child reference through
    [chooseAmong] when they are a list of weighted alternatives.  The
    arguments of the node are then the [values] of one of the alternatives;
    and the only way to fail is the read of [values] on the [undefined] that
    [chooseAmong] returns when no alternative is reached, which throws a
    [TypeError].  Arguments that are not a list are handed over as they
    are, without drawing. *)
Theorem chooseArguments_alternatives :
  forall (random : nat -> Q) (a : addr) (s : State) (o : HeapObject),
    heap s !! a = Some o ->
    (ho_items o = None ->
     chooseArguments random (Some a) s = (Returns (Some a), s)) /\
    (forall items,
        ho_items o = Some items ->
        (forall result s',
            chooseArguments random (Some a) s = (Returns result, s') ->
            exists c, In c items /\ result = ac_values c) /\
        (forall e s',
            chooseArguments random (Some a) s = (Throws e, s') ->
            e = TypeError /\
            chooseAmong random ac_percent items s = (Returns None, s'))).
Proof.
  intros random a s [items0 props] Ho. unfold addr in *.
  unfold chooseArguments, getObject.
  rewrite (bind_Returns _ _ _ _ s (Some (mkHeapObject items0 props)) s)
    by (rewrite <- Ho; reflexivity).
  cbn [ho_items]. split.
  - intros ->. reflexivity.
  - intros items ->. split.
    + intros result s' Hrun.
      apply bind_Returns_inv in Hrun as ([c |] & s1 & Hchosen & Hrun);
        [| discriminate].
      injection Hrun as <- <-. exists c.
      split; [exact (chooseAmong_In _ _ _ _ _ _ _ Hchosen) | reflexivity].
    + intros e s' Hrun. unfold bind in Hrun.
      pose proof (chooseAmong_returns random _ ac_percent items s)
        as (chosen & s1 & Hchosen).
      rewrite Hchosen in Hrun.
      destruct chosen as [c |]; [discriminate |].
      injection Hrun as <- <-. split; [reflexivity | exact Hchosen].
Qed.

Lemma chooseArguments_alternatives_witness :
  (exists c,
      In c [mkArgumentsChoice (Some 30) (Some 1%nat);
            mkArgumentsChoice (Some 20) (Some 2%nat)] /\
      Some 1%nat = ac_values c) /\
  exists e s',
    chooseArguments alwaysHalf (Some 0%nat) alternativesHeap = (Throws e, s') /\
    e = TypeError.
Proof.
  pose proof (proj2 (chooseArguments_alternatives alwaysQuarter 0%nat
                       alternativesHeap _ eq_refl) _ eq_refl) as [Hreturns _].
  pose proof (proj2 (chooseArguments_alternatives alwaysHalf 0%nat
                       alternativesHeap _ eq_refl) _ eq_refl) as [_ Hthrows].
  split.
  - exact (Hreturns (Some 1%nat) (afterDraw alternativesHeap) eq_refl).
  - exists TypeError, (afterDraw alternativesHeap).
    split; [reflexivity |].
    exact (proj1 (Hthrows TypeError (afterDraw alternativesHeap) eq_refl)).
Defined.

(** ** Sizing and the fit test of Random mode *)

Lemma placeChoice_width choice arguments sc ct position direction :
  c_width (placeChoice choice arguments sc ct position direction)
  = choiceWidth choice sc.
Proof.
  unfold placeChoice, snapChoice, setDirectionEdge.
  repeat match goal with
         | |- context [String.eqb ?a ?b] => destruct (String.eqb a b)
         end; reflexivity.
Qed.


